(** * LimitedMediaEncoder: the job server of [server.py]

    A shallow embedding of [server.py]: the job table [JOBS], the work queue
    [JOB_QUEUE], the worker loop [job_worker], the three routes
    [encode_start], [encode_status], [encode_result] and the deferred
    clean-up thread.  Threads are modelled by a program counter per thread
    and one transition per statement that touches shared state (the job
    table, a job dictionary, the queue, the file system); the transitions of
    all threads interleave freely. *)

From Stdlib Require Import ZArith Ascii String List Lia.
From stdpp Require Import base tactics option list gmap strings pretty.

#[local] Set Warnings "-register-all".
Local Open Scope string_scope.
Local Open Scope list_scope.

(** ** Paths and exceptions *)

(** A [pathlib.Path], as the list of its components, innermost first: the
    parent of [name :: p] is [p]. *)
Abbreviation path := (list string).

(** A job dictionary is an object on the heap; [JOBS] and the locals [job]
    of the threads hold references to it. *)
Abbreviation loc := nat.

(** [p / name] *)
Definition child (p : path) (name : string) : path := name :: p.
Infix "//" := child (at level 40, left associativity).

Inductive exn :=
  | OSError (p : path)       (* FileNotFoundError, FileExistsError, ... on [p] *)
  | JSONDecodeError
  | AttributeError (attr : string).

Inductive result (A : Type) :=
  | Ok (a : A)
  | Raise (e : exn).
Arguments Ok {A} a.
Arguments Raise {A} e.

#[global] Instance result_ret : MRet result := @Ok.
#[global] Instance result_bind : MBind result := λ A B f r,
  match r with
  | Ok a => f a
  | Raise e => Raise e
  end.

(** ** What the model takes from the Python runtime and the platform *)

Class Runtime := {
  float : Type;                    (* Python floats *)
  float_str : float → string;      (* [str(x)] *)
  float_bool : float → bool;       (* [bool(x)] *)
  str_repr : string → string;      (* [repr(s)] of a [str] *)
  path_str : path → string;        (* [str(p)] of a [Path] *)
  resolve : path → path;           (* [Path.resolve] *)
  exn_str : exn → string;          (* [str(e)] of an exception *)
  getcwd : path;                   (* [os.getcwd()] at start-up *)
}.

Section Server.
Context `{Runtime}.

(** ** JSON documents, as [json.loads] builds them *)

Inductive json :=
  | JNull
  | JBool (b : bool)
  | JInt (z : Z)
  | JFloat (x : float)
  | JStr (s : string)
  | JArr (items : list json)
  | JObj (items : list (string * json)).   (* the dict's items, keys distinct *)

(** Truth value of a Python object. *)
Definition py_bool (v : json) : bool :=
  match v with
  | JNull => false
  | JBool b => b
  | JInt z => negb (z =? 0)%Z
  | JFloat x => float_bool x
  | JStr s => negb (String.eqb s "")
  | JArr items => negb (Nat.eqb (length items) 0)
  | JObj items => negb (Nat.eqb (length items) 0)
  end.

Fixpoint py_repr (v : json) : string :=
  match v with
  | JNull => "None"
  | JBool true => "True"
  | JBool false => "False"
  | JInt z => pretty z
  | JFloat x => float_str x
  | JStr s => str_repr s
  | JArr items => "[" +:+ String.concat ", " (map py_repr items) +:+ "]"
  | JObj items =>
      "{" +:+ String.concat ", "
                (map (λ kv, match kv with
                            | (k, v) => str_repr k +:+ ": " +:+ py_repr v
                            end) items) +:+ "}"
  end.

(** [str(v)] *)
Definition py_str (v : json) : string :=
  match v with
  | JStr s => s
  | _ => py_repr v
  end.

Fixpoint dict_lookup (key : string) (items : list (string * json)) : option json :=
  match items with
  | [] => None
  | (k, v) :: rest => if String.eqb k key then Some v else dict_lookup key rest
  end.

(** [options.get(key, default)]: only a dict has the method [get]. *)
Definition get (options : json) (key : string) (default : json) : result json :=
  match options with
  | JObj items =>
      Ok (match dict_lookup key items with Some v => v | None => default end)
  | _ => Raise (AttributeError "get")
  end.

(** A text, as far as [json.loads] tells texts apart: it parses to a
    document, or it raises [JSONDecodeError].  [json.dump] writes a text that
    parses back to the document dumped. *)
Inductive text :=
  | WellFormed (doc : json)
  | Malformed (raw : string).

Definition json_loads (t : text) : result json :=
  match t with
  | WellFormed doc => Ok doc
  | Malformed _ => Raise JSONDecodeError
  end.

Definition json_dumps (doc : json) : text := WellFormed doc.

(** ** The file system *)

Inductive node :=
  | Dir
  | File (content : text).

Abbreviation filesys := (gmap path node).

(** [p.mkdir(parents=True, exist_ok=True)] *)
Fixpoint mkdir_p (p : path) (f : filesys) : result filesys :=
  match f !! p with
  | Some Dir => Ok f
  | Some (File _) => Raise (OSError p)
  | None =>
      match p with
      | [] => Ok (<[p := Dir]> f)
      | _ :: parent => f' ← mkdir_p parent f; Ok (<[p := Dir]> f')
      end
  end.

(** [open(p, "w")] followed by writing [t]; also [FileStorage.save(p)]. *)
Definition write_file (p : path) (t : text) (f : filesys) : result filesys :=
  match f !! tail p, f !! p with
  | Some Dir, Some Dir => Raise (OSError p)
  | Some Dir, _ => Ok (<[p := File t]> f)
  | _, _ => Raise (OSError p)
  end.

(** [open(p, "r")] followed by reading the whole file. *)
Definition read_file (p : path) (f : filesys) : result text :=
  match f !! p with
  | Some (File t) => Ok t
  | _ => Raise (OSError p)
  end.

(** [os.path.exists(p)] *)
Definition exists_ (p : path) (f : filesys) : bool := bool_decide (is_Some (f !! p)).

(** [shutil.rmtree(folder, ignore_errors=True)] *)
Definition rmtree (folder : path) (f : filesys) : filesys :=
  filter (λ e, ¬ folder `suffix_of` e.1) f.

(** ** Configuration *)

Definition BASE_DIR : path := getcwd.
Definition TEMP_DIR : path := BASE_DIR // "temp".

(** ** The pure part of [job_worker] *)

Definition backslash : ascii := ascii_of_nat 92.
Definition colon : ascii := ascii_of_nat 58.

(** [s.replace(old, new)] for a one-character [old]. *)
Fixpoint replace (old : ascii) (new : string) (s : string) : string :=
  match s with
  | EmptyString => EmptyString
  | String c rest =>
      if Ascii.eqb c old then new +:+ replace old new rest
      else String c (replace old new rest)
  end.

Definition scale : string := "scale='min(3840,iw)':-2".

(** Lines 59-68. *)
Definition vf_arg (srt_exists : bool) (srt_file : path) : string :=
  if negb srt_exists then scale
  else
    let srt_path := resolve srt_file in
    let srt_escaped :=
      replace colon (String backslash (String colon EmptyString))
        (replace backslash (String backslash (String backslash EmptyString))
           (path_str srt_path)) in
    scale +:+ ",subtitles='" +:+ srt_escaped +:+ "'".

(** The locals of lines 53-57. *)
Record options_locals := {
  ffmpeg_preset : json;
  crf : string;
  stereo : json;
  audio_bitrate : string;
  channels : string;
}.

(** Lines 53-57. *)
Definition read_options (options : json) : result options_locals :=
  ffmpeg_preset ← get options "ffmpeg_preset" (JStr "medium");
  constant_rate_factor ← get options "constant_rate_factor" (JInt 23);
  stereo ← get options "stereo" (JBool true);
  audio_bitrate ← get options "audio_bitrate" (JInt 128);
  Ok {| ffmpeg_preset := ffmpeg_preset;
        crf := py_str constant_rate_factor;
        stereo := stereo;
        audio_bitrate := py_str audio_bitrate;
        channels := if py_bool stereo then "2" else "1" |}.

(** Lines 70-86: the argument list; [ffmpeg_preset] goes in as the option
    document has it, every other element is a [str]. *)
Definition command (input_file output_file : path) (vf_arg : string)
    (o : options_locals) : list json :=
  [ JStr "ffmpeg";
    JStr "-y";
    JStr "-i"; JStr (path_str input_file);
    JStr "-vf"; JStr vf_arg;
    JStr "-c:v"; JStr "libx264";
    JStr "-preset"; ffmpeg_preset o;
    JStr "-profile:v"; JStr "high";
    JStr "-level"; JStr "4.2";
    JStr "-pix_fmt"; JStr "yuv420p";
    JStr "-crf"; JStr (crf o);
    JStr "-movflags"; JStr "+faststart";
    JStr "-c:a"; JStr "aac";
    JStr "-b:a"; JStr (audio_bitrate o +:+ "k");
    JStr "-ac"; JStr (channels o);
    JStr (path_str output_file) ].

(** ** Job records and the shared state *)

Inductive job_status := queued | processing | done | failed.

#[global] Instance job_status_eq_dec : EqDecision job_status.
Proof. solve_decision. Defined.

(** The [status] strings of the source. *)
Definition status_str (st : job_status) : string :=
  match st with
  | queued => "queued"
  | processing => "processing"
  | done => "done"
  | failed => "failed"
  end.

(** A job dictionary (line 21, lines 141-147). *)
Record Job := {
  status : job_status;
  folder : path;
  output_file : option path;
  error : option string;
  worker : option string;
}.

Definition set_status (v : job_status) (j : Job) : Job :=
  {| status := v; folder := folder j; output_file := output_file j;
     error := error j; worker := worker j |}.
Definition set_output_file (v : option path) (j : Job) : Job :=
  {| status := status j; folder := folder j; output_file := v;
     error := error j; worker := worker j |}.
Definition set_error (v : option string) (j : Job) : Job :=
  {| status := status j; folder := folder j; output_file := output_file j;
     error := v; worker := worker j |}.
Definition set_worker (v : option string) (j : Job) : Job :=
  {| status := status j; folder := folder j; output_file := output_file j;
     error := error j; worker := v |}.

(** An uploaded file part ([werkzeug.FileStorage]); it is falsy when its
    file name is empty. *)
Record FileStorage := { filename : string; stream : text }.

Definition file_bool (f : option FileStorage) : bool :=
  match f with
  | Some f => negb (String.eqb (filename f) "")
  | None => false
  end.

(** A [POST /encode/start] request: [request.files] and [request.form]. *)
Record request := {
  files_input_file : option FileStorage;
  files_srt_file : option FileStorage;
  form_options : option text;
}.

Inductive response :=
  | jsonify (code : nat) (body : list (string * json))
  | send_file (p : path) (download_name : string).

(** What [subprocess.run] did (line 91). *)
Inductive outcome :=
  | Exited (returncode : Z) (stderr : string)
  | Raised (msg : string).               (* [msg] is [str(e)] *)


(** Where a worker thread stands in [job_worker]. *)
Inductive wpc :=
  | WGet                                                      (* line 32 *)
  | WLookup (ticket_id : string)                              (* lines 33-35 *)
  | WSetWorker (ticket_id : string) (job : loc)               (* line 40 *)
  | WSetProcessing (ticket_id : string) (job : loc)           (* lines 42-46 *)
  | WLoadOptions (ticket_id : string) (job : loc) (folder : path)   (* lines 49-57 *)
  | WBuild (ticket_id : string) (job : loc) (folder : path)
           (o : options_locals)                               (* lines 59-88 *)
  | WRun (ticket_id : string) (job : loc) (cmd : list json)
         (output_file : path)                                 (* line 91 *)
  | WStatus (ticket_id : string) (job : loc) (output_file : path)
            (r : outcome)                                     (* lines 92-93, 97, 100 *)
  | WDetail (ticket_id : string) (job : loc) (output_file : path)
            (r : outcome)                                     (* lines 94, 98, 101 *)
  | WTaskDone                                                 (* line 103 *)
  | WDead (e : exn).                       (* the thread ended with an exception *)

(** Where a request thread stands in [encode_start]. *)
Inductive hpc :=
  | HMkdir (req : request) (ticket_id : string)               (* lines 114-116 *)
  | HSaveInput (req : request) (ticket_id : string)           (* lines 119-124 *)
  | HSaveSrt (req : request) (ticket_id : string)             (* lines 126-129 *)
  | HWriteOptions (req : request) (ticket_id : string)        (* lines 132-138 *)
  | HInsert (req : request) (ticket_id : string)              (* lines 141-147 *)
  | HPut (req : request) (ticket_id : string)                 (* line 149 *)
  | HReturn (ticket_id : string) (r : response).              (* lines 121, 151, 153 *)

(** Where a [delayed_cleanup] thread stands. *)
Inductive cpc :=
  | CRmtree (ticket_id : string) (folder : path)              (* lines 186-188 *)
  | CPop (ticket_id : string) (folder : path)                 (* line 189 *)
  | CExit.

Record state := {
  JOBS : gmap string loc;
  heap : list Job;
  JOB_QUEUE : list string;
  fs : filesys;
  workers : list wpc;          (* worker [i] is the thread [JobWorker-(i+1)] *)
  handlers : list hpc;         (* the [encode_start] requests received so far *)
  cleanups : list cpc;         (* the clean-up threads started so far *)
  issued : gset string;        (* the values [uuid.uuid4()] has returned *)
}.

Definition set_JOBS (f : gmap string loc → gmap string loc) (s : state) : state :=
  {| JOBS := f (JOBS s); heap := heap s; JOB_QUEUE := JOB_QUEUE s; fs := fs s;
     workers := workers s; handlers := handlers s; cleanups := cleanups s;
     issued := issued s |}.
Definition set_heap (f : list Job → list Job) (s : state) : state :=
  {| JOBS := JOBS s; heap := f (heap s); JOB_QUEUE := JOB_QUEUE s; fs := fs s;
     workers := workers s; handlers := handlers s; cleanups := cleanups s;
     issued := issued s |}.
Definition set_JOB_QUEUE (f : list string → list string) (s : state) : state :=
  {| JOBS := JOBS s; heap := heap s; JOB_QUEUE := f (JOB_QUEUE s); fs := fs s;
     workers := workers s; handlers := handlers s; cleanups := cleanups s;
     issued := issued s |}.
Definition set_fs (f : filesys → filesys) (s : state) : state :=
  {| JOBS := JOBS s; heap := heap s; JOB_QUEUE := JOB_QUEUE s; fs := f (fs s);
     workers := workers s; handlers := handlers s; cleanups := cleanups s;
     issued := issued s |}.
Definition set_workers (f : list wpc → list wpc) (s : state) : state :=
  {| JOBS := JOBS s; heap := heap s; JOB_QUEUE := JOB_QUEUE s; fs := fs s;
     workers := f (workers s); handlers := handlers s; cleanups := cleanups s;
     issued := issued s |}.
Definition set_handlers (f : list hpc → list hpc) (s : state) : state :=
  {| JOBS := JOBS s; heap := heap s; JOB_QUEUE := JOB_QUEUE s; fs := fs s;
     workers := workers s; handlers := f (handlers s); cleanups := cleanups s;
     issued := issued s |}.
Definition set_cleanups (f : list cpc → list cpc) (s : state) : state :=
  {| JOBS := JOBS s; heap := heap s; JOB_QUEUE := JOB_QUEUE s; fs := fs s;
     workers := workers s; handlers := handlers s; cleanups := f (cleanups s);
     issued := issued s |}.
Definition set_issued (f : gset string → gset string) (s : state) : state :=
  {| JOBS := JOBS s; heap := heap s; JOB_QUEUE := JOB_QUEUE s; fs := fs s;
     workers := workers s; handlers := handlers s; cleanups := cleanups s;
     issued := f (issued s) |}.

(** [JOBS.get(ticket_id)]: the job dictionary, if any, and the reference. *)
Definition JOBS_get (ticket_id : string) (s : state) : option (loc * Job) :=
  l ← JOBS s !! ticket_id; j ← heap s !! l; Some (l, j).

(** [job[field] = v] through the reference [l]. *)
Definition assign (l : loc) (f : Job → Job) (s : state) : state :=
  set_heap (alter f l) s.

(** ** [job_worker], lines 29-103 *)

Definition worker_name (i : nat) : string := "JobWorker-" +:+ pretty (i + 1)%nat.

Definition worker_step (name : string) (pc : wpc) (s : state) : option (wpc * state) :=
  match pc with
  | WGet =>
      match JOB_QUEUE s with
      | [] => None                                   (* blocked in [JOB_QUEUE.get()] *)
      | ticket_id :: rest => Some (WLookup ticket_id, set_JOB_QUEUE (λ _, rest) s)
      end
  | WLookup ticket_id =>
      match JOBS_get ticket_id s with
      | None => Some (WGet, s)                         (* [continue] *)
      | Some (job, _) => Some (WSetWorker ticket_id job, s)
      end
  | WSetWorker ticket_id job =>
      Some (WSetProcessing ticket_id job, assign job (set_worker (Some name)) s)
  | WSetProcessing ticket_id job =>
      let s' := assign job (set_status processing) s in
      j ← heap s' !! job;
      Some (WLoadOptions ticket_id job (folder j), s')
  | WLoadOptions ticket_id job folder =>
      let options_file := folder // "options.json" in
      match (t ← read_file options_file (fs s);
             options ← json_loads t;
             read_options options) with
      | Ok o => Some (WBuild ticket_id job folder o, s)
      | Raise e => Some (WDead e, s)
      end
  | WBuild ticket_id job folder o =>
      let input_file := folder // "input_file" in
      let srt_file := folder // "input.srt" in
      let output_file := folder // "output.mp4" in
      let vf := vf_arg (exists_ srt_file (fs s)) srt_file in
      Some (WRun ticket_id job (command input_file output_file vf o) output_file, s)
  | WRun _ _ _ _ => None                        (* see [step], [WExec] *)
  | WStatus ticket_id job output_file r =>
      let st := match r with
                | Exited 0 _ => done
                | Exited _ _ => failed
                | Raised _ => failed
                end in
      Some (WDetail ticket_id job output_file r, assign job (set_status st) s)
  | WDetail ticket_id job output_file r =>
      let f := match r with
               | Exited 0 _ => set_output_file (Some output_file)
               | Exited _ stderr => set_error (Some stderr)
               | Raised msg => set_error (Some msg)
               end in
      Some (WTaskDone, assign job f s)
  | WTaskDone => Some (WGet, s)
  | WDead _ => None
  end.

(** [subprocess.run(command, ...)] raises [TypeError] unless every argument
    is a [str]. *)
Definition is_str (v : json) : bool :=
  match v with JStr _ => true | _ => false end.

Definition may_result (cmd : list json) (r : outcome) : bool :=
  match r with
  | Exited _ _ => forallb is_str cmd
  | Raised _ => true
  end.

(** ** [encode_start], lines 110-153 *)

Definition internal_error (e : exn) : response :=
  jsonify 500 [("error", JStr (exn_str e))].

Definition handler_step (pc : hpc) (s : state) : option (hpc * state) :=
  match pc with
  | HMkdir req ticket_id =>
      let job_folder := TEMP_DIR // ticket_id in
      match mkdir_p job_folder (fs s) with
      | Ok f => Some (HSaveInput req ticket_id, set_fs (λ _, f) s)
      | Raise e => Some (HReturn ticket_id (internal_error e), s)
      end
  | HSaveInput req ticket_id =>
      let job_folder := TEMP_DIR // ticket_id in
      match files_input_file req with
      | Some input_file =>
          if file_bool (Some input_file) then
            match write_file (job_folder // "input_file") (stream input_file) (fs s) with
            | Ok f => Some (HSaveSrt req ticket_id, set_fs (λ _, f) s)
            | Raise e => Some (HReturn ticket_id (internal_error e), s)
            end
          else Some (HReturn ticket_id (jsonify 400 [("error", JStr "Missing input_file")]), s)
      | None => Some (HReturn ticket_id (jsonify 400 [("error", JStr "Missing input_file")]), s)
      end
  | HSaveSrt req ticket_id =>
      let job_folder := TEMP_DIR // ticket_id in
      match files_srt_file req with
      | Some srt_file =>
          if file_bool (Some srt_file) then
            match write_file (job_folder // "input.srt") (stream srt_file) (fs s) with
            | Ok f => Some (HWriteOptions req ticket_id, set_fs (λ _, f) s)
            | Raise e => Some (HReturn ticket_id (internal_error e), s)
            end
          else Some (HWriteOptions req ticket_id, s)
      | None => Some (HWriteOptions req ticket_id, s)
      end
  | HWriteOptions req ticket_id =>
      let job_folder := TEMP_DIR // ticket_id in
      let options_raw :=
        match form_options req with
        | Some t => t
        | None => WellFormed (JObj [])          (* the text of two braces *)
        end in
      let options :=
        match json_loads options_raw with
        | Ok doc => doc
        | Raise _ => JObj []
        end in
      match write_file (job_folder // "options.json") (json_dumps options) (fs s) with
      | Ok f => Some (HInsert req ticket_id, set_fs (λ _, f) s)
      | Raise e => Some (HReturn ticket_id (internal_error e), s)
      end
  | HInsert req ticket_id =>
      let job_folder := TEMP_DIR // ticket_id in
      let job := {| status := queued; folder := job_folder; output_file := None;
                    error := None; worker := None |} in
      let l := length (heap s) in
      Some (HPut req ticket_id,
            set_JOBS <[ticket_id := l]> (set_heap (λ h, h ++ [job]) s))
  | HPut req ticket_id =>
      Some (HReturn ticket_id
              (jsonify 200 [("ticket_id", JStr ticket_id); ("status", JStr "queued")]),
            set_JOB_QUEUE (λ q, q ++ [ticket_id]) s)
  | HReturn _ _ => None
  end.

(** ** [encode_status], lines 156-167 *)

Definition opt_str (o : option string) : json :=
  match o with
  | Some v => JStr v
  | None => JNull
  end.

Definition encode_status (ticket_id : string) (s : state) : response :=
  match JOBS_get ticket_id s with
  | None => jsonify 404 [("error", JStr "Invalid ticket")]
  | Some (_, job) =>
      jsonify 200 [("ticket_id", JStr ticket_id);
                   ("status", JStr (status_str (status job)));
                   ("worker", opt_str (worker job));
                   ("error", opt_str (error job))]
  end.

(** ** [encode_result], lines 170-201, and [delayed_cleanup] *)

Definition encode_result (ticket_id : string) (s : state) : response * state :=
  match JOBS_get ticket_id s with
  | None => (jsonify 404 [("error", JStr "Invalid ticket")], s)
  | Some (_, job) =>
      match status job, output_file job with
      | done, Some output_path =>
          (send_file output_path (ticket_id +:+ ".mp4"),
           set_cleanups (λ c, c ++ [CRmtree ticket_id (folder job)]) s)
      | _, _ => (jsonify 400 [("error", JStr "Job not completed")], s)
      end
  end.

Definition cleanup_step (pc : cpc) (s : state) : option (cpc * state) :=
  match pc with
  | CRmtree ticket_id folder => Some (CPop ticket_id folder, set_fs (rmtree folder) s)
  | CPop ticket_id folder => Some (CExit, set_JOBS (delete ticket_id) s)
  | CExit => None
  end.

(** ** The server as a transition system *)

Inductive label :=
  | ReqStart (req : request) (uuid : string)   (* a [POST /encode/start] arrives;
                                                  [uuid.uuid4()] returns [uuid] *)
  | HStep (h : nat)                            (* request [h] runs its next statement *)
  | ReqStatus (ticket_id : string)             (* a whole [GET /encode/status/...] *)
  | ReqResult (ticket_id : string)             (* a whole [GET /encode/result/...] *)
  | WStep (w : nat)                            (* worker [w] runs its next statement *)
  | WExec (w : nat) (r : outcome)              (* worker [w] runs the command: [r] *)
  | CStep (c : nat).                           (* clean-up thread [c] runs its next statement *)

Definition step (a : label) (s : state) : option state :=
  match a with
  | ReqStart req uuid =>
      if decide (uuid ∈ issued s) then None
      else Some (set_handlers (λ hs, hs ++ [HMkdir req uuid])
                   (set_issued (λ i, {[uuid]} ∪ i) s))
  | HStep h =>
      pc ← handlers s !! h;
      r ← handler_step pc s;
      Some (set_handlers <[h := r.1]> r.2)
  | ReqStatus ticket_id => Some s
  | ReqResult ticket_id => Some (encode_result ticket_id s).2
  | WStep w =>
      pc ← workers s !! w;
      r ← worker_step (worker_name w) pc s;
      Some (set_workers <[w := r.1]> r.2)
  | WExec w r =>
      pc ← workers s !! w;
      match pc with
      | WRun ticket_id job cmd output_file =>
          if may_result cmd r
          then Some (set_workers <[w := WStatus ticket_id job output_file r]> s)
          else None
      | _ => None
      end
  | CStep c =>
      pc ← cleanups s !! c;
      r ← cleanup_step pc s;
      Some (set_cleanups <[c := r.1]> r.2)
  end.

Fixpoint run (labels : list label) (s : state) : option state :=
  match labels with
  | [] => Some s
  | a :: rest => s' ← step a s; run rest s'
  end.

(** [main]: [num_workers] worker threads, nothing submitted yet; [disk] is
    what the file system holds at that time. *)
Definition init (num_workers : nat) (disk : filesys) : state :=
  {| JOBS := ∅; heap := []; JOB_QUEUE := []; fs := disk;
     workers := replicate num_workers WGet; handlers := []; cleanups := [];
     issued := ∅ |}.

Inductive reachable : state → Prop :=
  | reachable_init num_workers disk : reachable (init num_workers disk)
  | reachable_step a s s' : reachable s → step a s = Some s' → reachable s'.

(** ** The two rejections of the result route *)

Definition NotFound : response := jsonify 404 [("error", JStr "Invalid ticket")].
Definition NotReady : response := jsonify 400 [("error", JStr "Job not completed")].

(** ** Escaping for the filter graph, as the specification words it

    Every backslash and every colon of the path gets a backslash in front;
    every other character stays. *)
Definition escape_char (c : ascii) : string :=
  if Ascii.eqb c backslash || Ascii.eqb c colon
  then String backslash (String c EmptyString)
  else String c EmptyString.

Fixpoint escape_filter_path (s : string) : string :=
  match s with
  | EmptyString => EmptyString
  | String c rest => escape_char c +:+ escape_filter_path rest
  end.

(** ** The status chain of the specification *)

Inductive status_next : job_status → job_status → Prop :=
  | next_processing : status_next queued processing
  | next_done : status_next processing done
  | next_failed : status_next processing failed.

(** ** What the threads rely on

    The facts below hold in every reachable state ([reachable_inv]). *)

(** The path [q] lies in the workspace of ticket [t]. *)
Definition under (t : string) (q : path) : Prop := (TEMP_DIR // t) `suffix_of` q.

(** The file systems [f] and [f'] agree on the workspace of [t]. *)
Definition ws_same (f f' : gmap path node) (t : string) : Prop :=
  ∀ q, under t q → f' !! q = f !! q.

(** The dictionary that the job table [J] holds for [t] satisfies [P]. *)
Definition job_at (J : gmap string loc) (hp : list Job) (t : string)
    (P : loc → Job → Prop) : Prop :=
  ∃ l j, J !! t = Some l ∧ hp !! l = Some j ∧ P l j.

(** The workspace of [t] holds an input file and a well-formed options
    document. *)
Definition populated (f : gmap path node) (t : string) : Prop :=
  (∃ c, f !! (TEMP_DIR // t // "input_file") = Some (File c)) ∧
  (∃ doc, f !! (TEMP_DIR // t // "options.json") = Some (File (WellFormed doc))).

(** Nothing is left of the workspace of [t]. *)
Definition workspace_gone (f : gmap path node) (t : string) : Prop :=
  ∀ q, under t q → f !! q = None.

(** The document that [encode_start] writes for a request (lines 132-136). *)
Definition options_doc (req : request) : json :=
  match form_options req with
  | Some (WellFormed doc) => doc
  | Some (Malformed _) => JObj []
  | None => JObj []
  end.

Definition dir_ok (f : gmap path node) (t : string) : Prop :=
  f !! (TEMP_DIR // t) = Some Dir.
Definition input_ok (f : gmap path node) (req : request) (t : string) : Prop :=
  ∃ input_file, files_input_file req = Some input_file ∧
    f !! (TEMP_DIR // t // "input_file") = Some (File (stream input_file)).
Definition srt_ok (f : gmap path node) (req : request) (t : string) : Prop :=
  ∀ srt_file, files_srt_file req = Some srt_file → file_bool (Some srt_file) = true →
    f !! (TEMP_DIR // t // "input.srt") = Some (File (stream srt_file)).
Definition options_ok (f : gmap path node) (req : request) (t : string) : Prop :=
  f !! (TEMP_DIR // t // "options.json") = Some (File (WellFormed (options_doc req))).

(** The ticket a worker has taken from the queue and is still working on. *)
Definition wticket (pc : wpc) : option string :=
  match pc with
  | WLookup t | WSetWorker t _ | WSetProcessing t _ | WLoadOptions t _ _
  | WBuild t _ _ _ | WRun t _ _ _ | WStatus t _ _ _ | WDetail t _ _ _ => Some t
  | WGet | WTaskDone | WDead _ => None
  end.

Definition wloc (pc : wpc) : option loc :=
  match pc with
  | WSetWorker _ l | WSetProcessing _ l | WLoadOptions _ l _
  | WBuild _ l _ _ | WRun _ l _ _ | WStatus _ l _ _ | WDetail _ l _ _ => Some l
  | WLookup _ | WGet | WTaskDone | WDead _ => None
  end.

Definition wfolder (pc : wpc) : option path :=
  match pc with
  | WLoadOptions _ _ f | WBuild _ _ f _ => Some f
  | _ => None
  end.

Definition outcome_status (r : outcome) : job_status :=
  match r with
  | Exited 0 _ => done
  | Exited _ _ => failed
  | Raised _ => failed
  end.

(** The status the job has while its worker stands at [pc]. *)
Definition wstatus (pc : wpc) : job_status :=
  match pc with
  | WDetail _ _ _ r => outcome_status r
  | WLoadOptions _ _ _ | WBuild _ _ _ _ | WRun _ _ _ _ | WStatus _ _ _ _ => processing
  | _ => queued
  end.

(** A job that no worker has touched. *)
Definition waiting (j : Job) : Prop := status j = queued ∧ output_file j = None.

Definition wgood (J : gmap string loc) (hp : list Job) (q : list string)
    (pc : wpc) : Prop :=
  match wticket pc with
  | None => True
  | Some t =>
      (t ∉ q) ∧
      job_at J hp t (λ l j,
        (∀ l', wloc pc = Some l' → l' = l) ∧
        status j = wstatus pc ∧ output_file j = None ∧
        (∀ f, wfolder pc = Some f → f = TEMP_DIR // t))
  end.

(** The ticket of a request that is still being handled. *)
Definition hticket (pc : hpc) : option string :=
  match pc with
  | HMkdir _ t | HSaveInput _ t | HSaveSrt _ t | HWriteOptions _ t
  | HInsert _ t | HPut _ t => Some t
  | HReturn _ _ => None
  end.

(** ... and whose job is not yet in [JOBS]. *)
Definition hpre (pc : hpc) : option string :=
  match pc with
  | HMkdir _ t | HSaveInput _ t | HSaveSrt _ t | HWriteOptions _ t
  | HInsert _ t => Some t
  | HPut _ _ | HReturn _ _ => None
  end.

Definition unused (I : gset string) (J : gmap string loc) (t : string) : Prop :=
  t ∈ I ∧ J !! t = None.

Definition hgood (I : gset string) (J : gmap string loc) (hp : list Job)
    (q : list string) (f : gmap path node) (pc : hpc) : Prop :=
  match pc with
  | HMkdir req t => unused I J t
  | HSaveInput req t => unused I J t ∧ dir_ok f t
  | HSaveSrt req t => unused I J t ∧ dir_ok f t ∧ input_ok f req t
  | HWriteOptions req t =>
      unused I J t ∧ dir_ok f t ∧ input_ok f req t ∧ srt_ok f req t
  | HInsert req t =>
      unused I J t ∧ input_ok f req t ∧ srt_ok f req t ∧ options_ok f req t
  | HPut req t =>
      (t ∉ q) ∧ job_at J hp t (λ _ j, waiting j) ∧
      input_ok f req t ∧ srt_ok f req t ∧ options_ok f req t
  | HReturn _ _ => True
  end.

Definition cticket (pc : cpc) : option string :=
  match pc with
  | CRmtree t _ | CPop t _ => Some t
  | CExit => None
  end.

(** The job of [t], if [JOBS] still holds it, is done and has its output. *)
Definition finished (J : gmap string loc) (hp : list Job) (t : string) : Prop :=
  ∀ l j, J !! t = Some l → hp !! l = Some j →
    status j = done ∧ is_Some (output_file j).

Definition cgood (I : gset string) (J : gmap string loc) (hp : list Job)
    (f : gmap path node) (pc : cpc) : Prop :=
  match pc with
  | CRmtree t folder => folder = TEMP_DIR // t ∧ t ∈ I ∧ finished J hp t
  | CPop t folder =>
      folder = TEMP_DIR // t ∧ t ∈ I ∧ finished J hp t ∧ workspace_gone f t
  | CExit => True
  end.

(** No two workers hold the same ticket. *)
Definition wexcl (ws : list wpc) : Prop :=
  ∀ w w' pc pc' t, ws !! w = Some pc → ws !! w' = Some pc' →
    wticket pc = Some t → wticket pc' = Some t → w = w'.

(** No two requests got the same ticket. *)
Definition hexcl (hs : list hpc) : Prop :=
  ∀ h h' pc pc' t, hs !! h = Some pc → hs !! h' = Some pc' →
    hticket pc = Some t → hticket pc' = Some t → h = h'.

(** A ticket that is about to be enqueued is with no worker. *)
Definition hw_apart (hs : list hpc) (ws : list wpc) : Prop :=
  ∀ h req t w pc, hs !! h = Some (HPut req t) → ws !! w = Some pc →
    wticket pc ≠ Some t.

(** A ticket whose job is not yet in [JOBS] is with no clean-up thread. *)
Definition hc_apart (hs : list hpc) (cs : list cpc) : Prop :=
  ∀ h pc t c pc', hs !! h = Some pc → hpre pc = Some t →
    cs !! c = Some pc' → cticket pc' ≠ Some t.

(** Every ticket of the job table was issued, and its dictionary is on the
    heap and names the workspace of the ticket. *)
Definition jobs_ok (I : gset string) (J : gmap string loc) (hp : list Job) : Prop :=
  ∀ t l, J !! t = Some l →
    t ∈ I ∧ ∃ j, hp !! l = Some j ∧ folder j = TEMP_DIR // t.

(** The workspace of a job that is not done is populated. *)
Definition ready (J : gmap string loc) (hp : list Job) (f : gmap path node) : Prop :=
  ∀ t l j, J !! t = Some l → hp !! l = Some j → status j ≠ done → populated f t.

(** The job of a ticket in the queue is in the job table, untouched. *)
Definition queue_ok (J : gmap string loc) (hp : list Job) (q : list string) : Prop :=
  ∀ t, t ∈ q → job_at J hp t (λ _ j, waiting j).

Record inv (s : state) : Prop := {
  inv_jobs : jobs_ok (issued s) (JOBS s) (heap s);
  inv_ready : ready (JOBS s) (heap s) (fs s);
  inv_queue_nodup : NoDup (JOB_QUEUE s);
  inv_queue : queue_ok (JOBS s) (heap s) (JOB_QUEUE s);
  inv_workers : ∀ w pc, workers s !! w = Some pc →
    wgood (JOBS s) (heap s) (JOB_QUEUE s) pc;
  inv_wexcl : wexcl (workers s);
  inv_handlers : ∀ h pc, handlers s !! h = Some pc →
    hgood (issued s) (JOBS s) (heap s) (JOB_QUEUE s) (fs s) pc;
  inv_hexcl : hexcl (handlers s);
  inv_hw : hw_apart (handlers s) (workers s);
  inv_hc : hc_apart (handlers s) (cleanups s);
  inv_cleanups : ∀ c pc, cleanups s !! c = Some pc →
    cgood (issued s) (JOBS s) (heap s) (fs s) pc;
}.

(** The ticket [t] has been collected: record and workspace are gone, and
    no request will bring them back. *)
Definition collected (I : gset string) (J : gmap string loc) (f : gmap path node)
    (hs : list hpc) (t : string) : Prop :=
  t ∈ I ∧ J !! t = None ∧ workspace_gone f t ∧
  (∀ h pc, hs !! h = Some pc → hpre pc ≠ Some t).

(** The clean-up thread [c] is the one of ticket [t]; when it has ended,
    [t] has been collected. *)
Definition collecting (s : state) (c : nat) (t : string) : Prop :=
  match cleanups s !! c with
  | Some (CRmtree t' _) => t' = t
  | Some (CPop t' _) => t' = t
  | Some CExit => collected (issued s) (JOBS s) (fs s) (handlers s) t
  | None => False
  end.

(** The claim that a ticket is collected at most once, as the specification
    states it: after one delivery, every later result request for the
    ticket signals [NotFound]. *)
Definition collected_at_most_once : Prop :=
  ∀ s t p n s1 labels s2,
    reachable s →
    encode_result t s = (send_file p n, s1) →
    run labels s1 = Some s2 →
    (encode_result t s2).1 = NotFound.

(** ** Start-up, lines 18-23 and [main]

    [mkdir] is [p.mkdir(exist_ok=True)]: the parent must be there, and a
    directory that exists already is accepted, a file is not. *)
Definition mkdir (p : path) (f : filesys) : result filesys :=
  match f !! p with
  | Some Dir => Ok f
  | Some (File _) => Raise (OSError p)
  | None =>
      match f !! tail p with
      | Some Dir => Ok (<[p := Dir]> f)
      | _ => Raise (OSError p)
      end
  end.

(** The configuration block, run when the module is loaded (line 20). *)
Definition load_module (disk : filesys) : result filesys := mkdir TEMP_DIR disk.

(** The module is loaded, then [main] starts the workers (lines 207-212). *)
Definition main (num_workers : nat) (disk : filesys) : result state :=
  f ← load_module disk; Ok (init num_workers f).

(** ** What the fields of a job dictionary tell

    The facts below hold in every reachable state ([reachable_linked]). *)

(** The error text is there only at [failed], the output file only at
    [done], and a job that has left [queued] names its worker. *)
Definition record_ok (j : Job) : Prop :=
  (is_Some (error j) → status j = failed) ∧
  (is_Some (output_file j) → status j = done) ∧
  (status j ≠ queued → is_Some (worker j)) ∧
  (∀ p, output_file j = Some p → p = folder j // "output.mp4").

(** The job of a worker that has passed line 40. *)
Definition wnamed (pc : wpc) : option loc :=
  match pc with
  | WSetProcessing _ l | WLoadOptions _ l _ | WBuild _ l _ _ | WRun _ l _ _
  | WStatus _ l _ _ | WDetail _ l _ _ => Some l
  | WGet | WLookup _ | WSetWorker _ _ | WTaskDone | WDead _ => None
  end.

(** The local [output_file] of a worker that has passed line 46. *)
Definition wout (pc : wpc) : option path :=
  match pc with
  | WRun _ _ _ out | WStatus _ _ out _ | WDetail _ _ out _ => Some out
  | _ => None
  end.

Definition wlinked (hp : list Job) (w : nat) (pc : wpc) : Prop :=
  (∀ l, wnamed pc = Some l →
     ∃ j, hp !! l = Some j ∧ worker j = Some (worker_name w)) ∧
  (∀ t out, wticket pc = Some t → wout pc = Some out →
     out = TEMP_DIR // t // "output.mp4").

Record linked (s : state) : Prop := {
  linked_records : ∀ l j, heap s !! l = Some j → record_ok j;
  linked_workers : ∀ w pc, workers s !! w = Some pc → wlinked (heap s) w pc;
}.

(** The value that line 53 reads for the preset. *)
Definition preset_of (items : list (string * json)) : json :=
  match dict_lookup "ffmpeg_preset" items with
  | Some v => v
  | None => JStr "medium"
  end.

(** [isinstance(v, dict)] *)
Definition is_dict (v : json) : bool :=
  match v with JObj _ => true | _ => false end.

(** The statements of [encode_start] that a request has before it, at
    most. *)
Definition hrank (pc : hpc) : nat :=
  match pc with
  | HMkdir _ _ => 6
  | HSaveInput _ _ => 5
  | HSaveSrt _ _ => 4
  | HWriteOptions _ _ => 3
  | HInsert _ _ => 2
  | HPut _ _ => 1
  | HReturn _ _ => 0
  end.

(** The status codes of [encode_start]. *)
Definition answered (r : response) : Prop :=
  ∃ code body, r = jsonify code body ∧ (code = 200 ∨ code = 400 ∨ code = 500).

(** The ticket [t] was issued, has no record, and no request is about to
    create one. *)
Definition retired (I : gset string) (J : gmap string loc) (hs : list hpc)
    (t : string) : Prop :=
  t ∈ I ∧ J !! t = None ∧ (∀ h pc, hs !! h = Some pc → hpre pc ≠ Some t).

(** The job of [t] is at [processing], and no thread has the ticket. *)
Definition orphan (s : state) (t : string) (l : loc) : Prop :=
  JOBS s !! t = Some l ∧
  (∃ j, heap s !! l = Some j ∧ status j = processing) ∧
  (∀ w pc, workers s !! w = Some pc → wticket pc ≠ Some t) ∧
  (t ∉ JOB_QUEUE s) ∧
  (∀ h pc, handlers s !! h = Some pc → hticket pc ≠ Some t).

(** The clean-up thread at [pc] is one of ticket [t]; the request [a] is a
    result request for [t]. *)
Definition cleans (t : string) (pc : cpc) : bool :=
  match cticket pc with
  | Some t' => String.eqb t' t
  | None => false
  end.

Definition asks_result (t : string) (a : label) : bool :=
  match a with
  | ReqResult t' => String.eqb t' t
  | _ => false
  end.

(** The statements of [encode_start] for request [h], and those of
    [job_worker] for one ticket whose command ends with [r]. *)
Definition submission (h : nat) : list label :=
  [HStep h; HStep h; HStep h; HStep h; HStep h; HStep h].

Definition processing_of (w : nat) (r : outcome) : list label :=
  [WStep w; WStep w; WStep w; WStep w; WStep w; WStep w; WExec w r;
   WStep w; WStep w; WStep w].

End Server.

(** ** A concrete runtime and concrete requests, for the examples *)

Definition posix : Runtime :=
  {| float := Z;
     float_str := λ x, pretty x +:+ ".0";
     float_bool := λ x, negb (x =? 0)%Z;
     str_repr := λ s, "'" +:+ s +:+ "'";
     path_str := λ p, String.concat "/" ("" :: rev p);
     resolve := λ p, p;
     exn_str := λ e, match e with
                     | OSError p => "OSError"
                     | JSONDecodeError => "JSONDecodeError"
                     | AttributeError a => "AttributeError"
                     end;
     getcwd := ["srv"] |}.

Section Examples.
#[local] Existing Instance posix.

Definition disk : gmap path node := {[ ["srv"] := Dir; ["temp"; "srv"] := Dir ]}.

Definition video : FileStorage := {| filename := "film.mkv"; stream := Malformed "RIFF" |}.
Definition subtitles : FileStorage := {| filename := "film.srt"; stream := Malformed "1" |}.

(** An input file and nothing else. *)
Definition req_plain : request :=
  {| files_input_file := Some video; files_srt_file := None; form_options := None |}.

(** An input file, and the options text of an empty JSON array. *)
Definition req_array : request :=
  {| files_input_file := Some video; files_srt_file := None;
     form_options := Some (WellFormed (JArr [])) |}.

(** No input file. *)
Definition req_no_input : request :=
  {| files_input_file := None; files_srt_file := None; form_options := None |}.

(** The six statements of [encode_start] for request [h]. *)
Definition handle (h : nat) : list label :=
  [HStep h; HStep h; HStep h; HStep h; HStep h; HStep h].

(** Worker [w] takes a ticket and runs the command with result [r]. *)
Definition work (w : nat) (r : outcome) : list label :=
  [WStep w; WStep w; WStep w; WStep w; WStep w; WStep w; WExec w r; WStep w; WStep w;
   WStep w].

(** One job, submitted, queued and transcoded with exit code 0. *)
Definition one_job_done : list label :=
  ReqStart req_plain "t1" :: handle 0 ++ work 0 (Exited 0 "").

(** A job in the queue, at [queued]. *)
Definition one_job_queued : list label :=
  ReqStart req_plain "t1" :: handle 0.

(** ... its worker about to mark it [processing] (line 42), *)
Definition one_job_claimed : list label :=
  one_job_queued ++ [WStep 0; WStep 0; WStep 0].

(** ... about to load the options (line 50), *)
Definition one_job_loading : list label :=
  one_job_claimed ++ [WStep 0].

(** ... about to run the command (line 91). *)
Definition one_job_running : list label :=
  one_job_loading ++ [WStep 0; WStep 0].

(** A job whose options text is an array, and the five statements of the
    worker that takes it. *)
Definition array_job : list label :=
  ReqStart req_array "t1" :: handle 0 ++ [WStep 0; WStep 0; WStep 0; WStep 0; WStep 0].

(** A request without an input file, up to its return. *)
Definition no_input : list label :=
  [ReqStart req_no_input "t1"; HStep 0; HStep 0].

(** A job whose command exits with code 1. *)
Definition one_job_failed : list label :=
  ReqStart req_plain "t1" :: handle 0 ++ work 0 (Exited 1 "no such codec").

(** An input file, a subtitle file and an options object that gives every
    field. *)
Definition req_full : request :=
  {| files_input_file := Some video; files_srt_file := Some subtitles;
     form_options := Some (WellFormed (JObj [("ffmpeg_preset", JStr "slow");
                                             ("constant_rate_factor", JInt 18);
                                             ("stereo", JBool false);
                                             ("audio_bitrate", JInt 96)])) |}.

(** An options object whose preset is a number. *)
Definition req_numeric_preset : request :=
  {| files_input_file := Some video; files_srt_file := None;
     form_options := Some (WellFormed (JObj [("ffmpeg_preset", JInt 5)])) |}.

(** A job with a numeric preset, its worker about to load the options
    (line 50). *)
Definition numeric_preset_loading : list label :=
  ReqStart req_numeric_preset "t1" :: handle 0 ++ [WStep 0; WStep 0; WStep 0; WStep 0].

(** A job with every option given, in the queue. *)
Definition full_job_queued : list label :=
  ReqStart req_full "t1" :: handle 0.

(** One job done and delivered, its clean-up thread about to remove the
    workspace; a second job submitted meanwhile. *)
Definition two_jobs_collecting : list label :=
  one_job_done ++ [ReqResult "t1"; ReqStart req_full "t2"] ++ handle 1.

(** A job whose options text is an array, its worker about to load the
    options (line 50). *)
Definition array_job_loading : list label :=
  ReqStart req_array "t1" :: handle 0 ++ [WStep 0; WStep 0; WStep 0; WStep 0].

(** A request without an input file, about to check for it (line 119). *)
Definition no_input_checking : list label :=
  [ReqStart req_no_input "t1"; HStep 0].

(** The state after [labels], with one worker, starting from [disk]. *)
Definition after (labels : list label) : state :=
  default (init 1 disk) (run labels (init 1 disk)).

End Examples.

(** * Properties *)

Section Properties.
Context `{Runtime}.

(** ** The routes, statement by statement *)

Lemma JOBS_get_Some t s l j :
  JOBS_get t s = Some (l, j) ↔ JOBS s !! t = Some l ∧ heap s !! l = Some j.
Proof.
  unfold JOBS_get. split.
  - intros Hg. destruct (JOBS s !! t) as [l'|] eqn:E1; simpl in Hg; [|done].
    destruct (heap s !! l') as [j'|] eqn:E2; simpl in Hg; [|done].
    by simplify_eq.
  - intros [-> E2]. simpl. by rewrite E2.
Qed.

Lemma JOBS_get_None t s : JOBS s !! t = None → JOBS_get t s = None.
Proof. unfold JOBS_get. by intros ->. Qed.

(** C7: a ticket that the job table does not hold gets [NotFound] from the
    status route and from the result route, and neither request changes the
    state. *)
Theorem C7_unknown_ticket_not_found (s : state) (t : string) :
  JOBS s !! t = None →
  encode_status t s = NotFound ∧
  encode_result t s = (NotFound, s) ∧
  step (ReqStatus t) s = Some s ∧
  step (ReqResult t) s = Some s.
Proof.
  intros Hno. unfold encode_status, encode_result, step, encode_result.
  rewrite (JOBS_get_None _ _ Hno). done.
Qed.

(** C6: for a ticket whose record stands at [queued], [processing] or
    [failed], the result route answers [NotReady], which differs from
    [NotFound], and changes nothing; it sends a file only for a record at
    [done]. *)
Theorem C6_result_only_when_done (s : state) (t : string) (l : nat) (j : Job) :
  JOBS s !! t = Some l → heap s !! l = Some j →
  (status j = queued ∨ status j = processing ∨ status j = failed →
     encode_result t s = (NotReady, s)) ∧
  (∀ p n s', encode_result t s = (send_file p n, s') → status j = done) ∧
  NotReady ≠ NotFound.
Proof.
  intros Ht Hl.
  assert (Hg : JOBS_get t s = Some (l, j)) by by apply JOBS_get_Some.
  unfold encode_result. rewrite Hg. split_and!.
  - intros [E|[E|E]]; rewrite E; done.
  - intros p n s'. destruct (status j), (output_file j); done.
  - done.
Qed.

(** ** The filter expression *)

Lemma replace_escape (s : string) :
  replace colon (String backslash (String colon EmptyString))
    (replace backslash (String backslash (String backslash EmptyString)) s)
  = escape_filter_path s.
Proof.
  induction s as [|c rest IH]; [done|].
  simpl. unfold escape_char.
  destruct (Ascii.eqb c backslash) eqn:Eb.
  - apply Ascii.eqb_eq in Eb as ->. by rewrite <- IH.
  - simpl. destruct (Ascii.eqb c colon) eqn:Ec; rewrite IH; [|done].
    by apply Ascii.eqb_eq in Ec as ->.
Qed.


(** ** The defaults of the options *)

(** C9: for an options document that is an object, every field that the
    document omits takes its default in the command: preset [medium],
    constant rate factor 23, two audio channels, audio bit rate 128k; the
    empty document omits all four. *)
Theorem C9_option_defaults (s : state) (name t : string) (job : nat)
    (folder : path) (items : list (string * json)) :
  fs s !! (folder // "options.json") = Some (File (WellFormed (JObj items))) →
  ∃ o cmd,
    worker_step name (WLoadOptions t job folder) s = Some (WBuild t job folder o, s) ∧
    worker_step name (WBuild t job folder o) s
      = Some (WRun t job cmd (folder // "output.mp4"), s) ∧
    (dict_lookup "ffmpeg_preset" items = None →
       cmd !! 8%nat = Some (JStr "-preset") ∧ cmd !! 9%nat = Some (JStr "medium")) ∧
    (dict_lookup "constant_rate_factor" items = None →
       cmd !! 16%nat = Some (JStr "-crf") ∧ cmd !! 17%nat = Some (JStr "23")) ∧
    (dict_lookup "stereo" items = None →
       cmd !! 24%nat = Some (JStr "-ac") ∧ cmd !! 25%nat = Some (JStr "2")) ∧
    (dict_lookup "audio_bitrate" items = None →
       cmd !! 22%nat = Some (JStr "-b:a") ∧ cmd !! 23%nat = Some (JStr "128k")).
Proof.
  intros Hf. eexists _, _. split; [|split; [reflexivity|]].
  - simpl. unfold read_file. rewrite Hf. simpl. reflexivity.
  - simpl. split_and!; intros ->; done.
Qed.


(** ** The file system *)

Lemma child_ne (p : path) (x : string) : x :: p ≠ p.
Proof. intros E. apply (f_equal length) in E. simpl in E. lia. Qed.

Lemma under_inj t t' q : under t q → under t' q → t = t'.
Proof.
  unfold under, child. intros [k1 E1] [k2 E2]. subst q.
  apply app_inj_2 in E2 as [_ E2]; [by simplify_eq|done].
Qed.

Lemma under_root t : under t (TEMP_DIR // t).
Proof. by unfold under. Qed.

Lemma under_file t name : under t (TEMP_DIR // t // name).
Proof. unfold under. by apply suffix_cons_r. Qed.

Lemma mkdir_p_spec (p : path) (f f' : gmap path node) :
  mkdir_p p f = Ok f' →
  f' !! p = Some Dir ∧
  ∀ q, f' !! q = f !! q ∨ (q `suffix_of` p ∧ f !! q = None).
Proof.
  revert f f'. induction p as [|x parent IH]; intros f f'; simpl.
  - destruct (f !! []) as [[|c]|] eqn:E; intros Hm; simplify_eq.
    + eauto.
    + split; [by rewrite lookup_insert_eq|]. intros q.
      destruct (decide (q = [])) as [->|Hq]; [by right|].
      left. by rewrite lookup_insert_ne.
  - destruct (f !! (x :: parent)) as [[|c]|] eqn:E; intros Hm; simplify_eq.
    + eauto.
    + destruct (mkdir_p parent f) as [f1|e] eqn:E1; simpl in Hm; simplify_eq.
      destruct (IH _ _ E1) as [_ IH2].
      split; [by rewrite lookup_insert_eq|]. intros q.
      destruct (decide (q = x :: parent)) as [->|Hq]; [by right|].
      rewrite lookup_insert_ne by done.
      destruct (IH2 q) as [?|[? ?]]; [by left|right].
      split; [by apply suffix_cons_r|done].
Qed.

Lemma write_file_spec (p : path) (x : text) (f f' : gmap path node) :
  write_file p x f = Ok f' → f' = <[p := File x]> f.
Proof.
  unfold write_file.
  destruct (f !! tail p) as [[|?]|], (f !! p) as [[|?]|]; intros; by simplify_eq.
Qed.

Lemma rmtree_lookup_under (folder : path) (f : gmap path node) (q : path) :
  folder `suffix_of` q → rmtree folder f !! q = None.
Proof.
  intros Hq. unfold rmtree. apply map_lookup_filter_None. right.
  intros x _ Hn. by apply Hn.
Qed.

Lemma rmtree_lookup_other (folder : path) (f : gmap path node) (q : path) :
  ¬ folder `suffix_of` q → rmtree folder f !! q = f !! q.
Proof.
  intros Hq. unfold rmtree. destruct (f !! q) as [x|] eqn:E.
  - by apply map_lookup_filter_Some.
  - apply map_lookup_filter_None. by left.
Qed.

Lemma ws_same_refl f t : ws_same f f t.
Proof. by intros q _. Qed.

Lemma ws_same_mkdir (t t0 : string) (f f' : gmap path node) :
  mkdir_p (TEMP_DIR // t0) f = Ok f' → t ≠ t0 → ws_same f f' t.
Proof.
  intros Hm Hne q Hq. destruct (mkdir_p_spec _ _ _ Hm) as [_ Hs].
  destruct (Hs q) as [?|[Hsuf _]]; [done|].
  destruct Hne. apply (under_inj t t0 (TEMP_DIR // t0)); [|apply under_root].
  unfold under in *. by etrans.
Qed.

Lemma ws_same_write (t t0 name : string) (x : text) (f f' : gmap path node) :
  write_file (TEMP_DIR // t0 // name) x f = Ok f' → t ≠ t0 → ws_same f f' t.
Proof.
  intros Hw Hne q Hq. apply write_file_spec in Hw as ->.
  apply lookup_insert_ne. intros <-.
  destruct Hne. eapply under_inj; [done|apply under_file].
Qed.

Lemma ws_same_rmtree (t t0 : string) (f : gmap path node) :
  t ≠ t0 → ws_same f (rmtree (TEMP_DIR // t0) f) t.
Proof.
  intros Hne q Hq. apply rmtree_lookup_other. intros Hq'.
  destruct Hne. by eapply under_inj.
Qed.

Lemma dir_ok_same f f' t : ws_same f f' t → dir_ok f t → dir_ok f' t.
Proof. unfold dir_ok. intros Hs <-. apply Hs, under_root. Qed.

Lemma input_ok_same f f' req t : ws_same f f' t → input_ok f req t → input_ok f' req t.
Proof.
  intros Hs (i & ? & ?). exists i. split; [done|].
  rewrite Hs; [done|apply under_file].
Qed.

Lemma srt_ok_same f f' req t : ws_same f f' t → srt_ok f req t → srt_ok f' req t.
Proof.
  intros Hs Hok i ? ?. rewrite Hs; [by apply Hok|apply under_file].
Qed.

Lemma options_ok_same f f' req t :
  ws_same f f' t → options_ok f req t → options_ok f' req t.
Proof. unfold options_ok. intros Hs <-. apply Hs, under_file. Qed.

Lemma populated_same f f' t : ws_same f f' t → populated f t → populated f' t.
Proof.
  intros Hs [[c ?] [d ?]]. split; [exists c|exists d];
    (rewrite Hs; [done|apply under_file]).
Qed.

Lemma gone_same f f' t : ws_same f f' t → workspace_gone f t → workspace_gone f' t.
Proof. intros Hs Hg q Hq. rewrite Hs by done. by apply Hg. Qed.

Lemma gone_rmtree folder f t : workspace_gone f t → workspace_gone (rmtree folder f) t.
Proof.
  intros Hg q Hq. unfold rmtree. apply map_lookup_filter_None. left. by apply Hg.
Qed.

Lemma rmtree_gone f t : workspace_gone (rmtree (TEMP_DIR // t) f) t.
Proof. intros q Hq. by apply rmtree_lookup_under. Qed.

(** ** Job dictionaries *)

Lemma job_at_impl (J : gmap string loc) hp t (P Q : loc → Job → Prop) :
  job_at J hp t P → (∀ l j, P l j → Q l j) → job_at J hp t Q.
Proof. intros (l & j & ? & ? & ?) HPQ. exists l, j. eauto. Qed.

Lemma job_at_alter_ne (J : gmap string loc) hp t P (g : Job → Job) l0 :
  job_at J hp t P → (∀ l, J !! t = Some l → l ≠ l0) →
  job_at J (alter g l0 hp) t P.
Proof.
  intros (l & j & Ht & Hl & HP) Hne. exists l, j. split_and!; [done| |done].
  rewrite list_lookup_alter_ne; [done|]. intros ->. by eapply Hne.
Qed.

Lemma job_at_alter_eq (J : gmap string loc) hp t (P Q : loc → Job → Prop)
    (g : Job → Job) l0 :
  J !! t = Some l0 → job_at J hp t Q → (∀ j, Q l0 j → P l0 (g j)) →
  job_at J (alter g l0 hp) t P.
Proof.
  intros Ht (l & j & Ht' & Hl & HQ) HPQ. simplify_eq.
  exists l0, (g j). split_and!; [done| |by apply HPQ].
  by rewrite list_lookup_alter_eq, Hl.
Qed.

Lemma job_at_alloc (J : gmap string loc) hp t P t0 j0 :
  job_at J hp t P → J !! t0 = None →
  job_at (<[t0 := length hp]> J) (hp ++ [j0]) t P.
Proof.
  intros (l & j & Ht & Hl & HP) Hno. exists l, j. split_and!; [| |done].
  - rewrite lookup_insert_ne; [done|]. by intros ->; simplify_eq.
  - by apply lookup_app_l_Some.
Qed.

Lemma job_at_new (J : gmap string loc) hp t0 j0 (P : loc → Job → Prop) :
  P (length hp) j0 → job_at (<[t0 := length hp]> J) (hp ++ [j0]) t0 P.
Proof.
  intros HP. exists (length hp), j0. split_and!; [|by apply list_lookup_middle|done].
  by rewrite lookup_insert_eq.
Qed.

Lemma job_at_delete (J : gmap string loc) hp t P t0 :
  job_at J hp t P → t ≠ t0 → job_at (delete t0 J) hp t P.
Proof.
  intros (l & j & Ht & Hl & HP) Hne. exists l, j. split_and!; [|done..].
  by rewrite lookup_delete_ne.
Qed.

Lemma jobs_inj I (J : gmap string loc) hp t t' l :
  jobs_ok I J hp → J !! t = Some l → J !! t' = Some l → t = t'.
Proof.
  intros Hj Ht Ht'.
  destruct (Hj _ _ Ht) as (_ & j & Hl & Hf), (Hj _ _ Ht') as (_ & j' & Hl' & Hf').
  rewrite Hl in Hl'. injection Hl' as <-. rewrite Hf in Hf'. by injection Hf'.
Qed.

(** A job cannot be waiting and finished. *)
Lemma waiting_finished (J : gmap string loc) hp t :
  job_at J hp t (λ _ j, waiting j) → finished J hp t → False.
Proof.
  intros (l & j & Ht & Hl & Hw & _) Hf. destruct (Hf _ _ Ht Hl) as [Hd _].
  congruence.
Qed.

Lemma alter_lookup_inv (g : Job → Job) (hp : list Job) l0 l j' :
  alter g l0 hp !! l = Some j' →
  (l = l0 ∧ ∃ j, hp !! l = Some j ∧ j' = g j) ∨ (l ≠ l0 ∧ hp !! l = Some j').
Proof.
  destruct (decide (l = l0)) as [->|Hne].
  - rewrite list_lookup_alter_eq. intros Hl. left. split; [done|].
    destruct (hp !! l0) as [j|]; simplify_eq/=. eauto.
  - rewrite list_lookup_alter_ne by done. eauto.
Qed.

(** ** Lists of threads *)

Lemma insert_lookup_inv {A} (l : list A) i j (x y : A) :
  <[i := x]> l !! j = Some y → (j = i ∧ y = x) ∨ (j ≠ i ∧ l !! j = Some y).
Proof.
  rewrite list_lookup_insert_Some. intros [(-> & -> & _)|[? ?]]; [by left|right].
  by split.
Qed.

Lemma snoc_lookup_inv {A} (l : list A) j (x y : A) :
  (l ++ [x]) !! j = Some y → (j = length l ∧ y = x) ∨ l !! j = Some y.
Proof. rewrite lookup_snoc_Some. intros [[_ ?]|[-> ->]]; [by right|by left]. Qed.

Lemma wexcl_insert ws w pc pc' :
  wexcl ws → ws !! w = Some pc →
  (∀ t, wticket pc' = Some t →
     wticket pc = Some t ∨ ∀ w0 pc0, ws !! w0 = Some pc0 → wticket pc0 ≠ Some t) →
  wexcl (<[w := pc']> ws).
Proof.
  intros Hx Hw Hpc w1 w2 pc1 pc2 t H1 H2 T1 T2.
  apply insert_lookup_inv in H1 as [[-> ->]|[N1 H1]],
    H2 as [[-> ->]|[N2 H2]]; [done| | |by eapply Hx].
  - destruct (Hpc _ T1) as [T|T]; [by eapply Hx|]. by destruct (T _ _ H2).
  - destruct (Hpc _ T2) as [T|T]; [by eapply Hx|]. by destruct (T _ _ H1).
Qed.

Lemma hexcl_insert hs h pc pc' :
  hexcl hs → hs !! h = Some pc →
  (∀ t, hticket pc' = Some t → hticket pc = Some t) →
  hexcl (<[h := pc']> hs).
Proof.
  intros Hx Hh Hpc h1 h2 pc1 pc2 t H1 H2 T1 T2.
  apply insert_lookup_inv in H1 as [[-> ->]|[N1 H1]],
    H2 as [[-> ->]|[N2 H2]]; [done| | |by eapply Hx].
  - eapply Hx; eauto.
  - eapply Hx; eauto.
Qed.

Lemma hw_apart_insert_w hs ws w pc pc' :
  hw_apart hs ws → ws !! w = Some pc →
  (∀ t, wticket pc' = Some t →
     wticket pc = Some t ∨ ∀ h req, hs !! h ≠ Some (HPut req t)) →
  hw_apart hs (<[w := pc']> ws).
Proof.
  intros Ha Hw Hpc h req t w0 pc0 Hh H0 T.
  apply insert_lookup_inv in H0 as [[-> ->]|[N H0]]; [|by eapply Ha].
  destruct (Hpc _ T) as [T'|T']; [by eapply Ha|by eapply T'].
Qed.

Lemma hw_apart_insert_h hs ws h pc' :
  hw_apart hs ws →
  (∀ req t, pc' = HPut req t → ∀ w pc, ws !! w = Some pc → wticket pc ≠ Some t) →
  hw_apart (<[h := pc']> hs) ws.
Proof.
  intros Ha Hpc h0 req t w0 pc0 Hh H0.
  apply insert_lookup_inv in Hh as [[-> E]|[N Hh]]; [by eapply Hpc|by eapply Ha].
Qed.

Lemma hc_apart_insert_h hs cs h pc pc' :
  hc_apart hs cs → hs !! h = Some pc →
  (∀ t, hpre pc' = Some t → hpre pc = Some t) →
  hc_apart (<[h := pc']> hs) cs.
Proof.
  intros Ha Hh Hpc h0 pc0 t c pc1 H0 T Hc.
  apply insert_lookup_inv in H0 as [[-> ->]|[N H0]]; eapply Ha; eauto.
Qed.

Lemma hc_apart_insert_c hs cs c pc pc' :
  hc_apart hs cs → cs !! c = Some pc →
  (∀ t, cticket pc' = Some t → cticket pc = Some t) →
  hc_apart hs (<[c := pc']> cs).
Proof.
  intros Ha Hc Hpc h0 pc0 t c0 pc1 H0 T Hc0.
  apply insert_lookup_inv in Hc0 as [[-> ->]|[N Hc0]]; [|by eapply Ha].
  intros T'. eapply Ha; eauto.
Qed.

(** ** What a thread knows survives what the other threads do *)

Lemma wgood_change (J J' : gmap string loc) hp hp' q q' pc :
  wgood J hp q pc →
  (∀ t, wticket pc = Some t → t ∉ q → t ∉ q') →
  (∀ t P, wticket pc = Some t → job_at J hp t P → job_at J' hp' t P) →
  wgood J' hp' q' pc.
Proof.
  unfold wgood. destruct (wticket pc) as [t|]; [|done].
  intros [Hq Hj] Hq' Hj'. split; [by apply Hq'|by apply Hj'].
Qed.

Lemma hgood_pre (I : gset string) (J : gmap string loc) (hp : list Job)
    (q : list string) (f : gmap path node) (pc : hpc) (t : string) :
  hgood I J hp q f pc → hpre pc = Some t → unused I J t.
Proof. destruct pc; simpl; intros Hg ?; simplify_eq; tauto. Qed.

Lemma hgood_put (I : gset string) (J : gmap string loc) (hp : list Job)
    (q : list string) (f : gmap path node) (req : request) (t : string) :
  hgood I J hp q f (HPut req t) → (t ∉ q) ∧ job_at J hp t (λ _ j, waiting j).
Proof. simpl. tauto. Qed.

Lemma hgood_change (I I' : gset string) (J J' : gmap string loc)
    (hp hp' : list Job) (q q' : list string) (f f' : gmap path node) (pc : hpc) :
  hgood I J hp q f pc →
  I ⊆ I' →
  (∀ t, hpre pc = Some t → J' !! t = None) →
  (∀ req t, pc = HPut req t → (t ∉ q') ∧ job_at J' hp' t (λ _ j, waiting j)) →
  (∀ t, hticket pc = Some t → ws_same f f' t) →
  hgood I' J' hp' q' f' pc.
Proof.
  intros Hg HI HJ Hput Hf.
  assert (Hu : ∀ t, hpre pc = Some t → unused I J t → unused I' J' t).
  { intros t Ht [? ?]. split; [set_solver|by apply HJ]. }
  destruct pc as [req t|req t|req t|req t|req t|req t|]; simpl in *; [..|done];
    pose proof (Hf _ eq_refl) as Hs;
    [pose proof (Hu _ eq_refl) as Hu'..|pose proof (Hput _ _ eq_refl) as Hp'];
    repeat match goal with
           | H : _ ∧ _ |- _ => destruct H
           end;
    split_and?;
    eauto using dir_ok_same, input_ok_same, srt_ok_same, options_ok_same.
Qed.

Lemma cgood_change (I I' : gset string) (J J' : gmap string loc)
    (hp hp' : list Job) (f f' : gmap path node) (pc : cpc) :
  cgood I J hp f pc →
  I ⊆ I' →
  (∀ t, cticket pc = Some t → finished J hp t → finished J' hp' t) →
  (∀ t, cticket pc = Some t → workspace_gone f t → workspace_gone f' t) →
  cgood I' J' hp' f' pc.
Proof.
  intros Hg HI Hfin Hgone.
  destruct pc as [t folder|t folder|]; simpl in *; [| |done];
    specialize (Hfin _ eq_refl); specialize (Hgone _ eq_refl);
    repeat match goal with
           | H : _ ∧ _ |- _ => destruct H
           end;
    split_and?; eauto.
Qed.

Lemma jobs_ok_alter I (J : gmap string loc) hp (g : Job → Job) l :
  jobs_ok I J hp → (∀ j, folder (g j) = folder j) → jobs_ok I J (alter g l hp).
Proof.
  intros Hj Hg t0 l0 Ht0. destruct (Hj _ _ Ht0) as (? & j0 & Hl0 & Hf0).
  split; [done|]. destruct (decide (l0 = l)) as [->|Hne].
  - exists (g j0). rewrite list_lookup_alter_eq, Hl0, Hg. done.
  - exists j0. by rewrite list_lookup_alter_ne.
Qed.

(** ** The invariant: the steps of a worker *)

Ltac open_inv H :=
  destruct H as [Hjobs Hready Hnodup Hqueue Hws Hwx Hhs Hhx Hhw Hhc Hcs].

(** The worker moves on without writing. *)
Lemma inv_worker_pc s w pc pc' :
  inv s → workers s !! w = Some pc →
  (∀ t, wticket pc' = Some t → wticket pc = Some t) →
  wgood (JOBS s) (heap s) (JOB_QUEUE s) pc' →
  inv (set_workers <[w := pc']> s).
Proof.
  intros Hinv Hw Ht Hg. open_inv Hinv. constructor; simpl; try done.
  - intros w0 pc0 H0. apply insert_lookup_inv in H0 as [[-> ->]|[_ H0]]; eauto.
  - eapply wexcl_insert; eauto.
  - eapply hw_apart_insert_w; eauto.
Qed.

(** The worker writes a field of its job. *)
Lemma inv_worker_assign s w pc pc' t l (g : Job → Job) :
  inv s → workers s !! w = Some pc →
  wticket pc = Some t → wloc pc = Some l →
  (∀ j, folder (g j) = folder j) →
  (∀ j, status j = wstatus pc → status (g j) ≠ done → status j ≠ done) →
  (∀ t', wticket pc' = Some t' → t' = t) →
  wgood (JOBS s) (alter g l (heap s)) (JOB_QUEUE s) pc' →
  inv (set_workers <[w := pc']> (assign l g s)).
Proof.
  intros Hinv Hw Ht Hl Hgf Hgd Ht' Hg. open_inv Hinv.
  pose proof (Hws _ _ Hw) as Hpc. unfold wgood in Hpc.
  rewrite Ht in Hpc. destruct Hpc as [Hq (l' & j & HJ & Hhp & Hll & Hst & Hout & _)].
  specialize (Hll _ Hl). subst l'.
  assert (Hother : ∀ t0 l0, t0 ≠ t → JOBS s !! t0 = Some l0 → l0 ≠ l).
  { intros t0 l0 Hne H0 ->. destruct Hne. by eapply jobs_inj. }
  constructor; simpl; try done.
  - by apply jobs_ok_alter.
  - intros t0 l0 j0 H0 Hl0 Hnd.
    apply alter_lookup_inv in Hl0 as [[-> (j1 & Hj1 & ->)]|[Hne Hl0]].
    + assert (t0 = t) as -> by by eapply jobs_inj.
      simplify_eq. eapply Hready; eauto.
    + eapply Hready; eauto.
  - intros t0 Ht0. apply job_at_alter_ne; [by apply Hqueue|].
    intros l0. apply Hother. by intros ->.
  - intros w0 pc0 H0. apply insert_lookup_inv in H0 as [[-> ->]|[Hne H0]]; [done|].
    eapply wgood_change; [by eapply Hws|done|].
    intros t0 P T0 Hat. apply job_at_alter_ne; [done|].
    intros l0. apply Hother. intros ->. destruct Hne. by eapply Hwx.
  - eapply wexcl_insert; eauto. intros t' T'. left. by rewrite (Ht' _ T').
  - intros h pc0 H0. eapply hgood_change; [by eapply Hhs|done| | |].
    + intros t0 T0. by eapply hgood_pre; eauto.
    + intros req t0 ->. destruct (hgood_put _ _ _ _ _ _ _ (Hhs _ _ H0)) as [? Hat].
      split; [done|]. apply job_at_alter_ne; [done|].
      intros l0. apply Hother. intros ->. by eapply Hhw.
    + intros. apply ws_same_refl.
  - eapply hw_apart_insert_w; eauto. intros t' T'. left. by rewrite (Ht' _ T').
  - intros c pc0 H0. eapply cgood_change; [by eapply Hcs|done| |done].
    intros t0 T0 Hfin l0 j0 HJ0 Hl0.
    destruct (decide (t0 = t)) as [->|Hne].
    + simplify_eq. destruct (Hfin _ _ HJ Hhp) as [_ [? ?]]. congruence.
    + rewrite list_lookup_alter_ne in Hl0; [by eapply Hfin|].
      intros <-. by eapply Hother.
Qed.

Lemma wgood_held (J : gmap string loc) (hp : list Job) (q : list string) pc t l :
  wgood J hp q pc → wticket pc = Some t → wloc pc = Some l →
  (t ∉ q) ∧ J !! t = Some l ∧
  ∃ j, hp !! l = Some j ∧ status j = wstatus pc ∧ output_file j = None.
Proof.
  unfold wgood. intros Hg Ht Hl. rewrite Ht in Hg.
  destruct Hg as [Hq (l' & j & HJ & Hhp & Hll & Hst & Hout & _)].
  rewrite (Hll _ Hl). eauto 10.
Qed.

Lemma wgood_intro (J : gmap string loc) (hp : list Job) (q : list string) pc t l j :
  wticket pc = Some t → t ∉ q → J !! t = Some l → hp !! l = Some j →
  (∀ l', wloc pc = Some l' → l' = l) →
  status j = wstatus pc → output_file j = None →
  (∀ f, wfolder pc = Some f → f = TEMP_DIR // t) →
  wgood J hp q pc.
Proof.
  unfold wgood. intros Ht ???????. rewrite Ht. split; [done|].
  exists l, j. eauto 10.
Qed.

Lemma wgood_assign (J : gmap string loc) (hp : list Job) (q : list string)
    pc t l j (g : Job → Job) :
  wticket pc = Some t → t ∉ q → J !! t = Some l → hp !! l = Some j →
  (∀ l', wloc pc = Some l' → l' = l) →
  status (g j) = wstatus pc → output_file (g j) = None →
  (∀ f, wfolder pc = Some f → f = TEMP_DIR // t) →
  wgood J (alter g l hp) q pc.
Proof.
  intros ? ? ? Hhp ? ? ? ?. eapply (wgood_intro _ _ _ _ t l (g j)); try done.
  by rewrite list_lookup_alter_eq, Hhp.
Qed.

(** The worker takes a ticket from the queue. *)
Lemma inv_worker_get s w t rest :
  inv s → workers s !! w = Some WGet → JOB_QUEUE s = t :: rest →
  inv (set_workers <[w := WLookup t]> (set_JOB_QUEUE (λ _, rest) s)).
Proof.
  intros Hinv Hw Hq. open_inv Hinv. rewrite Hq in *.
  apply NoDup_cons in Hnodup as [Hnotin Hnodup].
  assert (Hfree : ∀ w0 pc0, workers s !! w0 = Some pc0 → wticket pc0 ≠ Some t).
  { intros w0 pc0 H0 T0. pose proof (Hws _ _ H0) as Hg. unfold wgood in Hg.
    rewrite T0 in Hg. destruct Hg as [Hg _]. apply Hg. by left. }
  constructor; simpl; try done.
  - intros t0 Ht0. apply Hqueue. by right.
  - intros w0 pc0 H0. apply insert_lookup_inv in H0 as [[-> ->]|[Hne H0]].
    + destruct (Hqueue t) as (l & j & HJ & Hhp & Hst & Hout); [by left|].
      eapply wgood_intro; eauto; done.
    + eapply wgood_change; [by eapply Hws| |done].
      intros t0 _ Hn Hin. apply Hn. by right.
  - eapply wexcl_insert; eauto. intros t' T'. simplify_eq/=. by right.
  - intros h pc0 H0. eapply hgood_change; [by eapply Hhs|done| | |].
    + intros t0 T0. by eapply hgood_pre; eauto.
    + intros req t0 ->. destruct (hgood_put _ _ _ _ _ _ _ (Hhs _ _ H0)) as [Hn Hat].
      split; [|done]. intros Hin. apply Hn. by right.
    + intros. apply ws_same_refl.
  - eapply hw_apart_insert_w; eauto. intros t' T'. simplify_eq/=. right.
    intros h req Hh. destruct (hgood_put _ _ _ _ _ _ _ (Hhs _ _ Hh)) as [Hn _].
    apply Hn. by left.
Qed.

Lemma inv_wstep s w s' : inv s → step (WStep w) s = Some s' → inv s'.
Proof.
  intros Hinv Hstep. unfold step in Hstep.
  destruct (workers s !! w) as [pc|] eqn:Hw; simpl in Hstep; [|done].
  destruct (worker_step (worker_name w) pc s) as [[pc' s1]|] eqn:Hs;
    simpl in Hstep; [|done].
  injection Hstep as <-.
  pose proof (inv_workers _ Hinv _ _ Hw) as Hg.
  pose proof (inv_jobs _ Hinv) as Hjobs.
  destruct pc as [|t|t l|t l|t l fo|t l fo o|t l cmd out|t l out r|t l out r| |e];
    simpl in Hs.
  - destruct (JOB_QUEUE s) as [|t rest] eqn:Hq; simplify_eq.
    by apply inv_worker_get.
  - destruct (JOBS_get t s) as [[l j]|] eqn:E; simplify_eq.
    + apply JOBS_get_Some in E as [HJ Hhp].
      eapply inv_worker_pc; eauto.
      unfold wgood in Hg. simpl in Hg.
      destruct Hg as [Hq (l' & j' & HJ' & Hhp' & _ & Hst & Hout & _)]. simplify_eq.
      eapply wgood_intro; eauto; simpl; [(intros; congruence)|done].
    + eapply inv_worker_pc; eauto; done.
  - simplify_eq.
    destruct (wgood_held _ _ _ _ _ _ Hg eq_refl eq_refl) as (Hq & HJ & j & Hhp & Hst & Hout).
    eapply inv_worker_assign; eauto; simpl; [(intros; congruence)|].
    eapply (wgood_assign _ _ _ _ t l j); simpl; try done. intros; congruence.
  - destruct (wgood_held _ _ _ _ _ _ Hg eq_refl eq_refl) as (Hq & HJ & j & Hhp & Hst & Hout).
    simpl in Hs. rewrite list_lookup_alter_eq, Hhp in Hs. simplify_eq/=.
    eapply inv_worker_assign; eauto; simpl; [congruence|(intros; congruence)|].
    eapply (wgood_assign _ _ _ _ t l j); simpl; try done; [intros; congruence|].
    intros f ?. simplify_eq. destruct (Hjobs _ _ HJ) as (_ & j' & ? & ?).
    by simplify_eq.
  - unfold wgood in Hg. simpl in Hg.
    destruct (_ ≫= _) as [o|e] in Hs; simplify_eq.
    + eapply inv_worker_pc; eauto; done.
    + eapply inv_worker_pc; eauto; done.
  - simplify_eq. eapply inv_worker_pc; eauto.
    unfold wgood in *. simpl in *. destruct Hg as [? Hg]. split; [done|].
    eapply job_at_impl; [done|]. simpl. intros ? ? (? & ? & ? & ?). by eauto.
  - done.
  - simplify_eq.
    destruct (wgood_held _ _ _ _ _ _ Hg eq_refl eq_refl) as (Hq & HJ & j & Hhp & Hst & Hout).
    eapply inv_worker_assign; eauto; simpl; [congruence|(intros; congruence)|].
    eapply (wgood_assign _ _ _ _ t l j); simpl; try done;
      try (intros; congruence).
    all: by destruct r as [[| |] ?|?].
  - simplify_eq.
    destruct (wgood_held _ _ _ _ _ _ Hg eq_refl eq_refl) as (Hq & HJ & j & Hhp & Hst & Hout).
    eapply inv_worker_assign; eauto; simpl; [| |done|done].
    + by destruct r as [[| |] ?|?].
    + by destruct r as [[| |] ?|?].
  - simplify_eq. eapply inv_worker_pc; eauto; done.
  - done.
Qed.

Lemma inv_wexec s w r s' : inv s → step (WExec w r) s = Some s' → inv s'.
Proof.
  intros Hinv Hstep. unfold step in Hstep.
  destruct (workers s !! w) as [pc|] eqn:Hw; simpl in Hstep; [|done].
  pose proof (inv_workers _ Hinv _ _ Hw) as Hg.
  destruct pc; try done. destruct (may_result cmd r); [|done]. simplify_eq.
  eapply inv_worker_pc; eauto.
Qed.

(** ** The invariant: the steps of a request *)

Lemma hpre_hticket pc t : hpre pc = Some t → hticket pc = Some t.
Proof. by destruct pc. Qed.

(** The request moves on without writing. *)
Lemma inv_handler_pc s h pc pc' :
  inv s → handlers s !! h = Some pc →
  hgood (issued s) (JOBS s) (heap s) (JOB_QUEUE s) (fs s) pc' →
  (∀ t, hticket pc' = Some t → hticket pc = Some t) →
  (∀ t, hpre pc' = Some t → hpre pc = Some t) →
  (∀ req t, pc' ≠ HPut req t) →
  inv (set_handlers <[h := pc']> s).
Proof.
  intros Hinv Hh Hg Ht Hp Hput. open_inv Hinv. constructor; simpl; try done.
  - intros h0 pc0 H0. apply insert_lookup_inv in H0 as [[-> ->]|[_ H0]]; eauto.
  - by eapply hexcl_insert.
  - apply hw_apart_insert_h; [done|]. intros req t ->. by destruct (Hput req t).
  - by eapply hc_apart_insert_h.
Qed.

(** The request writes into its workspace. *)
Lemma inv_handler_fs (s : state) (h : nat) (pc pc' : hpc) (t : string)
    (f' : gmap path node) :
  inv s → handlers s !! h = Some pc →
  hpre pc = Some t → hpre pc' = Some t →
  (∀ t0, t0 ≠ t → ws_same (fs s) f' t0) →
  hgood (issued s) (JOBS s) (heap s) (JOB_QUEUE s) f' pc' →
  inv (set_handlers <[h := pc']> (set_fs (λ _, f') s)).
Proof.
  intros Hinv Hh Hp Hp' Hsame Hg. open_inv Hinv.
  destruct (hgood_pre _ _ _ _ _ _ _ (Hhs _ _ Hh) Hp) as [HI HJ].
  constructor; simpl; try done.
  - intros t0 l0 j0 H0 Hl0 Hnd. eapply populated_same; [|by eapply Hready].
    apply Hsame. intros ->; congruence.
  - intros h0 pc0 H0. apply insert_lookup_inv in H0 as [[-> ->]|[Hne H0]]; [done|].
    eapply hgood_change; [by eapply Hhs|done| | |].
    + intros t0 T0. by destruct (hgood_pre _ _ _ _ _ _ _ (Hhs _ _ H0) T0).
    + intros req t0 ->. exact (hgood_put _ _ _ _ _ _ _ (Hhs _ _ H0)).
    + intros t0 T0. apply Hsame. intros ->. destruct Hne.
      eapply Hhx; eauto using hpre_hticket.
  - eapply hexcl_insert; eauto. intros t' T'.
    apply hpre_hticket in Hp, Hp'. congruence.
  - apply hw_apart_insert_h; [done|]. by intros req t0 ->.
  - eapply hc_apart_insert_h; eauto. congruence.
  - intros c pc0 H0. eapply cgood_change; [by eapply Hcs|done..|].
    intros t0 T0. apply gone_same, Hsame. intros ->. by eapply Hhc.
Qed.

(** The request puts its job into the job table. *)
Lemma inv_handler_insert s h req t :
  inv s → handlers s !! h = Some (HInsert req t) →
  inv (set_handlers <[h := HPut req t]>
         (set_JOBS <[t := length (heap s)]>
            (set_heap (λ hp, hp ++ [{| status := queued; folder := TEMP_DIR // t;
                                       output_file := None; error := None;
                                       worker := None |}]) s))).
Proof.
  intros Hinv Hh. open_inv Hinv.
  destruct (Hhs _ _ Hh) as ([HI HJ] & Hin & Hsrt & Hopt).
  assert (Hold : ∀ t0 l0, JOBS s !! t0 = Some l0 → t0 ≠ t ∧ ∀ j0 x,
             (heap s ++ [x]) !! l0 = Some j0 → heap s !! l0 = Some j0).
  { intros t0 l0 H0. split; [intros ->; congruence|].
    destruct (Hjobs _ _ H0) as (_ & j1 & Hl1 & _). intros j0 x.
    by rewrite lookup_app_l by by eapply lookup_lt_Some. }
  constructor; simpl; try done.
  - intros t0 l0 H0. apply lookup_insert_Some in H0 as [[<- <-]|[Hne H0]].
    + split; [done|]. eexists. split; [by apply list_lookup_middle|done].
    + destruct (Hjobs _ _ H0) as (? & j0 & ? & ?). split; [done|].
      exists j0. split; [by apply lookup_app_l_Some|done].
  - intros t0 l0 j0 H0 Hl0 Hnd. apply lookup_insert_Some in H0 as [[<- <-]|[Hne H0]].
    + destruct Hin as (i & _ & ?). split; eauto.
    + destruct (Hold _ _ H0) as [_ Hl]. eapply Hready; eauto.
  - intros t0 Ht0. by apply job_at_alloc; [apply Hqueue|].
  - intros w0 pc0 H0. eapply wgood_change; [by eapply Hws|done|].
    intros t0 P _ Hat. by apply job_at_alloc.
  - intros h0 pc0 H0. apply insert_lookup_inv in H0 as [[-> ->]|[Hne H0]].
    + simpl. split_and!; try done.
      * intros Hq. destruct (Hqueue _ Hq) as (? & ? & ? & _). congruence.
      * by apply job_at_new.
    + eapply hgood_change; [by eapply Hhs|done| | |].
      * intros t0 T0. destruct (hgood_pre _ _ _ _ _ _ _ (Hhs _ _ H0) T0) as [_ ?].
        rewrite lookup_insert_ne; [done|]. intros <-. destruct Hne.
        eapply Hhx; eauto using hpre_hticket.
      * intros req0 t0 ->.
        destruct (hgood_put _ _ _ _ _ _ _ (Hhs _ _ H0)) as [? ?].
        split; [done|]. by apply job_at_alloc.
      * intros. apply ws_same_refl.
  - by eapply hexcl_insert.
  - apply hw_apart_insert_h; [done|]. intros req0 t0 [= <- <-] w0 pc0 H0 T0.
    pose proof (Hws _ _ H0) as Hg. unfold wgood in Hg. rewrite T0 in Hg.
    destruct Hg as [_ (? & ? & ? & _)]. congruence.
  - by eapply hc_apart_insert_h.
  - intros c pc0 H0. eapply cgood_change; [by eapply Hcs|done| |done].
    intros t0 T0 Hfin l0 j0 HJ0 Hl0.
    rewrite lookup_insert_ne in HJ0 by (intros <-; by eapply Hhc).
    destruct (Hold _ _ HJ0) as [_ Hl]. eapply Hfin; eauto.
Qed.

(** The request puts its ticket on the queue. *)
Lemma inv_handler_put s h req t r :
  inv s → handlers s !! h = Some (HPut req t) →
  inv (set_handlers <[h := HReturn t r]> (set_JOB_QUEUE (λ q, q ++ [t]) s)).
Proof.
  intros Hinv Hh. open_inv Hinv.
  destruct (Hhs _ _ Hh) as (Hq & Hat & _).
  constructor; simpl; try done.
  - apply NoDup_app. split_and!; [done| |apply NoDup_singleton].
    intros x ? ->%list_elem_of_singleton. done.
  - intros t0 [?| ->%list_elem_of_singleton]%elem_of_app; [by apply Hqueue|done].
  - intros w0 pc0 H0. eapply wgood_change; [by eapply Hws| |done].
    intros t0 T0 Hn [?| ->%list_elem_of_singleton]%elem_of_app; [done|].
    by eapply Hhw.
  - intros h0 pc0 H0. apply insert_lookup_inv in H0 as [[-> ->]|[Hne H0]]; [done|].
    eapply hgood_change; [by eapply Hhs|done| | |].
    + intros t0 T0. by destruct (hgood_pre _ _ _ _ _ _ _ (Hhs _ _ H0) T0).
    + intros req0 t0 ->.
      destruct (hgood_put _ _ _ _ _ _ _ (Hhs _ _ H0)) as [? ?].
      split; [|done].
      intros [?| ->%list_elem_of_singleton]%elem_of_app; [done|].
      destruct Hne. by eapply Hhx.
    + intros. apply ws_same_refl.
  - by eapply hexcl_insert.
  - apply hw_apart_insert_h; [done|]. by intros req0 t0.
  - by eapply hc_apart_insert_h.
Qed.

Lemma write_file_dir (p : path) (x : text) (f f' : gmap path node) :
  write_file p x f = Ok f' → f !! tail p = Some Dir.
Proof.
  unfold write_file.
  destruct (f !! tail p) as [[|?]|], (f !! p) as [[|?]|]; intros; by simplify_eq.
Qed.

Lemma inv_hstep s h s' : inv s → step (HStep h) s = Some s' → inv s'.
Proof.
  intros Hinv Hstep. unfold step in Hstep.
  destruct (handlers s !! h) as [pc|] eqn:Hh; simpl in Hstep; [|done].
  destruct (handler_step pc s) as [[pc' s1]|] eqn:Hs; simpl in Hstep; [|done].
  injection Hstep as <-.
  pose proof (inv_handlers _ Hinv _ _ Hh) as Hg.
  destruct pc as [req t|req t|req t|req t|req t|req t|t r];
    cbv beta iota zeta delta [handler_step] in Hs; simpl in Hg.
  - destruct (mkdir_p _ _) as [f1|e] eqn:Hm; simplify_eq.
    + eapply inv_handler_fs; eauto; simpl.
      * intros t0 Hne. by eapply ws_same_mkdir.
      * split; [done|]. by destruct (mkdir_p_spec _ _ _ Hm).
    + eapply inv_handler_pc; eauto; done.
  - destruct Hg as (Hu & Hd).
    destruct (files_input_file req) as [i|] eqn:Hi;
      [destruct (file_bool (Some i)) eqn:Hb;
       [destruct (write_file _ _ _) as [f1|e] eqn:Hwf|]|]; simplify_eq;
      try (eapply inv_handler_pc; eauto; done).
    eapply inv_handler_fs; eauto; simpl.
    + intros t0 Hne. by eapply ws_same_write.
    + rewrite (write_file_spec _ _ _ _ Hwf). split_and!; [done| |].
      * unfold dir_ok. rewrite lookup_insert_ne; [done|]. apply child_ne.
      * exists i. split; [done|]. by rewrite lookup_insert_eq.
  - destruct Hg as (Hu & Hd & Hin).
    destruct (files_srt_file req) as [i|] eqn:Hi;
      [destruct (file_bool (Some i)) eqn:Hb;
       [destruct (write_file _ _ _) as [f1|e] eqn:Hwf|]|]; simplify_eq.
    + eapply inv_handler_fs; eauto; simpl.
      * intros t0 Hne. by eapply ws_same_write.
      * rewrite (write_file_spec _ _ _ _ Hwf). split_and!; [done| | |].
        -- unfold dir_ok. rewrite lookup_insert_ne; [done|]. apply child_ne.
        -- destruct Hin as (i0 & ? & ?). exists i0. split; [done|].
           rewrite lookup_insert_ne; [done|]. unfold child. congruence.
        -- intros i0 ? ?. simplify_eq. by rewrite lookup_insert_eq.
    + eapply inv_handler_pc; eauto; done.
    + eapply inv_handler_pc; eauto; simpl; try done.
      split_and!; try done. intros i0 ? ?. congruence.
    + eapply inv_handler_pc; eauto; simpl; try done.
      split_and!; try done. intros i0 ?. congruence.
  - destruct Hg as (Hu & Hd & Hin & Hsrt).
    destruct (write_file _ _ _) as [f1|e] eqn:Hwf; simplify_eq.
    + eapply inv_handler_fs; eauto; simpl.
      * intros t0 Hne. by eapply ws_same_write.
      * rewrite (write_file_spec _ _ _ _ Hwf). split_and!; [done| | |].
        -- destruct Hin as (i0 & ? & ?). exists i0. split; [done|].
           rewrite lookup_insert_ne; [done|]. unfold child. congruence.
        -- intros i0 ? ?. rewrite lookup_insert_ne; [by apply Hsrt|].
           unfold child. congruence.
        -- unfold options_ok, options_doc, json_dumps.
           rewrite lookup_insert_eq.
           by destruct (form_options req) as [[|]|].
    + eapply inv_handler_pc; eauto; done.
  - simplify_eq. exact (inv_handler_insert _ _ _ _ Hinv Hh).
  - simplify_eq. exact (inv_handler_put _ _ _ _ _ Hinv Hh).
  - done.
Qed.

(** ** The invariant: requests arriving, deliveries, clean-up *)

Lemma hticket_cases pc t :
  hticket pc = Some t → hpre pc = Some t ∨ ∃ req, pc = HPut req t.
Proof. destruct pc; intros; simplify_eq/=; eauto. Qed.

Lemma hticket_issued (I : gset string) (J : gmap string loc) (hp : list Job)
    (q : list string) (f : gmap path node) (pc : hpc) (t : string) :
  jobs_ok I J hp → hgood I J hp q f pc → hticket pc = Some t → t ∈ I.
Proof.
  intros Hj Hg [Hp|[req ->]]%hticket_cases.
  - by destruct (hgood_pre _ _ _ _ _ _ _ Hg Hp).
  - destruct Hg as (_ & (l & j & HJ & _) & _). by destruct (Hj _ _ HJ).
Qed.

Lemma wgood_finished (J : gmap string loc) (hp : list Job) (q : list string) pc t :
  wgood J hp q pc → wticket pc = Some t → finished J hp t → False.
Proof.
  unfold wgood. intros Hg Ht Hfin. rewrite Ht in Hg.
  destruct Hg as [_ (l & j & HJ & Hhp & _ & _ & Hout & _)].
  destruct (Hfin _ _ HJ Hhp) as [_ [? ?]]. congruence.
Qed.

Lemma inv_init (n : nat) (disk : gmap path node) : inv (init n disk).
Proof.
  constructor; simpl; try done.
  - apply NoDup_nil_2.
  - intros t Ht. by apply elem_of_nil in Ht.
  - by intros w pc [-> _]%lookup_replicate.
  - by intros w w' pc pc' t [-> _]%lookup_replicate.
Qed.

Lemma inv_start s req uuid :
  inv s → uuid ∉ issued s →
  inv (set_handlers (λ hs, hs ++ [HMkdir req uuid])
         (set_issued (λ i, {[uuid]} ∪ i) s)).
Proof.
  intros Hinv Hnew. open_inv Hinv.
  assert (Hsub : issued s ⊆ {[uuid]} ∪ issued s) by set_solver.
  constructor; simpl; try done.
  - intros t l Ht. destruct (Hjobs _ _ Ht) as [? ?]. split; [set_solver|done].
  - intros h pc [[-> ->]|H0]%snoc_lookup_inv.
    + split; [set_solver|]. destruct (JOBS s !! uuid) as [l|] eqn:E; [|done].
      by destruct (Hjobs _ _ E).
    + eapply hgood_change; [by eapply Hhs|done| | |].
      * intros t0 T0. by destruct (hgood_pre _ _ _ _ _ _ _ (Hhs _ _ H0) T0).
      * intros req0 t0 ->. exact (hgood_put _ _ _ _ _ _ _ (Hhs _ _ H0)).
      * intros. apply ws_same_refl.
  - intros h h' pc pc' t [[-> ->]|H1]%snoc_lookup_inv
      [[-> ->]|H2]%snoc_lookup_inv T1 T2; simplify_eq/=.
    + done.
    + destruct Hnew. by eapply hticket_issued; eauto.
    + destruct Hnew. by eapply hticket_issued; eauto.
    + by eapply Hhx.
  - intros h req0 t w pc [[-> ?]|H0]%snoc_lookup_inv Hw; [done|by eapply Hhw].
  - intros h pc t c pc' [[-> ->]|H0]%snoc_lookup_inv T Hc; [|by eapply Hhc].
    simplify_eq/=. intros T'. apply Hnew.
    pose proof (Hcs _ _ Hc) as Hg. destruct pc'; simplify_eq/=; tauto.
  - intros c pc Hc. eapply cgood_change; [by eapply Hcs|done..].
Qed.

Lemma inv_result s t : inv s → inv (encode_result t s).2.
Proof.
  intros Hinv. unfold encode_result.
  destruct (JOBS_get t s) as [[l j]|] eqn:E; [|done].
  apply JOBS_get_Some in E as [HJ Hhp].
  destruct (status j) eqn:Hst; try done.
  destruct (output_file j) as [out|] eqn:Hout; [|done]. simpl.
  open_inv Hinv. constructor; simpl; try done.
  - intros h pc t0 c pc' Hh T [[-> ->]|Hc]%snoc_lookup_inv; [|by eapply Hhc].
    simpl. intros [= ->].
    destruct (hgood_pre _ _ _ _ _ _ _ (Hhs _ _ Hh) T). congruence.
  - intros c pc [[-> ->]|Hc]%snoc_lookup_inv; [|by eapply Hcs].
    destruct (Hjobs _ _ HJ) as (? & j' & ? & ?). simplify_eq. split_and!; [done..|].
    intros l0 j0 ? ?. simplify_eq. rewrite Hout. eauto.
Qed.

Lemma inv_cstep s c s' : inv s → step (CStep c) s = Some s' → inv s'.
Proof.
  intros Hinv Hstep. unfold step in Hstep.
  destruct (cleanups s !! c) as [pc|] eqn:Hc; simpl in Hstep; [|done].
  destruct (cleanup_step pc s) as [[pc' s1]|] eqn:Hs; simpl in Hstep; [|done].
  injection Hstep as <-. open_inv Hinv.
  pose proof (Hcs _ _ Hc) as Hg.
  destruct pc as [t folder|t folder|]; simplify_eq/=.
  - destruct Hg as (-> & HI & Hfin).
    assert (Hother : ∀ h pc0 t0, handlers s !! h = Some pc0 →
              hticket pc0 = Some t0 → t0 ≠ t).
    { intros h pc0 t0 Hh [Hp|[req ->]]%hticket_cases ->.
      - by eapply Hhc.
      - destruct (hgood_put _ _ _ _ _ _ _ (Hhs _ _ Hh)) as [_ Hw].
        by eapply waiting_finished. }
    constructor; simpl; try done.
    + intros t0 l0 j0 H0 Hl0 Hnd. eapply populated_same; [|by eapply Hready].
      apply ws_same_rmtree. intros ->. by destruct (Hfin _ _ H0 Hl0).
    + intros h pc0 H0. eapply hgood_change; [by eapply Hhs|done| | |].
      * intros t0 T0. by destruct (hgood_pre _ _ _ _ _ _ _ (Hhs _ _ H0) T0).
      * intros req0 t0 ->. exact (hgood_put _ _ _ _ _ _ _ (Hhs _ _ H0)).
      * intros t0 T0. apply ws_same_rmtree. by eapply Hother.
    + by eapply hc_apart_insert_c.
    + intros c0 pc0 [[-> ->]|[Hne H0]]%insert_lookup_inv.
      * split_and!; [done..|]. apply rmtree_gone.
      * eapply cgood_change; [by eapply Hcs|done..|].
        intros t0 _. apply gone_rmtree.
  - destruct Hg as (-> & HI & Hfin & Hgone).
    constructor; simpl; try done.
    + intros t0 l0 [Hne H0]%lookup_delete_Some. by apply Hjobs.
    + intros t0 l0 j0 [Hne H0]%lookup_delete_Some. by eapply Hready.
    + intros t0 Ht0. apply job_at_delete; [by apply Hqueue|].
      intros ->. eapply waiting_finished; eauto.
    + intros w0 pc0 H0. eapply wgood_change; [by eapply Hws|done|].
      intros t0 P T0 Hat. apply job_at_delete; [done|].
      intros ->. eapply wgood_finished; eauto.
    + intros h pc0 H0. eapply hgood_change; [by eapply Hhs|done| | |].
      * intros t0 T0. destruct (hgood_pre _ _ _ _ _ _ _ (Hhs _ _ H0) T0).
        apply lookup_delete_None. by right.
      * intros req0 t0 ->.
        destruct (hgood_put _ _ _ _ _ _ _ (Hhs _ _ H0)) as [? ?].
        split; [done|]. apply job_at_delete; [done|].
        intros ->. eapply waiting_finished; eauto.
      * intros. apply ws_same_refl.
    + by eapply hc_apart_insert_c.
    + intros c0 pc0 [[-> ->]|[Hne H0]]%insert_lookup_inv; [done|].
      eapply cgood_change; [by eapply Hcs|done| |done].
      intros t0 _ Hfin0 l0 j0 [_ HJ0]%lookup_delete_Some. by eapply Hfin0.
Qed.

Lemma inv_step a s s' : inv s → step a s = Some s' → inv s'.
Proof.
  intros Hinv Hstep. destruct a as [req uuid|h|t|t|w|w r|c].
  - simpl in Hstep. destruct (decide (uuid ∈ issued s)); [done|].
    simplify_eq. by apply inv_start.
  - by eapply inv_hstep.
  - simpl in Hstep. by simplify_eq.
  - simpl in Hstep. simplify_eq. by apply inv_result.
  - by eapply inv_wstep.
  - by eapply inv_wexec.
  - by eapply inv_cstep.
Qed.

Lemma reachable_inv s : reachable s → inv s.
Proof.
  induction 1 as [n disk|a s s' _ IH Hstep]; [apply inv_init|by eapply inv_step].
Qed.

Lemma reachable_run labels s s' : reachable s → run labels s = Some s' → reachable s'.
Proof.
  revert s. induction labels as [|a rest IH]; intros s Hr Hrun; simpl in Hrun.
  - by simplify_eq.
  - destruct (step a s) as [s1|] eqn:Hstep; simpl in Hrun; [|done].
    eapply IH; [|done]. by eapply reachable_step.
Qed.

(** ** What one step does to the heap and to the job table *)

Lemma handler_step_shape pc s pc' s1 :
  handler_step pc s = Some (pc', s1) →
  workers s1 = workers s ∧ cleanups s1 = cleanups s ∧ issued s1 = issued s ∧
  handlers s1 = handlers s ∧
  ((heap s1 = heap s ∧ JOBS s1 = JOBS s) ∨
   (∃ req t j0, pc = HInsert req t ∧ heap s1 = heap s ++ [j0] ∧
      JOBS s1 = <[t := length (heap s)]> (JOBS s) ∧ status j0 = queued)).
Proof.
  intros Hs. destruct pc as [req t|req t|req t|req t|req t|req t|t r];
    cbv beta iota zeta delta [handler_step] in Hs;
    repeat match type of Hs with
           | context [match ?x with _ => _ end] => destruct x
           end; simplify_eq; simpl; split_and?; eauto 10.
Qed.

Lemma worker_step_shape name pc s pc' s1 :
  worker_step name pc s = Some (pc', s1) →
  JOBS s1 = JOBS s ∧ fs s1 = fs s ∧ issued s1 = issued s ∧
  handlers s1 = handlers s ∧ cleanups s1 = cleanups s ∧ workers s1 = workers s ∧
  (heap s1 = heap s ∨
   ∃ l (g : Job → Job), wloc pc = Some l ∧ heap s1 = alter g l (heap s) ∧
     ∀ j, status j = wstatus pc →
       status (g j) = status j ∨ status_next (status j) (status (g j))).
Proof.
  intros Hs. destruct pc; simpl in Hs;
    repeat match type of Hs with
           | context [match ?x with _ => _ end] => destruct x eqn:?
           | context [?x ≫= _] => destruct x eqn:?; simpl in Hs
           end; simplify_eq/=; split_and?; eauto; right; eexists _, _;
    (split; [done|]); (split; [done|]); intros j' Hst; rewrite Hst; simpl;
    eauto using status_next.
Qed.

Lemma step_shape a s s' :
  inv s → step a s = Some s' →
  ((heap s' = heap s ∨
    (∃ l g j, heap s !! l = Some j ∧ heap s' = alter g l (heap s) ∧
       (status (g j) = status j ∨ status_next (status j) (status (g j)))) ∨
    (∃ j0, status j0 = queued ∧ heap s' = heap s ++ [j0]))) ∧
  (JOBS s' = JOBS s ∨
   (∃ t, JOBS s !! t = None ∧ JOBS s' = <[t := length (heap s)]> (JOBS s)) ∨
   (∃ t, JOBS s' = delete t (JOBS s))).
Proof.
  intros Hinv Hstep. destruct a as [req uuid|h|t|t|w|w r|c]; simpl in Hstep.
  - destruct (decide (uuid ∈ issued s)); simplify_eq. simpl. eauto.
  - destruct (handlers s !! h) as [pc|] eqn:Hh; simpl in Hstep; [|done].
    destruct (handler_step pc s) as [[pc' s1]|] eqn:Hs; simplify_eq/=.
    destruct (handler_step_shape _ _ _ _ Hs)
      as (_ & _ & _ & _ & [[-> ->]|(req & t & j0 & -> & -> & -> & ?)]); [eauto|].
    split; [eauto|]. right; left. exists t. split; [|done].
    by destruct (inv_handlers _ Hinv _ _ Hh) as [[_ ?] _].
  - simplify_eq. eauto.
  - simplify_eq. unfold encode_result.
    repeat match goal with
           | |- context [match ?x with _ => _ end] => destruct x
           end; simpl; eauto.
  - destruct (workers s !! w) as [pc|] eqn:Hw; simpl in Hstep; [|done].
    destruct (worker_step (worker_name w) pc s) as [[pc' s1]|] eqn:Hs;
      simplify_eq/=.
    destruct (worker_step_shape _ _ _ _ _ Hs)
      as (-> & _ & _ & _ & _ & _ & [->|(l & g & Hl & -> & Hg)]); [eauto|].
    split; [|eauto]. right; left.
    destruct (wticket pc) as [t|] eqn:Ht; [|by destruct pc].
    destruct (wgood_held _ _ _ _ _ _ (inv_workers _ Hinv _ _ Hw) Ht Hl)
      as (_ & _ & j & Hj & Hst & _).
    exists l, g, j. eauto.
  - destruct (workers s !! w) as [pc|]; simpl in Hstep; [|done].
    destruct pc; try done. destruct (may_result _ _); simplify_eq. simpl. eauto.
  - destruct (cleanups s !! c) as [pc|]; simpl in Hstep; [|done].
    destruct pc; simplify_eq/=; eauto 10.
Qed.

(** ** The status chain *)

(** C3: in every step of the server, the status of every job dictionary
    either stays or moves one link along queued, processing, done|failed; a
    new job dictionary starts at [queued]; a dictionary at [done] or
    [failed] keeps its status; and the job table never points a ticket to
    another dictionary: a record is only removed, and a ticket only enters
    with a new dictionary. *)
Theorem C3_status_chain (s s' : state) (a : label) :
  reachable s → step a s = Some s' →
  (∀ l j, heap s !! l = Some j →
     ∃ j', heap s' !! l = Some j' ∧
       (status j' = status j ∨ status_next (status j) (status j')) ∧
       (status j = done ∨ status j = failed → status j' = status j)) ∧
  (∀ l j', heap s !! l = None → heap s' !! l = Some j' → status j' = queued) ∧
  (∀ t l, JOBS s !! t = Some l → JOBS s' !! t = Some l ∨ JOBS s' !! t = None) ∧
  (∀ t l, JOBS s !! t = None → JOBS s' !! t = Some l → heap s !! l = None).
Proof.
  intros Hr Hstep. apply reachable_inv in Hr.
  destruct (step_shape _ _ _ Hr Hstep) as [Hheap Hjobs].
  assert (Hterm : ∀ x y, x = y ∨ status_next y x →
            (x = y ∨ status_next y x) ∧ (y = done ∨ y = failed → x = y)).
  { intros x y Hxy. split; [done|]. destruct Hxy as [?|Hn]; [done|].
    by intros [-> | ->]; inversion Hn. }
  split_and!.
  - intros l j Hl.
    destruct Hheap as [->|[(l0 & g & j0 & Hl0 & -> & Hg)|(j0 & _ & ->)]].
    + exists j. split; [done|]. apply Hterm. by left.
    + destruct (decide (l = l0)) as [->|Hne].
      * assert (j0 = j) as -> by congruence.
        exists (g j). rewrite list_lookup_alter_eq, Hl.
        split; [done|]. by apply Hterm.
      * exists j. rewrite list_lookup_alter_ne by done.
        split; [done|]. apply Hterm. by left.
    + exists j. split; [by apply lookup_app_l_Some|]. apply Hterm. by left.
  - intros l j' Hno Hl.
    destruct Hheap as [E|[(l0 & g & j0 & Hl0 & E & Hg)|(j0 & Hq & E)]];
      rewrite E in Hl.
    + congruence.
    + destruct (decide (l = l0)) as [->|Hne]; [congruence|].
      rewrite list_lookup_alter_ne in Hl by done. congruence.
    + apply lookup_ge_None in Hno.
      apply snoc_lookup_inv in Hl as [[_ ->]|Hl]; [done|].
      apply lookup_lt_Some in Hl. lia.
  - intros t l Ht. destruct Hjobs as [->|[(t0 & Hno & ->)|(t0 & ->)]].
    + by left.
    + left. rewrite lookup_insert_ne; [done|]. congruence.
    + destruct (decide (t = t0)) as [->|Hne].
      * right. apply lookup_delete_eq.
      * left. by rewrite lookup_delete_ne.
  - intros t l Hno Ht. destruct Hjobs as [E|[(t0 & Hno0 & E)|(t0 & E)]];
      rewrite E in Ht.
    + congruence.
    + apply lookup_insert_Some in Ht as [[<- <-]|[_ Ht]]; [|congruence].
      by apply lookup_ge_None.
    + apply lookup_delete_Some in Ht as [_ Ht]. congruence.
Qed.

(** ** The queue *)

Lemma queue_step a s s' t :
  step a s = Some s' → t ∈ JOB_QUEUE s' →
  t ∈ JOB_QUEUE s ∨ ∃ h req, a = HStep h ∧ handlers s !! h = Some (HPut req t).
Proof.
  intros Hstep Ht. destruct a as [req uuid|h|t0|t0|w|w r|c]; simpl in Hstep.
  - destruct (decide (uuid ∈ issued s)); simplify_eq. by left.
  - destruct (handlers s !! h) as [pc|] eqn:Hh; simpl in Hstep; [|done].
    destruct (handler_step pc s) as [[pc' s1]|] eqn:Hs; simplify_eq/=.
    destruct pc as [req t1|req t1|req t1|req t1|req t1|req t1|t1 r];
      cbv beta iota zeta delta [handler_step] in Hs;
      repeat match type of Hs with
             | context [match ?x with _ => _ end] => destruct x
             end; simplify_eq; simpl in Ht; try by left.
    apply elem_of_app in Ht as [?| ->%list_elem_of_singleton]; [by left|].
    right. eauto.
  - simplify_eq. by left.
  - simplify_eq. left. unfold encode_result in Ht.
    repeat match type of Ht with
           | context [match ?x with _ => _ end] => destruct x
           end; done.
  - destruct (workers s !! w) as [pc|] eqn:Hw; simpl in Hstep; [|done].
    destruct (worker_step (worker_name w) pc s) as [[pc' s1]|] eqn:Hs;
      simplify_eq/=.
    left. destruct pc; simpl in Hs;
      repeat match type of Hs with
             | context [match ?x with _ => _ end] => destruct x eqn:?
             | context [?x ≫= _] => destruct x eqn:?; simpl in Hs
             end; simplify_eq/=; try done.
    by right.
  - destruct (workers s !! w) as [pc|]; simpl in Hstep; [|done].
    destruct pc; try done. destruct (may_result _ _); simplify_eq. by left.
  - destruct (cleanups s !! c) as [pc|]; simpl in Hstep; [|done].
    destruct pc; simplify_eq/=; by left.
Qed.

(** C10: in every reachable state, the request that stands before the
    statement that enqueues its ticket has saved the input file, the
    subtitle file if one was supplied, and an options document that is
    well-formed (the empty object if the options text did not parse), and
    its job is in the job table at [queued]; a ticket enters the queue by
    that statement only; so a ticket in the queue has its record and its
    populated workspace, the worker that has just taken a ticket finds the
    record, and the worker that loads the options reads a well-formed
    document. *)
Theorem C10_populated_before_enqueue (s : state) :
  reachable s →
  (∀ h req t, handlers s !! h = Some (HPut req t) →
     input_ok (fs s) req t ∧ srt_ok (fs s) req t ∧ options_ok (fs s) req t ∧
     job_at (JOBS s) (heap s) t (λ _ j, status j = queued) ∧
     t ∉ JOB_QUEUE s) ∧
  (∀ a s' t, step a s = Some s' → t ∈ JOB_QUEUE s' → t ∉ JOB_QUEUE s →
     ∃ h req, a = HStep h ∧ handlers s !! h = Some (HPut req t)) ∧
  (∀ t, t ∈ JOB_QUEUE s →
     job_at (JOBS s) (heap s) t (λ _ j, status j = queued) ∧
     populated (fs s) t) ∧
  (∀ w t, workers s !! w = Some (WLookup t) → is_Some (JOBS_get t s)) ∧
  (∀ w t l folder, workers s !! w = Some (WLoadOptions t l folder) →
     ∃ doc, read_file (folder // "options.json") (fs s) ≫= json_loads = Ok doc).
Proof.
  intros Hr. apply reachable_inv in Hr. open_inv Hr. split_and!.
  - intros h req t Hh. destruct (Hhs _ _ Hh) as (? & Hat & ? & ? & ?).
    split_and!; try done. eapply job_at_impl; [done|]. by intros ? ? [? ?].
  - intros a s' t Hstep Hin Hnot.
    by destruct (queue_step _ _ _ _ Hstep Hin).
  - intros t Ht. destruct (Hqueue _ Ht) as (l & j & HJ & Hhp & Hst & Hout).
    split; [by exists l, j|]. eapply Hready; eauto. congruence.
  - intros w t Hw. pose proof (Hws _ _ Hw) as [_ (l & j & HJ & Hhp & _)].
    exists (l, j). by apply JOBS_get_Some.
  - intros w t l fo Hw.
    pose proof (Hws _ _ Hw) as [_ (l' & j & HJ & Hhp & _ & Hst & _ & Hfo)].
    rewrite (Hfo _ eq_refl).
    destruct (Hready _ _ _ HJ Hhp) as [_ [doc Hdoc]]; [simpl in Hst; congruence|].
    exists doc. unfold read_file. by rewrite Hdoc.
Qed.

(** ** Collection *)

Lemma cleanups_step a s s' c pc :
  step a s = Some s' → a ≠ CStep c → cleanups s !! c = Some pc →
  cleanups s' !! c = Some pc.
Proof.
  intros Hstep Hne Hc. destruct a as [req uuid|h|t0|t0|w|w r|c0]; simpl in Hstep.
  - destruct (decide (uuid ∈ issued s)); by simplify_eq.
  - destruct (handlers s !! h) as [pc0|] eqn:Hh; simpl in Hstep; [|done].
    destruct (handler_step pc0 s) as [[pc' s1]|] eqn:Hs; simplify_eq/=.
    by destruct (handler_step_shape _ _ _ _ Hs) as (_ & -> & _).
  - by simplify_eq.
  - simplify_eq. unfold encode_result.
    repeat match goal with
           | |- context [match ?x with _ => _ end] => destruct x
           end; simpl; try done. by apply lookup_app_l_Some.
  - destruct (workers s !! w) as [pc0|] eqn:Hw; simpl in Hstep; [|done].
    destruct (worker_step (worker_name w) pc0 s) as [[pc' s1]|] eqn:Hs;
      simplify_eq/=.
    by destruct (worker_step_shape _ _ _ _ _ Hs) as (_ & _ & _ & _ & -> & _).
  - destruct (workers s !! w) as [pc0|]; simpl in Hstep; [|done].
    destruct pc0; try done. destruct (may_result _ _); by simplify_eq.
  - destruct (cleanups s !! c0) as [pc0|] eqn:Hc0; simpl in Hstep; [|done].
    destruct (cleanup_step pc0 s) as [[pc' s1]|] eqn:Hs; simplify_eq/=.
    rewrite list_lookup_insert_ne by congruence.
    by destruct pc0; simplify_eq/=.
Qed.

Lemma collected_step a s s' t :
  collected (issued s) (JOBS s) (fs s) (handlers s) t →
  step a s = Some s' →
  collected (issued s') (JOBS s') (fs s') (handlers s') t.
Proof.
  intros (HI & HJ & Hgone & Hhs) Hstep.
  destruct a as [req uuid|h|t0|t0|w|w r|c0]; simpl in Hstep.
  - destruct (decide (uuid ∈ issued s)) as [|Hnew]; simplify_eq. simpl.
    split_and!; [set_solver|done..|].
    intros h pc [[-> ->]|Hh]%snoc_lookup_inv; [|by eapply Hhs].
    simpl. congruence.
  - destruct (handlers s !! h) as [pc|] eqn:Hh; simpl in Hstep; [|done].
    destruct (handler_step pc s) as [[pc' s1]|] eqn:Hs; simplify_eq/=.
    pose proof (Hhs _ _ Hh) as Hne.
    assert (Hpre : ∀ t1, hpre pc' = Some t1 → hpre pc = Some t1).
    { destruct pc; cbv beta iota zeta delta [handler_step] in Hs;
        repeat match type of Hs with
               | context [match ?x with _ => _ end] => destruct x
               end; by simplify_eq. }
    assert (Hrest : issued s1 = issued s ∧ JOBS s1 !! t = None ∧
              workspace_gone (fs s1) t ∧ handlers s1 = handlers s).
    { destruct pc as [req t1|req t1|req t1|req t1|req t1|req t1|t1 r];
        cbv beta iota zeta delta [handler_step] in Hs; simpl in Hne;
        repeat match type of Hs with
               | context [match ?x with _ => _ end] => destruct x eqn:?
               end; simplify_eq; simpl; split_and!; try done.
      - eapply gone_same; [|done]. eapply ws_same_mkdir; [done|congruence].
      - eapply gone_same; [|done]. eapply ws_same_write; [done|congruence].
      - eapply gone_same; [|done]. eapply ws_same_write; [done|congruence].
      - eapply gone_same; [|done]. eapply ws_same_write; [done|congruence].
      - rewrite lookup_insert_ne; [done|congruence]. }
    destruct Hrest as (-> & ? & ? & ->). split_and!; try done.
    intros h0 pc0 [[-> ->]|[_ Hh0]]%insert_lookup_inv; [|by eapply Hhs].
    intros Hp. by apply Hpre in Hp.
  - by simplify_eq.
  - simplify_eq. unfold encode_result.
    repeat match goal with
           | |- context [match ?x with _ => _ end] => destruct x
           end; simpl; done.
  - destruct (workers s !! w) as [pc0|] eqn:Hw; simpl in Hstep; [|done].
    destruct (worker_step (worker_name w) pc0 s) as [[pc' s1]|] eqn:Hs;
      simplify_eq/=.
    by destruct (worker_step_shape _ _ _ _ _ Hs) as (-> & -> & -> & -> & _).
  - destruct (workers s !! w) as [pc0|]; simpl in Hstep; [|done].
    destruct pc0; try done. destruct (may_result _ _); by simplify_eq.
  - destruct (cleanups s !! c0) as [pc0|] eqn:Hc0; simpl in Hstep; [|done].
    destruct pc0; simplify_eq/=; split_and!; try done.
    + by apply gone_rmtree.
    + apply lookup_delete_None. by right.
Qed.

Lemma collected_run labels s s' t :
  collected (issued s) (JOBS s) (fs s) (handlers s) t →
  run labels s = Some s' →
  collected (issued s') (JOBS s') (fs s') (handlers s') t.
Proof.
  revert s. induction labels as [|a rest IH]; intros s Hc Hrun; simpl in Hrun.
  - by simplify_eq.
  - destruct (step a s) as [s1|] eqn:Hstep; simpl in Hrun; [|done].
    eapply IH; [|done]. by eapply collected_step.
Qed.

Lemma collecting_step a s s' c t :
  inv s → collecting s c t → step a s = Some s' → collecting s' c t.
Proof.
  intros Hinv Hc Hstep. unfold collecting in *.
  destruct (cleanups s !! c) as [pc|] eqn:Hpc; [|done].
  assert (Hcases : a = CStep c ∨ a ≠ CStep c).
  { destruct a as [| | | | | |c0]; try (by right).
    destruct (decide (c0 = c)) as [->|]; [by left|right; congruence]. }
  destruct Hcases as [->|Hne].
  - simpl in Hstep. rewrite Hpc in Hstep. simpl in Hstep.
    pose proof (inv_cleanups _ Hinv _ _ Hpc) as Hg.
    pose proof (lookup_lt_Some _ _ _ Hpc) as Hlt.
    destruct pc as [t' fo|t' fo|]; simplify_eq/=.
    + by rewrite list_lookup_insert_eq.
    + rewrite list_lookup_insert_eq by done.
      destruct Hg as (_ & HI & _ & Hgone). split_and!; [done| |done|].
      * apply lookup_delete_eq.
      * intros h pc Hh Hp. by eapply (inv_hc _ Hinv).
  - rewrite (cleanups_step _ _ _ _ _ Hstep Hne Hpc).
    destruct pc as [t' fo|t' fo|]; [done..|]. by eapply collected_step.
Qed.

Lemma collecting_run labels s s' c t :
  reachable s → collecting s c t → run labels s = Some s' → collecting s' c t.
Proof.
  revert s. induction labels as [|a rest IH]; intros s Hr Hc Hrun; simpl in Hrun.
  - by simplify_eq.
  - destruct (step a s) as [s1|] eqn:Hstep; simpl in Hrun; [|done].
    eapply IH; [by eapply reachable_step| |done].
    eapply collecting_step; [by apply reachable_inv|done..].
Qed.


(** ** The terminal outcome *)


(** ** A worker that has died *)

Lemma dead_step a s s' :
  (∀ w pc, workers s !! w = Some pc → ∃ e, pc = WDead e) →
  step a s = Some s' →
  workers s' = workers s ∧
  (∀ l j, heap s !! l = Some j → heap s' !! l = Some j) ∧
  JOB_QUEUE s `prefix_of` JOB_QUEUE s'.
Proof.
  intros Hdead Hstep. destruct a as [req uuid|h|t0|t0|w|w r|c0]; simpl in Hstep.
  - destruct (decide (uuid ∈ issued s)); by simplify_eq.
  - destruct (handlers s !! h) as [pc|] eqn:Hh; simpl in Hstep; [|done].
    destruct (handler_step pc s) as [[pc' s1]|] eqn:Hs; simplify_eq/=.
    destruct pc as [req t1|req t1|req t1|req t1|req t1|req t1|t1 r];
      cbv beta iota zeta delta [handler_step] in Hs;
      repeat match type of Hs with
             | context [match ?x with _ => _ end] => destruct x
             end; simplify_eq; simpl; split_and!; try done.
    + intros l j. apply lookup_app_l_Some.
    + by apply prefix_app_r.
  - by simplify_eq.
  - simplify_eq. unfold encode_result.
    repeat match goal with
           | |- context [match ?x with _ => _ end] => destruct x
           end; done.
  - destruct (workers s !! w) as [pc|] eqn:Hw; simpl in Hstep; [|done].
    by destruct (Hdead _ _ Hw) as [e ->].
  - destruct (workers s !! w) as [pc|] eqn:Hw; simpl in Hstep; [|done].
    by destruct (Hdead _ _ Hw) as [e ->].
  - destruct (cleanups s !! c0) as [pc|]; simpl in Hstep; [|done].
    by destruct pc; simplify_eq/=.
Qed.

Lemma dead_run labels s s' :
  (∀ w pc, workers s !! w = Some pc → ∃ e, pc = WDead e) →
  run labels s = Some s' →
  workers s' = workers s ∧
  (∀ l j, heap s !! l = Some j → heap s' !! l = Some j) ∧
  JOB_QUEUE s `prefix_of` JOB_QUEUE s'.
Proof.
  revert s. induction labels as [|a rest IH]; intros s Hdead Hrun; simpl in Hrun.
  - by simplify_eq.
  - destruct (step a s) as [s1|] eqn:Hstep; simpl in Hrun; [|done].
    destruct (dead_step _ _ _ Hdead Hstep) as (Hw & Hh & Hq).
    destruct (IH s1) as (Hw' & Hh' & Hq'); [by rewrite Hw|done|].
    split_and!; [congruence|by eauto|by etrans].
Qed.

(** * Further properties of the server *)

Ltac thread_at Hlt :=
  simpl; rewrite list_lookup_insert_eq by (by rewrite ?length_insert);
  reflexivity.

Ltac lookup_inserts Hne Hne' :=
  repeat first
    [ rewrite lookup_insert_eq
    | rewrite lookup_insert_ne
        by first [by apply Hne | apply Hne' | apply not_eq_sym, Hne'] ].

(** ** The fields of the job dictionaries *)

Lemma record_ok_new (fo : path) :
  record_ok {| status := queued; folder := fo; output_file := None;
               error := None; worker := None |}.
Proof.
  unfold record_ok. simpl. split_and!; try done; by intros [? ?].
Qed.

Lemma wnamed_wloc (pc : wpc) (l : loc) : wnamed pc = Some l → wloc pc = Some l.
Proof. by destruct pc. Qed.

Lemma wloc_wticket (pc : wpc) (l : loc) :
  wloc pc = Some l → ∃ t, wticket pc = Some t.
Proof. destruct pc; simpl; intros; simplify_eq; eauto. Qed.

(** Two workers never hold the same job dictionary. *)
Lemma held_apart (s : state) (w w0 : nat) (pc pc0 : wpc) (l l0 : loc) :
  inv s → workers s !! w = Some pc → workers s !! w0 = Some pc0 → w ≠ w0 →
  wloc pc = Some l → wloc pc0 = Some l0 → l ≠ l0.
Proof.
  intros Hinv Hw Hw0 Hne Hl Hl0 <-.
  destruct (wloc_wticket _ _ Hl) as [t Ht].
  destruct (wloc_wticket _ _ Hl0) as [t0 Ht0].
  destruct (wgood_held _ _ _ _ _ _ (inv_workers _ Hinv _ _ Hw) Ht Hl)
    as (_ & HJ & _).
  destruct (wgood_held _ _ _ _ _ _ (inv_workers _ Hinv _ _ Hw0) Ht0 Hl0)
    as (_ & HJ0 & _).
  pose proof (jobs_inj _ _ _ _ _ _ (inv_jobs _ Hinv) HJ HJ0) as ->.
  apply Hne. by eapply (inv_wexcl _ Hinv).
Qed.

Lemma wlinked_heap (hp hp' : list Job) (w : nat) (pc : wpc) :
  wlinked hp w pc →
  (∀ l j, wnamed pc = Some l → hp !! l = Some j →
     ∃ j', hp' !! l = Some j' ∧ worker j' = worker j) →
  wlinked hp' w pc.
Proof.
  intros [Hn Ho] Hh. split; [|done]. intros l Hl.
  destruct (Hn _ Hl) as (j & Hj & Hw).
  destruct (Hh _ _ Hl Hj) as (j' & ? & E). exists j'. split; [done|].
  by rewrite E.
Qed.

Lemma linked_worker_pc (s : state) (w : nat) (pc' : wpc) :
  linked s → wlinked (heap s) w pc' → linked (set_workers <[w := pc']> s).
Proof.
  intros [Hrec Hwk] Hpc'. split; simpl; [done|].
  intros w0 pc0 [[-> ->]|[_ Hw0]]%insert_lookup_inv; [done|by eauto].
Qed.

Lemma linked_worker_assign (s : state) (w : nat) (pc pc' : wpc) (l : loc)
    (j : Job) (g : Job → Job) :
  inv s → linked s → workers s !! w = Some pc → wloc pc = Some l →
  heap s !! l = Some j → record_ok (g j) →
  wlinked (alter g l (heap s)) w pc' →
  linked (set_workers <[w := pc']> (assign l g s)).
Proof.
  intros Hinv [Hrec Hwk] Hw Hl Hj Hg Hpc'. split; simpl.
  - intros l0 j0 [[-> (j1 & Hj1 & ->)]|[_ ?]]%alter_lookup_inv; [|by eauto].
    by simplify_eq.
  - intros w0 pc0 [[-> ->]|[Hne Hw0]]%insert_lookup_inv; [done|].
    eapply wlinked_heap; [by eapply Hwk|]. intros l0 j0 Hn Hj0.
    exists j0. split; [|done]. rewrite list_lookup_alter_ne; [done|].
    eapply (held_apart s w w0); eauto using wnamed_wloc.
Qed.

Lemma linked_wstep (s : state) (w : nat) (s' : state) :
  inv s → linked s → step (WStep w) s = Some s' → linked s'.
Proof.
  intros Hinv Hlk Hstep. unfold step in Hstep.
  destruct (workers s !! w) as [pc|] eqn:Hw; simpl in Hstep; [|done].
  destruct (worker_step (worker_name w) pc s) as [[pc' s1]|] eqn:Hs;
    simpl in Hstep; [|done].
  injection Hstep as <-.
  pose proof (inv_workers _ Hinv _ _ Hw) as Hg.
  pose proof (linked_workers _ Hlk _ _ Hw) as [Hnamed Hout].
  destruct pc as [|t|t l|t l|t l fo|t l fo o|t l cmd out|t l out r|t l out r| |e];
    simpl in Hs.
  - destruct (JOB_QUEUE s) as [|t rest] eqn:Hq; simplify_eq.
    apply (linked_worker_pc (set_JOB_QUEUE _ s)); [by destruct Hlk|].
    split; simpl; intros; congruence.
  - destruct (JOBS_get t s) as [[l j]|] eqn:E; simplify_eq;
      (apply linked_worker_pc; [done|]); split; simpl; intros; congruence.
  - simplify_eq.
    destruct (wgood_held _ _ _ _ _ _ Hg eq_refl eq_refl)
      as (Hq & HJ & j & Hhp & Hst & Ho).
    destruct (linked_records _ Hlk _ _ Hhp) as (Re & Ro & Rw & Rp).
    eapply linked_worker_assign; eauto.
    + unfold record_ok. simpl. by split_and!.
    + split; simpl; [|intros; congruence]. intros l' [= <-].
      eexists. rewrite list_lookup_alter_eq, Hhp. simpl. by split.
  - destruct (wgood_held _ _ _ _ _ _ Hg eq_refl eq_refl)
      as (Hq & HJ & j & Hhp & Hst & Ho).
    simpl in Hs. rewrite list_lookup_alter_eq, Hhp in Hs. simplify_eq/=.
    destruct (linked_records _ Hlk _ _ Hhp) as (Re & Ro & Rw & Rp).
    destruct (Hnamed _ eq_refl) as (j' & Hj' & Hwn). simplify_eq.
    eapply linked_worker_assign; eauto.
    + unfold record_ok. simpl. split_and!.
      * intros He. apply Re in He. congruence.
      * intros Hx. apply Ro in Hx. congruence.
      * intros _. by rewrite Hwn.
      * done.
    + split; simpl; [|intros; congruence]. intros l' [= <-].
      eexists. rewrite list_lookup_alter_eq, Hhp. simpl. by split.
  - destruct (_ ≫= _) as [o|e] in Hs; simplify_eq.
    + apply linked_worker_pc; [done|]. split; simpl; [done|intros; congruence].
    + apply linked_worker_pc; [done|]. split; simpl; intros; congruence.
  - simplify_eq. apply linked_worker_pc; [done|]. split; simpl; [done|].
    intros t' out' [= <-] [= <-].
    unfold wgood in Hg. simpl in Hg.
    destruct Hg as [_ (l' & j' & _ & _ & _ & _ & _ & Hfo)].
    by rewrite (Hfo _ eq_refl).
  - done.
  - simplify_eq.
    destruct (wgood_held _ _ _ _ _ _ Hg eq_refl eq_refl)
      as (Hq & HJ & j & Hhp & Hst & Ho).
    destruct (linked_records _ Hlk _ _ Hhp) as (Re & Ro & Rw & Rp).
    simpl in Hst.
    eapply linked_worker_assign; eauto.
    + unfold record_ok. simpl. split_and!.
      * intros He. apply Re in He. congruence.
      * intros Hx. apply Ro in Hx. congruence.
      * intros _. apply Rw. congruence.
      * done.
    + split; simpl; [|done]. intros l' [= <-].
      destruct (Hnamed _ eq_refl) as (j' & Hj' & Hwn). simplify_eq.
      eexists. rewrite list_lookup_alter_eq, Hhp. simpl. by split.
  - simplify_eq.
    destruct (wgood_held _ _ _ _ _ _ Hg eq_refl eq_refl)
      as (Hq & HJ & j & Hhp & Hst & Ho).
    destruct (linked_records _ Hlk _ _ Hhp) as (Re & Ro & Rw & Rp).
    simpl in Hst.
    destruct (inv_jobs _ Hinv _ _ HJ) as (_ & j' & Hj' & Hfo). simplify_eq.
    eapply linked_worker_assign; eauto.
    + unfold record_ok. destruct r as [[|p|p] err|msg]; simpl in *;
        split_and!; try done; try (intros; congruence).
      intros p [= <-]. rewrite Hfo. by apply Hout.
    + split; simpl; intros; congruence.
  - simplify_eq. apply linked_worker_pc; [done|]. split; simpl; intros; congruence.
  - done.
Qed.

Lemma linked_step (a : label) (s s' : state) :
  inv s → linked s → step a s = Some s' → linked s'.
Proof.
  intros Hinv Hlk Hstep. destruct a as [req uuid|h|t|t|w|w r|c].
  - simpl in Hstep. destruct (decide (uuid ∈ issued s)); simplify_eq.
    by destruct Hlk.
  - simpl in Hstep.
    destruct (handlers s !! h) as [pc|] eqn:Hh; simpl in Hstep; [|done].
    destruct (handler_step pc s) as [[pc' s1]|] eqn:Hs; simplify_eq/=.
    destruct Hlk as [Hrec Hwk].
    destruct (handler_step_shape _ _ _ _ Hs)
      as (Ew & _ & _ & _ & [[Eh _]|(req & t & j0 & -> & Eh & _ & _)]);
      split; simpl; rewrite ?Ew, ?Eh; try done.
    + cbv beta iota zeta delta [handler_step] in Hs. simplify_eq. simpl in Eh.
      apply app_inv_head in Eh as [= <-].
      intros l j [[_ ->]|?]%snoc_lookup_inv; [apply record_ok_new|by eauto].
    + intros w pc Hw. eapply wlinked_heap; [by eapply Hwk|].
      intros l j _ Hj. exists j. split; [|done]. by apply lookup_app_l_Some.
  - simpl in Hstep. by simplify_eq.
  - simpl in Hstep. simplify_eq. destruct Hlk as [Hrec Hwk].
    unfold encode_result.
    repeat match goal with
           | |- context [match ?x with _ => _ end] => destruct x
           end; by split.
  - by eapply linked_wstep.
  - simpl in Hstep.
    destruct (workers s !! w) as [pc|] eqn:Hw; simpl in Hstep; [|done].
    destruct pc; try done. destruct (may_result cmd r); [|done]. simplify_eq.
    pose proof (linked_workers _ Hlk _ _ Hw) as [Hnamed Hout].
    apply linked_worker_pc; [done|]. split; simpl; [done|].
    intros t' out' [= <-] [= <-]. by apply Hout.
  - simpl in Hstep.
    destruct (cleanups s !! c) as [pc|]; simpl in Hstep; [|done].
    destruct Hlk. by destruct pc; simplify_eq/=.
Qed.

Lemma linked_init (n : nat) (disk : gmap path node) : linked (init n disk).
Proof.
  split; simpl; [done|].
  intros w pc [-> _]%lookup_replicate. split; simpl; intros; congruence.
Qed.

Lemma reachable_linked (s : state) : reachable s → linked s.
Proof.
  induction 1 as [n disk|a s s' Hr IH Hstep]; [apply linked_init|].
  eapply linked_step; [by apply reachable_inv|done..].
Qed.

Lemma worker_name_inj (w w' : nat) : worker_name w = worker_name w' → w = w'.
Proof.
  unfold worker_name. intros Hn%(inj (String.app _))%(inj pretty). lia.
Qed.

(** X1: in every reachable state, a worker that has passed line 40 with a
    ticket has written its own thread name into the job dictionary of that
    ticket, the dictionary has the status that belongs to the worker's
    place in the loop, and the status route reports the ticket with that
    status and that worker; the names of two workers differ. *)
Theorem status_names_the_worker (s : state) (w : nat) (pc : wpc) (t : string)
    (l : loc) :
  reachable s → workers s !! w = Some pc →
  wticket pc = Some t → wnamed pc = Some l →
  (∃ j, JOBS s !! t = Some l ∧ heap s !! l = Some j ∧
        worker j = Some (worker_name w) ∧ status j = wstatus pc ∧
        encode_status t s
        = jsonify 200 [("ticket_id", JStr t);
                       ("status", JStr (status_str (wstatus pc)));
                       ("worker", JStr (worker_name w));
                       ("error", opt_str (error j))]) ∧
  ∀ w', worker_name w' = worker_name w → w' = w.
Proof.
  intros Hr Hw Ht Hl. split; [|by intros w' ?%worker_name_inj].
  pose proof (reachable_inv _ Hr) as Hinv.
  pose proof (reachable_linked _ Hr) as Hlk.
  destruct (wgood_held _ _ _ _ _ _ (inv_workers _ Hinv _ _ Hw) Ht
              (wnamed_wloc _ _ Hl)) as (_ & HJ & j & Hj & Hst & _).
  destruct (linked_workers _ Hlk _ _ Hw) as [Hn _].
  destruct (Hn _ Hl) as (j' & Hj' & Hwn). simplify_eq.
  exists j. split_and!; try done.
  unfold encode_status. rewrite (proj2 (JOBS_get_Some t s l j)) by done.
  by rewrite Hst, Hwn.
Qed.

(** X2: in every reachable state, the job dictionary that the job table
    holds for a ticket names the workspace of that ticket as its folder;
    it has an error text only at [failed] and an output file only at
    [done], the output file being [output.mp4] in that workspace; and once
    it has left [queued] it names a worker. *)
Theorem job_fields_consistent (s : state) (t : string) (l : loc) (j : Job) :
  reachable s → JOBS s !! t = Some l → heap s !! l = Some j →
  folder j = TEMP_DIR // t ∧
  (is_Some (error j) → status j = failed) ∧
  (is_Some (output_file j) → status j = done) ∧
  (status j ≠ queued → is_Some (worker j)) ∧
  (∀ p, output_file j = Some p → p = TEMP_DIR // t // "output.mp4").
Proof.
  intros Hr HJ Hj.
  destruct (inv_jobs _ (reachable_inv _ Hr) _ _ HJ) as (_ & j' & Hj' & Hfo).
  simplify_eq.
  destruct (linked_records _ (reachable_linked _ Hr) _ _ Hj) as (Re & Ro & Rw & Rp).
  split_and!; try done. intros p Hp. rewrite <- Hfo. by apply Rp.
Qed.

(** X3: in every reachable state, when the result route sends a file for a
    ticket, the file is [output.mp4] in the workspace of that very ticket,
    the download name is the ticket followed by [.mp4], the job is at
    [done] without an error text, and the only effect of the request is
    that a clean-up thread for the workspace of the ticket is started. *)
Theorem result_serves_own_output (s s' : state) (t : string) (p : path)
    (n : string) :
  reachable s → encode_result t s = (send_file p n, s') →
  p = TEMP_DIR // t // "output.mp4" ∧ n = t +:+ ".mp4" ∧
  s' = set_cleanups (λ c, c ++ [CRmtree t (TEMP_DIR // t)]) s ∧
  ∃ l j, JOBS s !! t = Some l ∧ heap s !! l = Some j ∧
         status j = done ∧ error j = None.
Proof.
  intros Hr Hres. unfold encode_result in Hres.
  destruct (JOBS_get t s) as [[l j]|] eqn:E; [|done].
  apply JOBS_get_Some in E as [HJ Hj].
  destruct (inv_jobs _ (reachable_inv _ Hr) _ _ HJ) as (_ & j' & Hj' & Hfo).
  simplify_eq.
  destruct (linked_records _ (reachable_linked _ Hr) _ _ Hj) as (Re & Ro & Rw & Rp).
  destruct (status j) eqn:Hst; try done.
  destruct (output_file j) as [out|] eqn:Hout; [|done].
  injection Hres as <- <- <-. rewrite (Rp _ eq_refl), Hfo.
  split_and!; try done. exists l, j. split_and!; try done.
  destruct (error j) eqn:He; [|done].
  assert (Hf : done = failed) by (apply Re; eauto). done.
Qed.

(** X4: in every reachable state, no two workers hold the same ticket, a
    ticket that a worker holds is not in the queue, and no ticket is in
    the queue twice: every job is taken by one worker, once. *)
Theorem one_worker_per_ticket (s : state) :
  reachable s →
  (∀ w w' pc pc' t, workers s !! w = Some pc → workers s !! w' = Some pc' →
     wticket pc = Some t → wticket pc' = Some t → w = w') ∧
  (∀ w pc t, workers s !! w = Some pc → wticket pc = Some t →
     t ∉ JOB_QUEUE s) ∧
  NoDup (JOB_QUEUE s).
Proof.
  intros Hr. apply reachable_inv in Hr. open_inv Hr. split_and!; [done| |done].
  intros w pc t Hw Ht. pose proof (Hws _ _ Hw) as Hg.
  unfold wgood in Hg. rewrite Ht in Hg. by destruct Hg.
Qed.

(** ** What a request and a clean-up thread leave alone *)

Lemma mkdir_p_frame (p : path) (f f' : gmap path node) :
  mkdir_p p f = Ok f' →
  ∀ q, f' !! q = f !! q ∨
       (q `suffix_of` p ∧ f !! q = None ∧ f' !! q = Some Dir).
Proof.
  revert f f'. induction p as [|x parent IH]; intros f f'; simpl.
  - destruct (f !! []) as [[|c]|] eqn:E; intros Hm; simplify_eq.
    + eauto.
    + intros q. destruct (decide (q = [])) as [->|Hq].
      * right. by rewrite lookup_insert_eq.
      * left. by rewrite lookup_insert_ne.
  - destruct (f !! (x :: parent)) as [[|c]|] eqn:E; intros Hm; simplify_eq.
    + eauto.
    + destruct (mkdir_p parent f) as [f1|e] eqn:E1; simpl in Hm; simplify_eq.
      intros q. destruct (decide (q = x :: parent)) as [->|Hq].
      * right. by rewrite lookup_insert_eq.
      * rewrite lookup_insert_ne by done.
        destruct (IH _ _ E1 q) as [?|(? & ? & ?)]; [by left|right].
        split; [by apply suffix_cons_r|done].
Qed.

Lemma suffix_child (q p : path) (x : string) :
  q `suffix_of` x :: p → q = x :: p ∨ q `suffix_of` p.
Proof.
  intros [k E]. destruct k as [|y k]; simpl in E.
  - by left.
  - injection E as _ E. right. by exists k.
Qed.

(** The files that one statement of [encode_start] touches. *)
Lemma handler_step_fs (pc pc' : hpc) (s s1 : state) (t : string) :
  handler_step pc s = Some (pc', s1) → hticket pc = Some t →
  ∀ q, fs s1 !! q = fs s !! q ∨ under t q ∨
       (q `suffix_of` TEMP_DIR ∧ fs s !! q = None ∧ fs s1 !! q = Some Dir).
Proof.
  intros Hs Ht q.
  destruct pc as [req t1|req t1|req t1|req t1|req t1|req t1|t1 r];
    cbv beta iota zeta delta [handler_step] in Hs; simpl in Ht;
    repeat match type of Hs with
           | context [match ?x with _ => _ end] => destruct x eqn:?
           end; simplify_eq; simpl; try (by left).
  - match goal with
    | E : mkdir_p _ _ = Ok _ |- _ =>
        destruct (mkdir_p_frame _ _ _ E q) as [?|(Hq & ? & ?)]
    end; [by left|].
    apply suffix_child in Hq as [->|Hq]; [right; left; apply under_root|].
    by right; right.
  - match goal with
    | E : write_file _ _ _ = Ok _ |- _ => apply write_file_spec in E as ->
    end.
    destruct (decide (q = TEMP_DIR // t // "input_file")) as [->|Hq].
    + right; left. apply under_file.
    + left. by rewrite lookup_insert_ne.
  - match goal with
    | E : write_file _ _ _ = Ok _ |- _ => apply write_file_spec in E as ->
    end.
    destruct (decide (q = TEMP_DIR // t // "input.srt")) as [->|Hq].
    + right; left. apply under_file.
    + left. by rewrite lookup_insert_ne.
  - match goal with
    | E : write_file _ _ _ = Ok _ |- _ => apply write_file_spec in E as ->
    end.
    destruct (decide (q = TEMP_DIR // t // "options.json")) as [->|Hq].
    + right; left. apply under_file.
    + left. by rewrite lookup_insert_ne.
Qed.

(** X5: one statement of a request for ticket [t] changes no file outside
    the workspace of [t], except that it creates the directory [temp] and
    its ancestors where they are missing; it changes the job-table entry of
    no other ticket, leaves every job dictionary that exists as it is,
    takes nothing from the queue, and touches no worker and no clean-up
    thread. *)
Theorem submission_writes_own_workspace (s s' : state) (h : nat) (pc : hpc)
    (t : string) :
  handlers s !! h = Some pc → hticket pc = Some t →
  step (HStep h) s = Some s' →
  (∀ q, fs s' !! q = fs s !! q ∨ under t q ∨
        (q `suffix_of` TEMP_DIR ∧ fs s !! q = None ∧ fs s' !! q = Some Dir)) ∧
  (∀ t', t' ≠ t → JOBS s' !! t' = JOBS s !! t') ∧
  (∀ l j, heap s !! l = Some j → heap s' !! l = Some j) ∧
  JOB_QUEUE s `prefix_of` JOB_QUEUE s' ∧
  workers s' = workers s ∧ cleanups s' = cleanups s.
Proof.
  intros Hh Ht Hstep. simpl in Hstep. rewrite Hh in Hstep. simpl in Hstep.
  destruct (handler_step pc s) as [[pc' s1]|] eqn:Hs; simplify_eq/=.
  split; [by eapply handler_step_fs|].
  destruct pc as [req t1|req t1|req t1|req t1|req t1|req t1|t1 r];
    cbv beta iota zeta delta [handler_step] in Hs; simpl in Ht;
    repeat match type of Hs with
           | context [match ?x with _ => _ end] => destruct x eqn:?
           end; simplify_eq; simpl; split_and!; try done.
  - intros t' Hne. by rewrite lookup_insert_ne.
  - intros l j. apply lookup_app_l_Some.
  - by apply prefix_app_r.
Qed.

(** X6: in every reachable state, one statement of the clean-up thread of
    ticket [t] changes no file outside the workspace of [t] and the
    job-table entry of no other ticket, and it leaves the job
    dictionaries, the queue, the workers and the requests as they are. *)
Theorem cleanup_touches_own_ticket (s s' : state) (c : nat) (pc : cpc)
    (t : string) :
  reachable s → cleanups s !! c = Some pc → cticket pc = Some t →
  step (CStep c) s = Some s' →
  (∀ q, ¬ under t q → fs s' !! q = fs s !! q) ∧
  (∀ t', t' ≠ t → JOBS s' !! t' = JOBS s !! t') ∧
  heap s' = heap s ∧ JOB_QUEUE s' = JOB_QUEUE s ∧
  workers s' = workers s ∧ handlers s' = handlers s.
Proof.
  intros Hr Hc Ht Hstep. simpl in Hstep. rewrite Hc in Hstep. simpl in Hstep.
  pose proof (inv_cleanups _ (reachable_inv _ Hr) _ _ Hc) as Hg.
  destruct pc as [t0 fo|t0 fo|]; simplify_eq/=; split_and!; try done.
  - intros q Hq. destruct Hg as (-> & _). by apply rmtree_lookup_other.
  - intros t' Hne. by rewrite lookup_delete_ne.
Qed.

(** ** A failed job is never collected *)

Lemma jobs_step (a : label) (s s' : state) (t : string) (l : loc) :
  inv s → step a s = Some s' → JOBS s !! t = Some l →
  JOBS s' !! t = Some l ∨
  ∃ c fo, a = CStep c ∧ cleanups s !! c = Some (CPop t fo).
Proof.
  intros Hinv Hstep HJ.
  destruct a as [req uuid|h|t0|t0|w|w r|c]; simpl in Hstep.
  - destruct (decide (uuid ∈ issued s)); simplify_eq. by left.
  - destruct (handlers s !! h) as [pc|] eqn:Hh; simpl in Hstep; [|done].
    destruct (handler_step pc s) as [[pc' s1]|] eqn:Hs; simplify_eq/=. left.
    destruct (handler_step_shape _ _ _ _ Hs)
      as (_ & _ & _ & _ & [[_ ->]|(req & t1 & j0 & -> & _ & -> & _)]); [done|].
    destruct (decide (t1 = t)) as [->|Hne]; [|by rewrite lookup_insert_ne].
    destruct (inv_handlers _ Hinv _ _ Hh) as [[_ Hno] _]. congruence.
  - simplify_eq. by left.
  - simplify_eq. left. unfold encode_result.
    repeat match goal with
           | |- context [match ?x with _ => _ end] => destruct x
           end; done.
  - destruct (workers s !! w) as [pc|] eqn:Hw; simpl in Hstep; [|done].
    destruct (worker_step (worker_name w) pc s) as [[pc' s1]|] eqn:Hs;
      simplify_eq/=.
    left. by destruct (worker_step_shape _ _ _ _ _ Hs) as (-> & _).
  - destruct (workers s !! w) as [pc|]; simpl in Hstep; [|done].
    destruct pc; try done. destruct (may_result _ _); simplify_eq. by left.
  - destruct (cleanups s !! c) as [pc|] eqn:Hc; simpl in Hstep; [|done].
    destruct pc as [t1 fo|t1 fo|]; simplify_eq/=; [by left|].
    destruct (decide (t1 = t)) as [->|Hne]; [right; eauto|].
    left. by rewrite lookup_delete_ne.
Qed.

Lemma failed_step (a : label) (s s' : state) (t : string) (l : loc) :
  inv s → step a s = Some s' → JOBS s !! t = Some l →
  (∃ j, heap s !! l = Some j ∧ status j = failed) →
  JOBS s' !! t = Some l ∧ ∃ j', heap s' !! l = Some j' ∧ status j' = failed.
Proof.
  intros Hinv Hstep HJ (j & Hj & Hst). split.
  - destruct (jobs_step _ _ _ _ _ Hinv Hstep HJ) as [?|(c & fo & -> & Hc)]; [done|].
    destruct (inv_cleanups _ Hinv _ _ Hc) as (_ & _ & Hfin & _).
    destruct (Hfin _ _ HJ Hj) as [? _]. congruence.
  - destruct (step_shape _ _ _ Hinv Hstep) as [Hheap _].
    destruct Hheap as [->|[(l0 & g & j0 & Hl0 & -> & Hg)|(j0 & _ & ->)]].
    + eauto.
    + destruct (decide (l = l0)) as [->|Hne].
      * simplify_eq. exists (g j). rewrite list_lookup_alter_eq, Hj.
        split; [done|]. destruct Hg as [->|Hn]; [done|].
        rewrite Hst in Hn. inversion Hn.
      * exists j. by rewrite list_lookup_alter_ne.
    + exists j. split; [by apply lookup_app_l_Some|done].
Qed.

(** X7: a job at [failed] is never collected: from a reachable state on,
    whatever the threads do, the job table keeps its record, the record
    stays at [failed], the workspace keeps the input file and the options
    document, and the result route answers [NotReady]. *)
Theorem failed_job_stays (s s' : state) (t : string) (l : loc) (j : Job)
    (labels : list label) :
  reachable s → JOBS s !! t = Some l → heap s !! l = Some j →
  status j = failed → run labels s = Some s' →
  JOBS s' !! t = Some l ∧
  (∃ j', heap s' !! l = Some j' ∧ status j' = failed) ∧
  populated (fs s') t ∧
  encode_result t s' = (NotReady, s').
Proof.
  intros Hr HJ Hj Hst Hrun.
  assert (Hkeep : reachable s' ∧ JOBS s' !! t = Some l ∧
            ∃ j', heap s' !! l = Some j' ∧ status j' = failed).
  { assert (Hf : ∃ j, heap s !! l = Some j ∧ status j = failed) by eauto.
    clear j Hj Hst. revert s Hr HJ Hf Hrun.
    induction labels as [|a rest IH]; intros s Hr HJ Hf Hrun; simpl in Hrun.
    - by simplify_eq.
    - destruct (step a s) as [s1|] eqn:Hstep; simpl in Hrun; [|done].
      destruct (failed_step _ _ _ _ _ (reachable_inv _ Hr) Hstep HJ Hf).
      eapply (IH s1); eauto. by eapply reachable_step. }
  destruct Hkeep as (Hr' & HJ' & j' & Hj' & Hst').
  split_and!; [done|by eauto| |].
  - eapply (inv_ready _ (reachable_inv _ Hr')); eauto. congruence.
  - unfold encode_result. rewrite (proj2 (JOBS_get_Some t s' l j')) by done.
    by rewrite Hst'.
Qed.

(** ** The directory [temp] *)

Lemma not_under_temp (t : string) : ¬ under t TEMP_DIR.
Proof.
  unfold under, child. intros Hs%suffix_length. simpl in Hs. lia.
Qed.

Lemma temp_dir_step (a : label) (s s' : state) :
  inv s → fs s !! TEMP_DIR = Some Dir → step a s = Some s' →
  fs s' !! TEMP_DIR = Some Dir.
Proof.
  intros Hinv Ht Hstep. destruct a as [req uuid|h|t0|t0|w|w r|c]; simpl in Hstep.
  - destruct (decide (uuid ∈ issued s)); by simplify_eq.
  - destruct (handlers s !! h) as [pc|] eqn:Hh; simpl in Hstep; [|done].
    destruct (handler_step pc s) as [[pc' s1]|] eqn:Hs; simplify_eq/=.
    destruct (hticket pc) as [t|] eqn:Hpc; [|by destruct pc].
    destruct (handler_step_fs _ _ _ _ _ Hs Hpc TEMP_DIR) as [E|[Hu|(_ & ? & _)]].
    + by rewrite E.
    + by apply not_under_temp in Hu.
    + congruence.
  - by simplify_eq.
  - simplify_eq. unfold encode_result.
    repeat match goal with
           | |- context [match ?x with _ => _ end] => destruct x
           end; done.
  - destruct (workers s !! w) as [pc|] eqn:Hw; simpl in Hstep; [|done].
    destruct (worker_step (worker_name w) pc s) as [[pc' s1]|] eqn:Hs;
      simplify_eq/=.
    destruct (worker_step_shape _ _ _ _ _ Hs) as (_ & -> & _). done.
  - destruct (workers s !! w) as [pc|]; simpl in Hstep; [|done].
    destruct pc; try done. destruct (may_result _ _); by simplify_eq.
  - destruct (cleanups s !! c) as [pc|] eqn:Hc; simpl in Hstep; [|done].
    pose proof (inv_cleanups _ Hinv _ _ Hc) as Hg.
    destruct pc as [t fo|t fo|]; simplify_eq/=; [|done].
    destruct Hg as (-> & _). rewrite rmtree_lookup_other; [done|].
    apply not_under_temp.
Qed.

Lemma workers_step (a : label) (s s' : state) :
  step a s = Some s' → length (workers s') = length (workers s).
Proof.
  intros Hstep. destruct a as [req uuid|h|t0|t0|w|w r|c]; simpl in Hstep.
  - destruct (decide (uuid ∈ issued s)); by simplify_eq.
  - destruct (handlers s !! h) as [pc|] eqn:Hh; simpl in Hstep; [|done].
    destruct (handler_step pc s) as [[pc' s1]|] eqn:Hs; simplify_eq/=.
    by destruct (handler_step_shape _ _ _ _ Hs) as (-> & _).
  - by simplify_eq.
  - simplify_eq. unfold encode_result.
    repeat match goal with
           | |- context [match ?x with _ => _ end] => destruct x
           end; done.
  - destruct (workers s !! w) as [pc|] eqn:Hw; simpl in Hstep; [|done].
    destruct (worker_step (worker_name w) pc s) as [[pc' s1]|] eqn:Hs;
      simplify_eq/=.
    rewrite length_insert.
    by destruct (worker_step_shape _ _ _ _ _ Hs) as (_ & _ & _ & _ & _ & -> & _).
  - destruct (workers s !! w) as [pc|]; simpl in Hstep; [|done].
    destruct pc; try done. destruct (may_result _ _); simplify_eq.
    simpl. by rewrite length_insert.
  - destruct (cleanups s !! c) as [pc|] eqn:Hc; simpl in Hstep; [|done].
    by destruct pc; simplify_eq/=.
Qed.


(** ** A submission, run to its end *)

Lemma mkdir_p_there (p : path) (f : gmap path node) :
  f !! p = Some Dir → mkdir_p p f = Ok f.
Proof. intros Hp. destruct p; simpl; by rewrite Hp. Qed.

Lemma mkdir_p_fresh (p : path) (x : string) (f : gmap path node) :
  f !! (p // x) = None → f !! p = Some Dir →
  mkdir_p (p // x) f = Ok (<[p // x := Dir]> f).
Proof.
  intros Hx Hp. unfold child in *. simpl. rewrite Hx.
  by rewrite (mkdir_p_there _ _ Hp).
Qed.

Lemma write_file_fresh (p : path) (x : string) (c : text) (f : gmap path node) :
  f !! p = Some Dir → f !! (p // x) = None →
  write_file (p // x) c f = Ok (<[p // x := File c]> f).
Proof. intros Hp Hx. unfold write_file, child in *. simpl. by rewrite Hp, Hx. Qed.

Lemma hstep_at (s s1 : state) (h : nat) (pc pc' : hpc) :
  handlers s !! h = Some pc → handler_step pc s = Some (pc', s1) →
  step (HStep h) s = Some (set_handlers <[h := pc']> s1).
Proof. intros Hh Hs. simpl. rewrite Hh. simpl. by rewrite Hs. Qed.

Lemma run_cons (a : label) (rest : list label) (s s1 : state) :
  step a s = Some s1 → run (a :: rest) s = run rest s1.
Proof. intros Hs. simpl. by rewrite Hs. Qed.


(** ** A job, from the queue to its outcome *)

Lemma wstep_at (s s1 : state) (w : nat) (pc pc' : wpc) :
  workers s !! w = Some pc →
  worker_step (worker_name w) pc s = Some (pc', s1) →
  step (WStep w) s = Some (set_workers <[w := pc']> s1).
Proof. intros Hw Hs. simpl. rewrite Hw. simpl. by rewrite Hs. Qed.

Lemma wexec_at (s : state) (w : nat) (t : string) (l : loc) (cmd : list json)
    (out : path) (r : outcome) :
  workers s !! w = Some (WRun t l cmd out) → may_result cmd r = true →
  step (WExec w r) s = Some (set_workers <[w := WStatus t l out r]> s).
Proof. intros Hw Hr. simpl. rewrite Hw. simpl. by rewrite Hr. Qed.

(** Every argument of the command is a [str], the preset apart. *)
Lemma command_strs (input out : path) (vf : string) (o : options_locals) :
  forallb is_str (command input out vf o) = is_str (ffmpeg_preset o).
Proof. unfold command. simpl. by rewrite andb_true_r. Qed.

Lemma read_options_object (items : list (string * json)) :
  ∃ o, read_options (JObj items) = Ok o ∧ ffmpeg_preset o = preset_of items.
Proof. eexists. split; reflexivity. Qed.

(** X10: in a reachable state whose queue starts with ticket [t], whose
    options document is an object and whose preset is a string, a worker
    that waits at the queue and then runs lines 32-103 without stopping
    ends back at the queue with the ticket taken; the job dictionary names
    the worker; with exit code 0 the job is at [done] without an error text
    and the result route sends [output.mp4] of the workspace of [t]; with
    another exit code or an exception the job is at [failed], carries the
    diagnostic text, and the result route answers [NotReady]. *)
Theorem queued_job_processed (s : state) (w : nat) (t : string)
    (rest : list string) (items : list (string * json)) (r : outcome) :
  reachable s → workers s !! w = Some WGet → JOB_QUEUE s = t :: rest →
  fs s !! (TEMP_DIR // t // "options.json")
    = Some (File (WellFormed (JObj items))) →
  is_str (preset_of items) = true →
  ∃ s' l j,
    run (processing_of w r) s = Some s' ∧
    workers s' !! w = Some WGet ∧ JOB_QUEUE s' = rest ∧
    JOBS s' !! t = Some l ∧ heap s' !! l = Some j ∧
    worker j = Some (worker_name w) ∧
    match r with
    | Exited 0 _ =>
        status j = done ∧ error j = None ∧
        (encode_result t s').1
        = send_file (TEMP_DIR // t // "output.mp4") (t +:+ ".mp4")
    | Exited _ text | Raised text =>
        status j = failed ∧ error j = Some text ∧
        encode_result t s' = (NotReady, s')
    end.
Proof.
  intros Hr Hw Hq Hopt Hpre.
  pose proof (reachable_inv _ Hr) as Hinv.
  assert (Hlt : w < length (workers s)) by by eapply lookup_lt_Some.
  destruct (inv_queue _ Hinv t) as (l & j0 & HJ & Hj0 & Hst & Hout);
    [rewrite Hq; by left|].
  destruct (inv_jobs _ Hinv _ _ HJ) as (_ & j1 & Hj1 & Hfo). simplify_eq.
  destruct (linked_records _ (reachable_linked _ Hr) _ _ Hj0) as (Re & _).
  assert (Herr : error j0 = None).
  { destruct (error j0) eqn:E; [|done].
    assert (status j0 = failed) by (apply Re; eauto). congruence. }
  assert (Hl : l < length (heap s)) by by eapply lookup_lt_Some.
  unfold processing_of.
  (* line 32 *)
  erewrite run_cons; cycle 1.
  { eapply wstep_at; [done|]. simpl. rewrite Hq. reflexivity. }
  (* lines 33-35 *)
  erewrite run_cons; cycle 1.
  { eapply wstep_at; [thread_at Hlt|]. simpl.
    unfold JOBS_get. simpl. rewrite HJ. simpl. rewrite Hj0. reflexivity. }
  (* line 40 *)
  erewrite run_cons; cycle 1.
  { eapply wstep_at; [thread_at Hlt|]. reflexivity. }
  (* lines 42-46 *)
  erewrite run_cons; cycle 1.
  { eapply wstep_at; [thread_at Hlt|]. simpl.
    rewrite !list_lookup_alter_eq, Hj0. simpl. rewrite Hfo. reflexivity. }
  (* lines 49-57 *)
  erewrite run_cons; cycle 1.
  { eapply wstep_at; [thread_at Hlt|]. simpl.
    unfold read_file. simpl. rewrite Hopt. reflexivity. }
  (* lines 59-88 *)
  erewrite run_cons; cycle 1.
  { eapply wstep_at; [thread_at Hlt|]. reflexivity. }
  (* line 91 *)
  erewrite run_cons; cycle 1.
  { eapply wexec_at; [thread_at Hlt|].
    destruct r; [|done]. unfold may_result. by rewrite command_strs. }
  (* lines 92-101 *)
  erewrite run_cons; cycle 1.
  { eapply wstep_at; [thread_at Hlt|]. reflexivity. }
  erewrite run_cons; cycle 1.
  { eapply wstep_at; [thread_at Hlt|]. reflexivity. }
  (* line 103 *)
  erewrite run_cons; cycle 1.
  { eapply wstep_at; [thread_at Hlt|]. reflexivity. }
  eexists _, l, _. split; [reflexivity|]. cbn.
  split; [thread_at Hlt|]. split; [done|]. split; [done|].
  split; [by rewrite !list_lookup_alter_eq, Hj0|].
  unfold encode_result, JOBS_get. cbn. rewrite HJ. cbn.
  rewrite !list_lookup_alter_eq, Hj0. cbn.
  destruct r as [[|p|p] text|text]; cbn; by rewrite ?Herr, ?Hfo.
Qed.

(** ** The options document and the command *)


(** X12: in every reachable state, the worker that stands at line 49 holds
    the workspace of its ticket as folder, and the options file there is
    readable and well formed; the load of the options fails only when the
    document is not an object: then line 53 raises [AttributeError] and the
    thread ends; for an object the worker goes on to build the command. *)
Theorem options_load_outcome (s : state) (w : nat) (t : string) (l : loc)
    (folder : path) :
  reachable s → workers s !! w = Some (WLoadOptions t l folder) →
  folder = TEMP_DIR // t ∧
  ∃ doc,
    fs s !! (folder // "options.json") = Some (File (WellFormed doc)) ∧
    match doc with
    | JObj items =>
        ∃ o, read_options doc = Ok o ∧
          step (WStep w) s = Some (set_workers <[w := WBuild t l folder o]> s)
    | _ =>
        step (WStep w) s
        = Some (set_workers <[w := WDead (AttributeError "get")]> s)
    end.
Proof.
  intros Hr Hw. pose proof (reachable_inv _ Hr) as Hinv.
  pose proof (inv_workers _ Hinv _ _ Hw) as Hg.
  unfold wgood in Hg. simpl in Hg.
  destruct Hg as [_ (l' & j & HJ & Hj & _ & Hst & _ & Hfo)].
  pose proof (Hfo _ eq_refl) as ->. split; [done|].
  destruct (inv_ready _ Hinv _ _ _ HJ Hj) as [_ [doc Hdoc]]; [congruence|].
  exists doc. split; [done|].
  destruct doc; try (eapply wstep_at; [done|]; simpl; unfold read_file;
                     rewrite Hdoc; reflexivity).
  eexists. split; [reflexivity|].
  eapply wstep_at; [done|]. simpl. unfold read_file. rewrite Hdoc. reflexivity.
Qed.

(** X13: the fields that the options object gives enter the command as
    follows: the preset as it is, the constant rate factor and the audio
    bit rate through [str], the bit rate followed by [k], and the number of
    channels is 2 when the value of [stereo] is true in Python's sense and
    1 otherwise. *)
Theorem options_enter_the_command (s : state) (name t : string) (l : loc)
    (folder : path) (items : list (string * json)) (vp vc vs vb : json) :
  fs s !! (folder // "options.json") = Some (File (WellFormed (JObj items))) →
  dict_lookup "ffmpeg_preset" items = Some vp →
  dict_lookup "constant_rate_factor" items = Some vc →
  dict_lookup "stereo" items = Some vs →
  dict_lookup "audio_bitrate" items = Some vb →
  ∃ o cmd,
    worker_step name (WLoadOptions t l folder) s = Some (WBuild t l folder o, s) ∧
    worker_step name (WBuild t l folder o) s
      = Some (WRun t l cmd (folder // "output.mp4"), s) ∧
    length cmd = 27 ∧
    cmd !! 3 = Some (JStr (path_str (folder // "input_file"))) ∧
    cmd !! 9 = Some vp ∧
    cmd !! 17 = Some (JStr (py_str vc)) ∧
    cmd !! 23 = Some (JStr (py_str vb +:+ "k")) ∧
    cmd !! 25 = Some (JStr (if py_bool vs then "2" else "1")) ∧
    cmd !! 26 = Some (JStr (path_str (folder // "output.mp4"))).
Proof.
  intros Hf Hp Hc Hs Hb. eexists _, _. split; [|split; [reflexivity|]].
  - simpl. unfold read_file. rewrite Hf. simpl. reflexivity.
  - simpl. rewrite Hp, Hc, Hs, Hb. by split_and!.
Qed.

(** ** Escaping loses nothing *)

Lemma escape_char_head (c : ascii) (rest : string) :
  (escape_char c +:+ rest = String c rest ∧ c ≠ backslash ∧ c ≠ colon) ∨
  (escape_char c +:+ rest = String backslash (String c rest) ∧
   (c = backslash ∨ c = colon)).
Proof.
  unfold escape_char.
  destruct (Ascii.eqb c backslash) eqn:Eb.
  - right. apply Ascii.eqb_eq in Eb. split; [done|by left].
  - destruct (Ascii.eqb c colon) eqn:Ec; simpl.
    + right. apply Ascii.eqb_eq in Ec. split; [done|by right].
    + left. apply Ascii.eqb_neq in Eb, Ec. done.
Qed.

Lemma escape_filter_path_inj (s1 s2 : string) :
  escape_filter_path s1 = escape_filter_path s2 → s1 = s2.
Proof.
  revert s2. induction s1 as [|c1 r1 IH]; intros [|c2 r2]; simpl.
  - done.
  - destruct (escape_char_head c2 (escape_filter_path r2)) as [[-> _]|[-> _]]; done.
  - destruct (escape_char_head c1 (escape_filter_path r1)) as [[-> _]|[-> _]]; done.
  - destruct (escape_char_head c1 (escape_filter_path r1)) as [[-> [N1 N1']]|[-> S1]],
      (escape_char_head c2 (escape_filter_path r2)) as [[-> [N2 N2']]|[-> S2]];
      intros E; simplify_eq.
    + f_equal. by apply IH.
    + f_equal. by apply IH.
Qed.


(** ** Every request is answered *)

Lemma handler_step_progress (pc : hpc) (s : state) :
  (0 < hrank pc)%nat →
  ∃ pc' s1, handler_step pc s = Some (pc', s1) ∧ (hrank pc' < hrank pc)%nat ∧
    handlers s1 = handlers s ∧
    (∀ t, hticket pc' = Some t → hticket pc = Some t) ∧
    (∀ t r, pc' = HReturn t r → answered r ∧ hticket pc = Some t).
Proof.
  intros Hrank. unfold answered.
  destruct pc as [req t1|req t1|req t1|req t1|req t1|req t1|t1 r];
    [..|simpl in Hrank; lia];
    cbv beta iota zeta delta [handler_step];
    repeat match goal with
           | |- context [match ?x with _ => _ end] => destruct x eqn:?
           end;
    eexists _, _; (split; [reflexivity|]); simpl;
    (split; [lia|]); (split; [done|]);
    (split; [intros; congruence|]);
    intros t r ?; simplify_eq; eauto 10.
Qed.

Lemma handler_runs (k : nat) (s : state) (h : nat) (pc : hpc) :
  handlers s !! h = Some pc → (0 < hrank pc)%nat → (hrank pc ≤ k)%nat →
  ∃ n s' t r, (n ≤ k)%nat ∧ run (replicate n (HStep h)) s = Some s' ∧
    handlers s' !! h = Some (HReturn t r) ∧ answered r ∧ hticket pc = Some t.
Proof.
  revert s pc. induction k as [|k IH]; intros s pc Hh Hpos Hk; [lia|].
  destruct (handler_step_progress pc s Hpos) as (pc' & s1 & Hs & Hlt & Ehs & Ht & Hret).
  assert (Hlen : (h < length (handlers s))%nat) by by eapply lookup_lt_Some.
  pose proof (hstep_at _ _ _ _ _ Hh Hs) as Hstep.
  assert (Hh' : handlers (set_handlers <[h := pc']> s1) !! h = Some pc').
  { simpl. rewrite Ehs. by apply list_lookup_insert_eq. }
  destruct (decide (hrank pc' = 0)) as [Hz|Hnz].
  - destruct pc'; simpl in Hz; try lia.
    destruct (Hret _ _ eq_refl) as [? ?].
    exists 1, (set_handlers <[h := HReturn ticket_id r]> s1), ticket_id, r.
    split; [lia|]. split; [|done].
    change (replicate 1 (HStep h)) with [HStep h].
    by rewrite (run_cons _ _ _ _ Hstep).
  - destruct (IH _ _ Hh') as (n & s' & t & r & Hn & Hrun & Hend & Hans & Ht');
      [lia..|].
    exists (S n), s', t, r. split; [lia|].
    split; [|split_and!; try done; by apply Ht].
    change (replicate (S n) (HStep h)) with (HStep h :: replicate n (HStep h)).
    by rewrite (run_cons _ _ _ _ Hstep).
Qed.

(** X15: a request that [encode_start] is handling can always run its next
    statement, whatever the state of the server and of the disk, and run
    on its own it returns after at most six statements, with status code
    200, 400 or 500: every exception ends in a response. *)
Theorem submission_always_answers (s : state) (h : nat) (pc : hpc) (t : string) :
  handlers s !! h = Some pc → hticket pc = Some t →
  is_Some (step (HStep h) s) ∧
  ∃ n s' r, (n ≤ 6)%nat ∧ run (replicate n (HStep h)) s = Some s' ∧
    handlers s' !! h = Some (HReturn t r) ∧ answered r.
Proof.
  intros Hh Ht.
  assert (Hpos : (0 < hrank pc)%nat) by (destruct pc; simpl in *; [lia..|done]).
  split.
  - destruct (handler_step_progress pc s Hpos) as (pc' & s1 & Hs & _).
    rewrite (hstep_at _ _ _ _ _ Hh Hs). eauto.
  - destruct (handler_runs 6 s h pc Hh Hpos) as (n & s' & t' & r & ? & ? & ? & ? & Ht');
      [destruct pc; simpl; lia|].
    assert (t' = t) as -> by congruence. eauto 10.
Qed.

(** ** Where the tickets of the threads come from *)

Lemma handler_step_ticket (pc pc' : hpc) (s s1 : state) (t : string) :
  handler_step pc s = Some (pc', s1) → hticket pc' = Some t →
  hticket pc = Some t.
Proof.
  intros Hs Ht.
  assert (Hpos : (0 < hrank pc)%nat) by (by destruct pc; simpl; [lia..|]).
  destruct (handler_step_progress pc s Hpos) as (? & ? & Hs' & _ & _ & Hk & _).
  rewrite Hs in Hs'. simplify_eq. by apply Hk.
Qed.

Lemma handlers_step (a : label) (s s' : state) (h : nat) (pc' : hpc) (t : string) :
  step a s = Some s' → handlers s' !! h = Some pc' → hticket pc' = Some t →
  (∃ pc, handlers s !! h = Some pc ∧ hticket pc = Some t) ∨ t ∉ issued s.
Proof.
  intros Hstep Hh Ht. destruct a as [req uuid|h0|t0|t0|w|w r|c]; simpl in Hstep.
  - destruct (decide (uuid ∈ issued s)); simplify_eq. simpl in Hh.
    apply snoc_lookup_inv in Hh as [[_ ->]|Hh]; [|by eauto].
    right. by simplify_eq/=.
  - destruct (handlers s !! h0) as [pc|] eqn:Hh0; simpl in Hstep; [|done].
    destruct (handler_step pc s) as [[pc1 s1]|] eqn:Hs; simplify_eq/=.
    destruct (handler_step_shape _ _ _ _ Hs) as (_ & _ & _ & Ehs & _).
    rewrite Ehs in Hh.
    apply insert_lookup_inv in Hh as [[-> ->]|[_ Hh]]; [|by eauto].
    left. exists pc. split; [done|]. by eapply handler_step_ticket.
  - simplify_eq. eauto.
  - simplify_eq. left. exists pc'. split; [|done]. revert Hh.
    unfold encode_result.
    repeat match goal with
           | |- context [match ?x with _ => _ end] => destruct x
           end; done.
  - destruct (workers s !! w) as [pc|] eqn:Hw; simpl in Hstep; [|done].
    destruct (worker_step (worker_name w) pc s) as [[pc1 s1]|] eqn:Hs;
      simplify_eq/=.
    destruct (worker_step_shape _ _ _ _ _ Hs) as (_ & _ & _ & Ehs & _).
    rewrite Ehs in Hh. eauto.
  - destruct (workers s !! w) as [pc|]; simpl in Hstep; [|done].
    destruct pc; try done. destruct (may_result _ _); simplify_eq. eauto.
  - destruct (cleanups s !! c) as [pc|] eqn:Hc; simpl in Hstep; [|done].
    destruct pc; simplify_eq/=; eauto.
Qed.

Lemma worker_step_ticket (name : string) (pc pc' : wpc) (s s1 : state)
    (t : string) :
  worker_step name pc s = Some (pc', s1) → wticket pc' = Some t →
  wticket pc = Some t ∨ t ∈ JOB_QUEUE s.
Proof.
  intros Hs Ht. destruct pc; simpl in Hs;
    repeat match type of Hs with
           | context [match ?x with _ => _ end] => destruct x eqn:?
           | context [?x ≫= _] => destruct x eqn:?; simpl in Hs
           end; simplify_eq/=; try (by left).
  right. by left.
Qed.

Lemma workers_step_ticket (a : label) (s s' : state) (w : nat) (pc' : wpc)
    (t : string) :
  step a s = Some s' → workers s' !! w = Some pc' → wticket pc' = Some t →
  (∃ pc, workers s !! w = Some pc ∧ wticket pc = Some t) ∨ t ∈ JOB_QUEUE s.
Proof.
  intros Hstep Hw Ht. destruct a as [req uuid|h0|t0|t0|w0|w0 r|c]; simpl in Hstep.
  - destruct (decide (uuid ∈ issued s)); simplify_eq. eauto.
  - destruct (handlers s !! h0) as [pc|] eqn:Hh0; simpl in Hstep; [|done].
    destruct (handler_step pc s) as [[pc1 s1]|] eqn:Hs; simplify_eq/=.
    destruct (handler_step_shape _ _ _ _ Hs) as (Ews & _).
    rewrite Ews in Hw. eauto.
  - simplify_eq. eauto.
  - simplify_eq. left. exists pc'. split; [|done]. revert Hw.
    unfold encode_result.
    repeat match goal with
           | |- context [match ?x with _ => _ end] => destruct x
           end; done.
  - destruct (workers s !! w0) as [pc|] eqn:Hw0; simpl in Hstep; [|done].
    destruct (worker_step (worker_name w0) pc s) as [[pc1 s1]|] eqn:Hs;
      simplify_eq/=.
    destruct (worker_step_shape _ _ _ _ _ Hs) as (_ & _ & _ & _ & _ & Ews & _).
    rewrite Ews in Hw.
    apply insert_lookup_inv in Hw as [[-> ->]|[_ Hw]]; [|by eauto].
    destruct (worker_step_ticket _ _ _ _ _ _ Hs Ht); eauto.
  - destruct (workers s !! w0) as [pc|] eqn:Hw0; simpl in Hstep; [|done].
    destruct pc; try done. destruct (may_result _ _); simplify_eq.
    simpl in Hw. apply insert_lookup_inv in Hw as [[-> ->]|[_ Hw]]; [|by eauto].
    left. eexists. split; [done|]. done.
  - destruct (cleanups s !! c) as [pc|] eqn:Hc; simpl in Hstep; [|done].
    destruct pc; simplify_eq/=; eauto.
Qed.

(** A job dictionary changes only by the hand of the worker that holds it. *)
Lemma heap_step (a : label) (s s' : state) (l : loc) (j : Job) :
  step a s = Some s' → heap s !! l = Some j →
  heap s' !! l = Some j ∨
  ∃ w pc, a = WStep w ∧ workers s !! w = Some pc ∧ wloc pc = Some l.
Proof.
  intros Hstep Hj. destruct a as [req uuid|h0|t0|t0|w0|w0 r|c]; simpl in Hstep.
  - destruct (decide (uuid ∈ issued s)); simplify_eq. by left.
  - destruct (handlers s !! h0) as [pc|] eqn:Hh0; simpl in Hstep; [|done].
    destruct (handler_step pc s) as [[pc1 s1]|] eqn:Hs; simplify_eq/=. left.
    destruct (handler_step_shape _ _ _ _ Hs)
      as (_ & _ & _ & _ & [[-> _]|(req & t & j0 & _ & -> & _)]); [done|].
    by apply lookup_app_l_Some.
  - simplify_eq. by left.
  - simplify_eq. left. unfold encode_result.
    repeat match goal with
           | |- context [match ?x with _ => _ end] => destruct x
           end; done.
  - destruct (workers s !! w0) as [pc|] eqn:Hw0; simpl in Hstep; [|done].
    destruct (worker_step (worker_name w0) pc s) as [[pc1 s1]|] eqn:Hs;
      simplify_eq/=.
    destruct (worker_step_shape _ _ _ _ _ Hs)
      as (_ & _ & _ & _ & _ & _ & [->|(l0 & g & Hl0 & -> & _)]); [by left|].
    destruct (decide (l0 = l)) as [->|Hne]; [right; eauto|].
    left. by rewrite list_lookup_alter_ne.
  - destruct (workers s !! w0) as [pc|] eqn:Hw0; simpl in Hstep; [|done].
    destruct pc; try done. destruct (may_result _ _); simplify_eq. by left.
  - destruct (cleanups s !! c) as [pc|] eqn:Hc; simpl in Hstep; [|done].
    destruct pc; simplify_eq/=; by left.
Qed.

(** ** A rejected request leaves no job *)

Lemma jobs_step_new (a : label) (s s' : state) (t : string) (l : loc) :
  step a s = Some s' → JOBS s !! t = None → JOBS s' !! t = Some l →
  ∃ h req, handlers s !! h = Some (HInsert req t).
Proof.
  intros Hstep Hno HJ. destruct a as [req uuid|h0|t0|t0|w0|w0 r|c]; simpl in Hstep.
  - destruct (decide (uuid ∈ issued s)); simplify_eq/=; congruence.
  - destruct (handlers s !! h0) as [pc|] eqn:Hh0; simpl in Hstep; [|done].
    destruct (handler_step pc s) as [[pc1 s1]|] eqn:Hs; simplify_eq/=.
    destruct (handler_step_shape _ _ _ _ Hs)
      as (_ & _ & _ & _ & [[_ E]|(req & t1 & j0 & -> & _ & E & _)]);
      rewrite E in HJ; [congruence|].
    destruct (decide (t1 = t)) as [->|Hne]; [eauto|].
    rewrite lookup_insert_ne in HJ by done. congruence.
  - simplify_eq; congruence.
  - simplify_eq. exfalso. revert HJ. unfold encode_result.
    repeat match goal with
           | |- context [match ?x with _ => _ end] => destruct x
           end; simpl; congruence.
  - destruct (workers s !! w0) as [pc|] eqn:Hw0; simpl in Hstep; [|done].
    destruct (worker_step (worker_name w0) pc s) as [[pc1 s1]|] eqn:Hs;
      simplify_eq/=.
    destruct (worker_step_shape _ _ _ _ _ Hs) as (E & _). rewrite E in HJ.
    try congruence.
  - destruct (workers s !! w0) as [pc|] eqn:Hw0; simpl in Hstep; [|done].
    destruct pc; try done. destruct (may_result _ _); simplify_eq/=; congruence.
  - destruct (cleanups s !! c) as [pc|] eqn:Hc; simpl in Hstep; [|done].
    destruct pc as [t1 fo|t1 fo|]; simplify_eq/=; try congruence.
    apply lookup_delete_Some in HJ as [_ HJ]. congruence.
Qed.

Lemma issued_step (a : label) (s s' : state) : step a s = Some s' → issued s ⊆ issued s'.
Proof.
  intros Hstep. destruct a as [req uuid|h0|t0|t0|w0|w0 r|c]; simpl in Hstep.
  - destruct (decide (uuid ∈ issued s)); simplify_eq/=. set_solver.
  - destruct (handlers s !! h0) as [pc|] eqn:Hh0; simpl in Hstep; [|done].
    destruct (handler_step pc s) as [[pc1 s1]|] eqn:Hs; simplify_eq/=.
    by destruct (handler_step_shape _ _ _ _ Hs) as (_ & _ & -> & _).
  - by simplify_eq.
  - simplify_eq. unfold encode_result.
    repeat match goal with
           | |- context [match ?x with _ => _ end] => destruct x
           end; done.
  - destruct (workers s !! w0) as [pc|] eqn:Hw0; simpl in Hstep; [|done].
    destruct (worker_step (worker_name w0) pc s) as [[pc1 s1]|] eqn:Hs;
      simplify_eq/=.
    by destruct (worker_step_shape _ _ _ _ _ Hs) as (_ & _ & -> & _).
  - destruct (workers s !! w0) as [pc|] eqn:Hw0; simpl in Hstep; [|done].
    destruct pc; try done. destruct (may_result _ _); by simplify_eq/=.
  - destruct (cleanups s !! c) as [pc|] eqn:Hc; simpl in Hstep; [|done].
    destruct pc; by simplify_eq/=.
Qed.

Lemma hpre_step (a : label) (s s' : state) (h : nat) (pc' : hpc) (t : string) :
  step a s = Some s' → handlers s' !! h = Some pc' → hpre pc' = Some t →
  (∃ pc, handlers s !! h = Some pc ∧ hpre pc = Some t) ∨ t ∉ issued s.
Proof.
  intros Hstep Hh Ht. destruct a as [req uuid|h0|t0|t0|w|w r|c]; simpl in Hstep.
  - destruct (decide (uuid ∈ issued s)); simplify_eq. simpl in Hh.
    apply snoc_lookup_inv in Hh as [[_ ->]|Hh]; [|by eauto].
    right. by simplify_eq/=.
  - destruct (handlers s !! h0) as [pc|] eqn:Hh0; simpl in Hstep; [|done].
    destruct (handler_step pc s) as [[pc1 s1]|] eqn:Hs; simplify_eq/=.
    destruct (handler_step_shape _ _ _ _ Hs) as (_ & _ & _ & Ehs & _).
    rewrite Ehs in Hh.
    apply insert_lookup_inv in Hh as [[-> ->]|[_ Hh]]; [|by eauto].
    left. exists pc. split; [done|].
    destruct pc; cbv beta iota zeta delta [handler_step] in Hs;
      repeat match type of Hs with
             | context [match ?x with _ => _ end] => destruct x
             end; by simplify_eq.
  - simplify_eq. eauto.
  - simplify_eq. left. exists pc'. split; [|done]. revert Hh.
    unfold encode_result.
    repeat match goal with
           | |- context [match ?x with _ => _ end] => destruct x
           end; done.
  - destruct (workers s !! w) as [pc|] eqn:Hw; simpl in Hstep; [|done].
    destruct (worker_step (worker_name w) pc s) as [[pc1 s1]|] eqn:Hs;
      simplify_eq/=.
    destruct (worker_step_shape _ _ _ _ _ Hs) as (_ & _ & _ & Ehs & _).
    rewrite Ehs in Hh. eauto.
  - destruct (workers s !! w) as [pc|]; simpl in Hstep; [|done].
    destruct pc; try done. destruct (may_result _ _); simplify_eq. eauto.
  - destruct (cleanups s !! c) as [pc|] eqn:Hc; simpl in Hstep; [|done].
    destruct pc; simplify_eq/=; eauto.
Qed.

Lemma retired_step (a : label) (s s' : state) (t : string) :
  retired (issued s) (JOBS s) (handlers s) t → step a s = Some s' →
  retired (issued s') (JOBS s') (handlers s') t.
Proof.
  intros (HI & HJ & Hhs) Hstep. split_and!.
  - by eapply issued_step.
  - destruct (JOBS s' !! t) as [l|] eqn:E; [|done].
    destruct (jobs_step_new _ _ _ _ _ Hstep HJ E) as (h & req & Hh).
    by destruct (Hhs _ _ Hh).
  - intros h pc' Hh Hp.
    destruct (hpre_step _ _ _ _ _ _ Hstep Hh Hp) as [(pc & Hpc & Hp')|?]; [|done].
    by eapply Hhs.
Qed.

Lemma retired_run (labels : list label) (s s' : state) (t : string) :
  retired (issued s) (JOBS s) (handlers s) t → run labels s = Some s' →
  retired (issued s') (JOBS s') (handlers s') t.
Proof.
  revert s. induction labels as [|a rest IH]; intros s Hc Hrun; simpl in Hrun.
  - by simplify_eq.
  - destruct (step a s) as [s1|] eqn:Hstep; simpl in Hrun; [|done].
    eapply IH; [|done]. by eapply retired_step.
Qed.

(** X16: in a reachable state, when a statement of [encode_start] returns
    with a status code other than 200, it has changed neither the job
    table nor a job dictionary nor the queue, and the ticket of the request
    stays unknown for ever: whatever the threads do afterwards, the job
    table has no record for it, it is not in the queue, and the status
    route answers [NotFound]. *)
Theorem rejected_submission_leaves_no_job (s s1 s2 : state) (h : nat) (pc : hpc)
    (t : string) (code : nat) (body : list (string * json))
    (labels : list label) :
  reachable s → handlers s !! h = Some pc → step (HStep h) s = Some s1 →
  handlers s1 !! h = Some (HReturn t (jsonify code body)) → code ≠ 200 →
  run labels s1 = Some s2 →
  JOBS s1 = JOBS s ∧ heap s1 = heap s ∧ JOB_QUEUE s1 = JOB_QUEUE s ∧
  JOBS s2 !! t = None ∧ (t ∉ JOB_QUEUE s2) ∧ encode_status t s2 = NotFound.
Proof.
  intros Hr Hh Hstep Hret Hcode Hrun.
  pose proof (reachable_inv _ Hr) as Hinv.
  assert (Hr1 : reachable s1) by by eapply reachable_step.
  assert (Hr2 : reachable s2) by by eapply reachable_run.
  assert (Hlt : (h < length (handlers s))%nat) by by eapply lookup_lt_Some.
  pose proof (inv_handlers _ Hinv _ _ Hh) as Hg.
  assert (Hs1 : s1 = set_handlers <[h := HReturn t (jsonify code body)]> s ∧
            unused (issued s) (JOBS s) t ∧ hticket pc = Some t).
  { simpl in Hstep. rewrite Hh in Hstep. simpl in Hstep.
    destruct (handler_step pc s) as [[pc' s0]|] eqn:Hs; simplify_eq/=.
    destruct (handler_step_shape _ _ _ _ Hs) as (_ & _ & _ & Ehs & _).
    rewrite Ehs, list_lookup_insert_eq in Hret by done. simplify_eq.
    destruct pc as [req t1|req t1|req t1|req t1|req t1|req t1|t1 r];
      cbv beta iota zeta delta [handler_step] in Hs;
      repeat match type of Hs with
             | context [match ?x with _ => _ end] => destruct x eqn:?
             end; simplify_eq; simpl in Hg; try done;
      split_and!; try done; by destruct Hg as [[? ?] _]. }
  destruct Hs1 as (-> & [HI HJ] & Ht). simpl.
  assert (Hret1 : retired (issued s) (JOBS s)
                    (<[h := HReturn t (jsonify code body)]> (handlers s)) t).
  { split_and!; try done.
    intros h' pc' [[-> ->]|[Hne Hh']]%insert_lookup_inv; [done|].
    intros Hp%hpre_hticket. apply Hne. by eapply (inv_hexcl _ Hinv). }
  destruct (retired_run labels (set_handlers _ s) s2 t Hret1 Hrun) as (_ & HJ2 & _).
  split_and!; try done.
  - intros Hin. destruct (inv_queue _ (reachable_inv _ Hr2) _ Hin)
      as (l & j & HJ' & _). congruence.
  - unfold encode_status. by rewrite (JOBS_get_None _ _ HJ2).
Qed.

(** ** The job of a worker that has died *)

Lemma ended_step (a : label) (s s' : state) (w : nat) (e : exn) :
  step a s = Some s' → workers s !! w = Some (WDead e) →
  workers s' !! w = Some (WDead e).
Proof.
  intros Hstep Hw. destruct a as [req uuid|h0|t0|t0|w0|w0 r|c]; simpl in Hstep.
  - destruct (decide (uuid ∈ issued s)); by simplify_eq.
  - destruct (handlers s !! h0) as [pc|] eqn:Hh0; simpl in Hstep; [|done].
    destruct (handler_step pc s) as [[pc1 s1]|] eqn:Hs; simplify_eq/=.
    by destruct (handler_step_shape _ _ _ _ Hs) as (-> & _).
  - by simplify_eq.
  - simplify_eq. unfold encode_result.
    repeat match goal with
           | |- context [match ?x with _ => _ end] => destruct x
           end; done.
  - destruct (workers s !! w0) as [pc|] eqn:Hw0; simpl in Hstep; [|done].
    destruct (worker_step (worker_name w0) pc s) as [[pc1 s1]|] eqn:Hs;
      simplify_eq/=.
    destruct (worker_step_shape _ _ _ _ _ Hs) as (_ & _ & _ & _ & _ & -> & _).
    destruct (decide (w0 = w)) as [->|Hne]; [by simplify_eq|].
    by rewrite list_lookup_insert_ne.
  - destruct (workers s !! w0) as [pc|] eqn:Hw0; simpl in Hstep; [|done].
    destruct pc; try done. destruct (may_result _ _); simplify_eq. simpl.
    destruct (decide (w0 = w)) as [->|Hne]; [by simplify_eq|].
    by rewrite list_lookup_insert_ne.
  - destruct (cleanups s !! c) as [pc|] eqn:Hc; simpl in Hstep; [|done].
    by destruct pc; simplify_eq/=.
Qed.

Lemma orphan_step (a : label) (s s' : state) (t : string) (l : loc) :
  inv s → orphan s t l → step a s = Some s' → orphan s' t l.
Proof.
  intros Hinv (HJ & (j & Hj & Hst) & Hws & Hq & Hhs) Hstep.
  assert (HI : t ∈ issued s) by (by destruct (inv_jobs _ Hinv _ _ HJ)).
  unfold orphan. split_and!.
  - destruct (jobs_step _ _ _ _ _ Hinv Hstep HJ) as [?|(c & fo & -> & Hc)]; [done|].
    destruct (inv_cleanups _ Hinv _ _ Hc) as (_ & _ & Hfin & _).
    destruct (Hfin _ _ HJ Hj) as [? _]. congruence.
  - exists j. split; [|done].
    destruct (heap_step _ _ _ _ _ Hstep Hj) as [?|(w & pc & -> & Hw & Hl)]; [done|].
    exfalso. destruct (wloc_wticket _ _ Hl) as [t0 Ht0].
    destruct (wgood_held _ _ _ _ _ _ (inv_workers _ Hinv _ _ Hw) Ht0 Hl)
      as (_ & HJ0 & _).
    pose proof (jobs_inj _ _ _ _ _ _ (inv_jobs _ Hinv) HJ HJ0) as <-.
    by eapply Hws.
  - intros w pc' Hw Ht.
    destruct (workers_step_ticket _ _ _ _ _ _ Hstep Hw Ht)
      as [(pc & Hpc & Ht0)|Hin]; [by eapply Hws|done].
  - intros Hin.
    destruct (queue_step _ _ _ _ Hstep Hin) as [?|(h & req & -> & Hh)]; [done|].
    by eapply Hhs.
  - intros h pc' Hh Ht.
    destruct (handlers_step _ _ _ _ _ _ Hstep Hh Ht)
      as [(pc & Hpc & Ht0)|Hni]; [by eapply Hhs|done].
Qed.

(** X17: in a reachable state, when the worker that stands at line 49 finds
    an options document that is not an object, its thread ends with
    [AttributeError], and from then on, whatever the other threads do, the
    job keeps its record at [processing] without an error text, no worker
    holds its ticket, the ticket is not in the queue, and the result route
    answers [NotReady]: the job is never finished. *)
Theorem job_of_ended_worker_stays_processing (s s1 s2 : state) (w : nat)
    (t : string) (l : loc) (folder : path) (doc : json) (labels : list label) :
  reachable s → workers s !! w = Some (WLoadOptions t l folder) →
  fs s !! (folder // "options.json") = Some (File (WellFormed doc)) →
  is_dict doc = false →
  step (WStep w) s = Some s1 → run labels s1 = Some s2 →
  workers s2 !! w = Some (WDead (AttributeError "get")) ∧
  JOBS s2 !! t = Some l ∧
  (∃ j, heap s2 !! l = Some j ∧ status j = processing ∧ error j = None) ∧
  (∀ w' pc, workers s2 !! w' = Some pc → wticket pc ≠ Some t) ∧
  (t ∉ JOB_QUEUE s2) ∧
  encode_result t s2 = (NotReady, s2).
Proof.
  intros Hr Hw Hdoc Hnd Hstep Hrun.
  pose proof (reachable_inv _ Hr) as Hinv.
  assert (Hr1 : reachable s1) by by eapply reachable_step.
  assert (Hlt : (w < length (workers s))%nat) by by eapply lookup_lt_Some.
  assert (Hs1 : s1 = set_workers <[w := WDead (AttributeError "get")]> s).
  { rewrite (wstep_at s s w _ (WDead (AttributeError "get")) Hw) in Hstep;
      [by simplify_eq|].
    simpl. unfold read_file. rewrite Hdoc. by destruct doc. }
  destruct (wgood_held _ _ _ _ _ _ (inv_workers _ Hinv _ _ Hw) eq_refl eq_refl)
    as (Hq & HJ & j & Hj & Hst & _). simpl in Hst.
  assert (Ho1 : orphan s1 t l).
  { subst s1. unfold orphan. simpl. split_and!; try done; [by eauto| |].
    - intros w' pc [[-> ->]|[Hne Hw']]%insert_lookup_inv; [done|].
      intros Ht. apply Hne. by eapply (inv_wexcl _ Hinv).
    - intros h pc Hh Ht.
      destruct (hticket_cases _ _ Ht) as [Hp|[req ->]].
      + destruct (hgood_pre _ _ _ _ _ _ _ (inv_handlers _ Hinv _ _ Hh) Hp) as [_ ?].
        congruence.
      + by eapply (inv_hw _ Hinv); [exact Hh|exact Hw|]. }
  assert (Hw1 : workers s1 !! w = Some (WDead (AttributeError "get"))).
  { subst s1. simpl. by apply list_lookup_insert_eq. }
  clear Hstep Hs1 Hw Hdoc Hj Hst HJ Hq Hinv Hr Hlt.
  assert (Hend : reachable s2 ∧ orphan s2 t l ∧
            workers s2 !! w = Some (WDead (AttributeError "get"))).
  { revert s1 Hr1 Ho1 Hw1 Hrun.
    induction labels as [|a rest IH]; intros s1 Hr1 Ho1 Hw1 Hrun; simpl in Hrun.
    - by simplify_eq.
    - destruct (step a s1) as [s3|] eqn:Hstep; simpl in Hrun; [|done].
      eapply (IH s3); [by eapply reachable_step| | |done].
      + eapply orphan_step; [by apply reachable_inv|done..].
      + by eapply ended_step. }
  destruct Hend as (Hr2 & (HJ & (j' & Hj' & Hst') & Hws & Hq & _) & Hw2).
  destruct (linked_records _ (reachable_linked _ Hr2) _ _ Hj') as (Re & _).
  assert (Herr : error j' = None).
  { destruct (error j') eqn:E; [|done].
    assert (status j' = failed) by (apply Re; eauto). congruence. }
  split_and!; try done; [by eauto|].
  unfold encode_result. rewrite (proj2 (JOBS_get_Some t s2 l j')) by done.
  by rewrite Hst'.
Qed.

(** ** A finished job is kept until it is collected *)

Lemma cleanups_step_ticket (a : label) (s s' : state) (c : nat) (pc' : cpc)
    (t : string) :
  step a s = Some s' → cleanups s' !! c = Some pc' → cticket pc' = Some t →
  (∃ pc, cleanups s !! c = Some pc ∧ cticket pc = Some t) ∨ a = ReqResult t.
Proof.
  intros Hstep Hc Ht. destruct a as [req uuid|h0|t0|t0|w0|w0 r|c0]; simpl in Hstep.
  - destruct (decide (uuid ∈ issued s)); simplify_eq. eauto.
  - destruct (handlers s !! h0) as [pc|] eqn:Hh0; simpl in Hstep; [|done].
    destruct (handler_step pc s) as [[pc1 s1]|] eqn:Hs; simplify_eq/=.
    destruct (handler_step_shape _ _ _ _ Hs) as (_ & E & _).
    rewrite E in Hc. eauto.
  - simplify_eq. eauto.
  - simplify_eq. revert Hc. unfold encode_result.
    repeat match goal with
           | |- context [match ?x with _ => _ end] => destruct x
           end; simpl; eauto.
    intros [[_ ->]|?]%snoc_lookup_inv; [|by eauto].
    right. by simplify_eq/=.
  - destruct (workers s !! w0) as [pc|] eqn:Hw0; simpl in Hstep; [|done].
    destruct (worker_step (worker_name w0) pc s) as [[pc1 s1]|] eqn:Hs;
      simplify_eq/=.
    destruct (worker_step_shape _ _ _ _ _ Hs) as (_ & _ & _ & _ & E & _).
    rewrite E in Hc. eauto.
  - destruct (workers s !! w0) as [pc|] eqn:Hw0; simpl in Hstep; [|done].
    destruct pc; try done. destruct (may_result _ _); simplify_eq. eauto.
  - destruct (cleanups s !! c0) as [pc|] eqn:Hc0; simpl in Hstep; [|done].
    destruct pc as [t1 fo|t1 fo|]; simplify_eq/=;
      (apply insert_lookup_inv in Hc as [[-> ->]|[_ Hc]]; [|by eauto]);
      simplify_eq/=; eauto.
Qed.

(** A file of a workspace changes only by the hand of the request or of a
    clean-up thread of its ticket. *)
Lemma fs_step (a : label) (s s' : state) (t : string) (q : path) :
  inv s → step a s = Some s' → under t q →
  fs s' !! q = fs s !! q ∨
  (∃ h pc, handlers s !! h = Some pc ∧ hticket pc = Some t) ∨
  (∃ c pc, cleanups s !! c = Some pc ∧ cticket pc = Some t).
Proof.
  intros Hinv Hstep Hq. destruct a as [req uuid|h0|t0|t0|w0|w0 r|c0]; simpl in Hstep.
  - destruct (decide (uuid ∈ issued s)); simplify_eq. by left.
  - destruct (handlers s !! h0) as [pc|] eqn:Hh0; simpl in Hstep; [|done].
    destruct (handler_step pc s) as [[pc1 s1]|] eqn:Hs; simplify_eq/=.
    destruct (hticket pc) as [t0|] eqn:Hpc; [|by destruct pc].
    destruct (handler_step_fs _ _ _ _ _ Hs Hpc q) as [E|[Hu|(Hsuf & _)]].
    + by left.
    + right; left. rewrite (under_inj _ _ _ Hq Hu). eauto.
    + exfalso. unfold under, child in Hq.
      apply suffix_length in Hq, Hsuf. simpl in Hq, Hsuf. lia.
  - simplify_eq. by left.
  - simplify_eq. left. unfold encode_result.
    repeat match goal with
           | |- context [match ?x with _ => _ end] => destruct x
           end; done.
  - destruct (workers s !! w0) as [pc|] eqn:Hw0; simpl in Hstep; [|done].
    destruct (worker_step (worker_name w0) pc s) as [[pc1 s1]|] eqn:Hs;
      simplify_eq/=.
    destruct (worker_step_shape _ _ _ _ _ Hs) as (_ & -> & _). by left.
  - destruct (workers s !! w0) as [pc|] eqn:Hw0; simpl in Hstep; [|done].
    destruct pc; try done. destruct (may_result _ _); simplify_eq. by left.
  - destruct (cleanups s !! c0) as [pc|] eqn:Hc0; simpl in Hstep; [|done].
    pose proof (inv_cleanups _ Hinv _ _ Hc0) as Hg.
    destruct pc as [t1 fo|t1 fo|]; simplify_eq/=; [|by left].
    destruct Hg as (-> & _).
    destruct (decide (t1 = t)) as [->|Hne]; [right; right; eauto|].
    left. apply rmtree_lookup_other. intros Hu. apply Hne.
    by eapply under_inj.
Qed.

Lemma cleans_spec (t : string) (cs : list cpc) :
  forallb (λ pc, negb (cleans t pc)) cs = true →
  ∀ c pc, cs !! c = Some pc → cticket pc ≠ Some t.
Proof.
  intros Hall c pc Hc Ht.
  apply forallb_forall with (x := pc) in Hall; [|by eapply list_elem_of_In, list_elem_of_lookup_2].
  unfold cleans in Hall. rewrite Ht in Hall. by rewrite String.eqb_refl in Hall.
Qed.
Lemma kept_step (a : label) (s s' : state) (t : string) (l : loc) (j : Job) :
  inv s → JOBS s !! t = Some l → heap s !! l = Some j →
  status j = done → is_Some (output_file j) →
  (∀ c pc, cleanups s !! c = Some pc → cticket pc ≠ Some t) →
  asks_result t a = false → step a s = Some s' →
  JOBS s' !! t = Some l ∧ heap s' !! l = Some j ∧
  (∀ c pc, cleanups s' !! c = Some pc → cticket pc ≠ Some t) ∧
  (∀ q, under t q → fs s' !! q = fs s !! q).
Proof.
  intros Hinv HJ Hj Hst Hout Hcs Hask Hstep.
  assert (Hfin : finished (JOBS s) (heap s) t).
  { intros l' j' HJ' Hj'. by simplify_eq. }
  split_and!.
  - destruct (jobs_step _ _ _ _ _ Hinv Hstep HJ) as [?|(c & fo & -> & Hc)]; [done|].
    by destruct (Hcs _ _ Hc).
  - destruct (heap_step _ _ _ _ _ Hstep Hj) as [?|(w & pc & -> & Hw & Hl)]; [done|].
    exfalso. destruct (wloc_wticket _ _ Hl) as [t0 Ht0].
    pose proof (inv_workers _ Hinv _ _ Hw) as Hg.
    destruct (wgood_held _ _ _ _ _ _ Hg Ht0 Hl) as (_ & HJ0 & _).
    pose proof (jobs_inj _ _ _ _ _ _ (inv_jobs _ Hinv) HJ HJ0) as <-.
    by eapply wgood_finished.
  - intros c pc' Hc Ht.
    destruct (cleanups_step_ticket _ _ _ _ _ _ Hstep Hc Ht)
      as [(pc & Hpc & Ht0)| ->]; [by eapply Hcs|].
    simpl in Hask. by rewrite String.eqb_refl in Hask.
  - intros q Hq.
    destruct (fs_step _ _ _ _ _ Hinv Hstep Hq)
      as [?|[(h & pc & Hh & Ht)|(c & pc & Hc & Ht)]]; [done| |by destruct (Hcs _ _ Hc)].
    exfalso. pose proof (inv_handlers _ Hinv _ _ Hh) as Hg.
    destruct (hticket_cases _ _ Ht) as [Hp|[req ->]].
    + destruct (hgood_pre _ _ _ _ _ _ _ Hg Hp) as [_ ?]. congruence.
    + destruct (hgood_put _ _ _ _ _ _ _ Hg) as [_ Hwait].
      by eapply waiting_finished.
Qed.

(** X18: a job that is at [done] with its output file in a reachable state,
    and for which no clean-up thread exists yet, is kept as long as no
    result request for its ticket arrives: whatever else the threads do,
    the job table keeps the record, the job dictionary stays as it is, no
    file of its workspace changes, and the result route is ready to send
    the output file. *)
Theorem done_job_kept_until_collected (s s' : state) (t : string) (l : loc)
    (j : Job) (p : path) (labels : list label) :
  reachable s → JOBS s !! t = Some l → heap s !! l = Some j →
  status j = done → output_file j = Some p →
  forallb (λ pc, negb (cleans t pc)) (cleanups s) = true →
  forallb (λ a, negb (asks_result t a)) labels = true →
  run labels s = Some s' →
  JOBS s' !! t = Some l ∧ heap s' !! l = Some j ∧
  (∀ q, under t q → fs s' !! q = fs s !! q) ∧
  (encode_result t s').1 = send_file p (t +:+ ".mp4").
Proof.
  intros Hr HJ Hj Hst Hout Hcs0 Hlab Hrun.
  pose proof (cleans_spec _ _ Hcs0) as Hcs. clear Hcs0.
  assert (Hkeep : JOBS s' !! t = Some l ∧ heap s' !! l = Some j ∧
            ∀ q, under t q → fs s' !! q = fs s !! q).
  { revert s Hr HJ Hj Hcs Hrun.
    induction labels as [|a rest IH]; intros s Hr HJ Hj Hcs Hrun; simpl in Hrun.
    - by simplify_eq.
    - destruct (step a s) as [s1|] eqn:Hstep; simpl in Hrun; [|done].
      simpl in Hlab. apply andb_prop in Hlab as [Ha Hrest].
      apply negb_true_iff in Ha.
      destruct (kept_step _ _ _ _ _ _ (reachable_inv _ Hr) HJ Hj Hst
                  (ltac:(by rewrite Hout)) Hcs Ha Hstep)
        as (HJ1 & Hj1 & Hcs1 & Hfs1).
      destruct (IH Hrest s1) as (? & ? & Hfs); [by eapply reachable_step|done..|].
      split_and!; try done. intros q Hq. by rewrite (Hfs _ Hq), (Hfs1 _ Hq). }
  destruct Hkeep as (HJ' & Hj' & Hfs'). split_and!; try done.
  unfold encode_result. rewrite (proj2 (JOBS_get_Some t s' l j)) by done.
  by rewrite Hst, Hout.
Qed.

(** X19: in every reachable state, every entry of the job table refers to a
    job dictionary that exists, and no two tickets refer to the same
    dictionary: what a thread writes into the dictionary of one ticket is
    never seen under another ticket. *)
Theorem tickets_do_not_share_records (s : state) (t : string) (l : loc) :
  reachable s → JOBS s !! t = Some l →
  is_Some (heap s !! l) ∧ ∀ t', JOBS s !! t' = Some l → t' = t.
Proof.
  intros Hr HJ. pose proof (inv_jobs _ (reachable_inv _ Hr)) as Hjobs.
  split.
  - destruct (Hjobs _ _ HJ) as (_ & j & Hj & _). eauto.
  - intros t' HJ'. by eapply jobs_inj.
Qed.

End Properties.

Section Witnesses.
#[local] Existing Instance posix.

(** * The examples, run *)

Lemma default_Some {A} (o : option A) (d : A) :
  bool_decide (is_Some o) = true → o = Some (default d o).
Proof. intros [x ->]%bool_decide_eq_true. reflexivity. Qed.

Lemma pair_snd {A B} (x : A * B) (a : A) : x.1 = a → x = (a, x.2).
Proof. intros <-. by destruct x. Qed.

Lemma after_run (labels : list label) :
  bool_decide (is_Some (run labels (init 1 disk))) = true →
  run labels (init 1 disk) = Some (after labels).
Proof. apply default_Some. Qed.

Lemma after_reachable (labels : list label) :
  bool_decide (is_Some (run labels (init 1 disk))) = true →
  reachable (after labels).
Proof.
  intros Hs. eapply reachable_run; [apply reachable_init|by apply after_run].
Qed.

(** C1, where the code departs from it: a job is submitted with the options
    text of an empty array; the submission is accepted, the worker marks the
    job [processing], loads the options and ends with [AttributeError] at
    [options.get] (line 53), outside the [try] of line 90.  The job stays at
    [processing] without an error text, the worker takes no ticket any more,
    and whatever is queued later stays in the queue. *)
Theorem C1_worker_dies_on_array_options :
  let s := after array_job in
  run array_job (init 1 disk) = Some s ∧
  handlers s = [HReturn "t1" (jsonify 200 [("ticket_id", JStr "t1");
                                            ("status", JStr "queued")])] ∧
  workers s = [WDead (AttributeError "get")] ∧
  (∃ j, JOBS s !! "t1" = Some 0 ∧ heap s !! 0 = Some j ∧
        status j = processing ∧ error j = None) ∧
  ∀ labels s1, run labels s = Some s1 →
    workers s1 = [WDead (AttributeError "get")] ∧
    (∃ j, heap s1 !! 0 = Some j ∧ status j = processing ∧ error j = None) ∧
    ∀ labels' s2, run labels' s1 = Some s2 →
      JOB_QUEUE s1 `prefix_of` JOB_QUEUE s2.
Proof.
  assert (Hw : workers (after array_job) = [WDead (AttributeError "get")])
    by (vm_compute; reflexivity).
  assert (Hdead : ∀ s, workers s = [WDead (AttributeError "get")] →
            ∀ w pc, workers s !! w = Some pc → ∃ e, pc = WDead e).
  { intros s -> [|w] pc Hpc; simplify_eq/=. eauto. }
  cbv zeta. split; [|split; [|split; [|split]]].
  - apply after_run. vm_compute. reflexivity.
  - vm_compute. reflexivity.
  - exact Hw.
  - eexists. split; [|split; [|split]]; vm_compute; reflexivity.
  - intros labels s1 Hrun.
    destruct (dead_run _ _ _ (Hdead _ Hw) Hrun) as (Hw1 & Hh1 & _).
    rewrite Hw in Hw1. split; [exact Hw1|]. split.
    + eexists. split; [apply Hh1; vm_compute; reflexivity|].
      split; vm_compute; reflexivity.
    + intros labels' s2 Hrun2.
      destruct (dead_run _ _ _ (Hdead _ Hw1) Hrun2) as (_ & _ & Hq).
      exact Hq.
Qed.

(** C2, where the code departs from it: a request without an input file is
    answered with status 400, no job enters the job table and no ticket the
    queue, but the workspace directory of the fresh ticket has been created
    (line 116 runs before the check of line 120) and stays. *)
Theorem C2_missing_input_leaves_workspace :
  let s := after no_input in
  run no_input (init 1 disk) = Some s ∧
  handlers s = [HReturn "t1" (jsonify 400 [("error", JStr "Missing input_file")])] ∧
  JOBS s = JOBS (init 1 disk) ∧
  JOB_QUEUE s = JOB_QUEUE (init 1 disk) ∧
  fs (init 1 disk) !! (TEMP_DIR // "t1") = None ∧
  fs s !! (TEMP_DIR // "t1") = Some Dir.
Proof.
  cbv zeta. split; [|split; [|split; [|split; [|split]]]];
    [apply after_run|..]; vm_compute; reflexivity.
Qed.


(** ** The theorems at the examples *)

(** The job dictionary of the examples, as [encode_start] creates it. *)
Lemma C7_witness :
  JOBS (init 1 disk) !! "t1" = None ∧
  encode_status "t1" (init 1 disk) = NotFound ∧
  encode_result "t1" (init 1 disk) = (NotFound, init 1 disk) ∧
  step (ReqStatus "t1") (init 1 disk) = Some (init 1 disk) ∧
  step (ReqResult "t1") (init 1 disk) = Some (init 1 disk).
Proof.
  split; [reflexivity|]. apply C7_unknown_ticket_not_found. reflexivity.
Defined.

Lemma C6_witness :
  let s := after one_job_queued in
  let j := {| status := queued; folder := TEMP_DIR // "t1"; output_file := None;
              error := None; worker := None |} in
  JOBS s !! "t1" = Some 0 ∧ heap s !! 0 = Some j ∧ status j = queued ∧
  encode_result "t1" s = (NotReady, s).
Proof.
  cbv zeta.
  assert (H1 : JOBS (after one_job_queued) !! "t1" = Some 0)
    by (vm_compute; reflexivity).
  assert (H2 : heap (after one_job_queued) !! 0
               = Some {| status := queued; folder := TEMP_DIR // "t1";
                         output_file := None; error := None; worker := None |})
    by (vm_compute; reflexivity).
  split; [exact H1|]. split; [exact H2|]. split; [reflexivity|].
  destruct (C6_result_only_when_done _ _ _ _ H1 H2) as [Hq _].
  apply Hq. left. reflexivity.
Defined.

Lemma C9_witness :
  let s := after one_job_loading in
  let folder := TEMP_DIR // "t1" in
  fs s !! (folder // "options.json") = Some (File (WellFormed (JObj []))) ∧
  ∃ o cmd,
    worker_step "JobWorker-1" (WLoadOptions "t1" 0 folder) s
      = Some (WBuild "t1" 0 folder o, s) ∧
    worker_step "JobWorker-1" (WBuild "t1" 0 folder o) s
      = Some (WRun "t1" 0 cmd (folder // "output.mp4"), s) ∧
    cmd !! 9 = Some (JStr "medium") ∧ cmd !! 17 = Some (JStr "23") ∧
    cmd !! 25 = Some (JStr "2") ∧ cmd !! 23 = Some (JStr "128k").
Proof.
  cbv zeta.
  assert (H1 : fs (after one_job_loading) !! (TEMP_DIR // "t1" // "options.json")
               = Some (File (WellFormed (JObj []))))
    by (vm_compute; reflexivity).
  split; [exact H1|].
  destruct (C9_option_defaults (after one_job_loading) "JobWorker-1" "t1" 0
              (TEMP_DIR // "t1") [] H1)
    as (o & cmd & Hl & Hb & Hp & Hc & Hs & Ha).
  exists o, cmd. split; [exact Hl|]. split; [exact Hb|].
  split; [apply Hp; reflexivity|]. split; [apply Hc; reflexivity|].
  split; [apply Hs; reflexivity|apply Ha; reflexivity].
Defined.


Lemma C3_witness :
  let s := after one_job_claimed in
  let s' := default s (step (WStep 0) s) in
  reachable s ∧ step (WStep 0) s = Some s' ∧
  (∀ l j, heap s !! l = Some j →
     ∃ j', heap s' !! l = Some j' ∧
       (status j' = status j ∨ status_next (status j) (status j')) ∧
       (status j = done ∨ status j = failed → status j' = status j)) ∧
  (∀ l j', heap s !! l = None → heap s' !! l = Some j' → status j' = queued) ∧
  (∀ t l, JOBS s !! t = Some l → JOBS s' !! t = Some l ∨ JOBS s' !! t = None) ∧
  (∀ t l, JOBS s !! t = None → JOBS s' !! t = Some l → heap s !! l = None).
Proof.
  cbv zeta.
  assert (H1 : reachable (after one_job_claimed)).
  { apply after_reachable. vm_compute. reflexivity. }
  assert (H2 : step (WStep 0) (after one_job_claimed)
               = Some (default (after one_job_claimed)
                         (step (WStep 0) (after one_job_claimed)))).
  { apply default_Some. vm_compute. reflexivity. }
  split; [exact H1|]. split; [exact H2|].
  exact (C3_status_chain _ _ _ H1 H2).
Defined.

Lemma C10_witness :
  let s := after one_job_queued in
  reachable s ∧ "t1" ∈ JOB_QUEUE s ∧
  job_at (JOBS s) (heap s) "t1" (λ _ j, status j = queued) ∧
  populated (fs s) "t1".
Proof.
  cbv zeta.
  assert (H1 : reachable (after one_job_queued)).
  { apply after_reachable. vm_compute. reflexivity. }
  assert (H2 : "t1" ∈ JOB_QUEUE (after one_job_queued)).
  { vm_compute. apply list_elem_of_here. }
  split; [exact H1|]. split; [exact H2|].
  destruct (C10_populated_before_enqueue _ H1) as (_ & _ & Hq & _).
  exact (Hq _ H2).
Defined.


(** ** The further properties at the examples *)

Lemma status_names_the_worker_witness :
  let s := after one_job_loading in
  let pc := WLoadOptions "t1" 0 (TEMP_DIR // "t1") in
  reachable s ∧ workers s !! 0 = Some pc ∧
  wticket pc = Some "t1" ∧ wnamed pc = Some 0 ∧
  (∃ j, JOBS s !! "t1" = Some 0 ∧ heap s !! 0 = Some j ∧
        worker j = Some (worker_name 0) ∧ status j = wstatus pc ∧
        encode_status "t1" s
        = jsonify 200 [("ticket_id", JStr "t1");
                       ("status", JStr (status_str (wstatus pc)));
                       ("worker", JStr (worker_name 0));
                       ("error", opt_str (error j))]) ∧
  ∀ w', worker_name w' = worker_name 0 → w' = 0.
Proof.
  cbv zeta.
  assert (H1 : reachable (after one_job_loading)).
  { apply after_reachable. vm_compute. reflexivity. }
  assert (H2 : workers (after one_job_loading) !! 0
               = Some (WLoadOptions "t1" 0 (TEMP_DIR // "t1")))
    by (vm_compute; reflexivity).
  split; [exact H1|]. split; [exact H2|].
  split; [reflexivity|]. split; [reflexivity|].
  exact (status_names_the_worker _ _ _ _ _ H1 H2 eq_refl eq_refl).
Defined.

Lemma job_fields_consistent_witness :
  let s := after one_job_done in
  let j := {| status := done; folder := TEMP_DIR // "t1";
              output_file := Some (TEMP_DIR // "t1" // "output.mp4");
              error := None; worker := Some "JobWorker-1" |} in
  reachable s ∧ JOBS s !! "t1" = Some 0 ∧ heap s !! 0 = Some j ∧
  folder j = TEMP_DIR // "t1" ∧
  (is_Some (error j) → status j = failed) ∧
  (is_Some (output_file j) → status j = done) ∧
  (status j ≠ queued → is_Some (worker j)) ∧
  (∀ p, output_file j = Some p → p = TEMP_DIR // "t1" // "output.mp4").
Proof.
  cbv zeta.
  assert (H1 : reachable (after one_job_done)).
  { apply after_reachable. vm_compute. reflexivity. }
  assert (H2 : JOBS (after one_job_done) !! "t1" = Some 0)
    by (vm_compute; reflexivity).
  assert (H3 : heap (after one_job_done) !! 0
               = Some {| status := done; folder := TEMP_DIR // "t1";
                         output_file := Some (TEMP_DIR // "t1" // "output.mp4");
                         error := None; worker := Some "JobWorker-1" |})
    by (vm_compute; reflexivity).
  split; [exact H1|]. split; [exact H2|]. split; [exact H3|].
  exact (job_fields_consistent _ _ _ _ H1 H2 H3).
Defined.

Lemma result_serves_own_output_witness :
  let s := after one_job_done in
  let s' := (encode_result "t1" s).2 in
  let p := TEMP_DIR // "t1" // "output.mp4" in
  reachable s ∧ encode_result "t1" s = (send_file p "t1.mp4", s') ∧
  p = TEMP_DIR // "t1" // "output.mp4" ∧ "t1.mp4" = "t1" +:+ ".mp4" ∧
  s' = set_cleanups (λ c, c ++ [CRmtree "t1" (TEMP_DIR // "t1")]) s ∧
  ∃ l j, JOBS s !! "t1" = Some l ∧ heap s !! l = Some j ∧
         status j = done ∧ error j = None.
Proof.
  cbv zeta.
  assert (H1 : reachable (after one_job_done)).
  { apply after_reachable. vm_compute. reflexivity. }
  assert (H2 : encode_result "t1" (after one_job_done)
               = (send_file (TEMP_DIR // "t1" // "output.mp4") "t1.mp4",
                  (encode_result "t1" (after one_job_done)).2)).
  { apply pair_snd. vm_compute. reflexivity. }
  split; [exact H1|]. split; [exact H2|].
  exact (result_serves_own_output _ _ _ _ _ H1 H2).
Defined.

Lemma one_worker_per_ticket_witness :
  let s := after one_job_running in
  reachable s ∧
  (∀ w w' pc pc' t, workers s !! w = Some pc → workers s !! w' = Some pc' →
     wticket pc = Some t → wticket pc' = Some t → w = w') ∧
  (∀ w pc t, workers s !! w = Some pc → wticket pc = Some t →
     t ∉ JOB_QUEUE s) ∧
  NoDup (JOB_QUEUE s).
Proof.
  cbv zeta.
  assert (H1 : reachable (after one_job_running)).
  { apply after_reachable. vm_compute. reflexivity. }
  split; [exact H1|]. exact (one_worker_per_ticket _ H1).
Defined.

Lemma submission_writes_own_workspace_witness :
  let s := after [ReqStart req_plain "t1"] in
  let s' := default s (step (HStep 0) s) in
  let pc := HMkdir req_plain "t1" in
  handlers s !! 0 = Some pc ∧ hticket pc = Some "t1" ∧
  step (HStep 0) s = Some s' ∧
  (∀ q, fs s' !! q = fs s !! q ∨ under "t1" q ∨
        (q `suffix_of` TEMP_DIR ∧ fs s !! q = None ∧ fs s' !! q = Some Dir)) ∧
  (∀ t', t' ≠ "t1" → JOBS s' !! t' = JOBS s !! t') ∧
  (∀ l j, heap s !! l = Some j → heap s' !! l = Some j) ∧
  JOB_QUEUE s `prefix_of` JOB_QUEUE s' ∧
  workers s' = workers s ∧ cleanups s' = cleanups s.
Proof.
  cbv zeta.
  assert (H1 : handlers (after [ReqStart req_plain "t1"]) !! 0
               = Some (HMkdir req_plain "t1")) by (vm_compute; reflexivity).
  assert (H2 : step (HStep 0) (after [ReqStart req_plain "t1"])
               = Some (default (after [ReqStart req_plain "t1"])
                         (step (HStep 0) (after [ReqStart req_plain "t1"])))).
  { apply default_Some. vm_compute. reflexivity. }
  split; [exact H1|]. split; [reflexivity|]. split; [exact H2|].
  exact (submission_writes_own_workspace _ _ _ _ _ H1 eq_refl H2).
Defined.

Lemma cleanup_touches_own_ticket_witness :
  let s := after two_jobs_collecting in
  let s' := default s (step (CStep 0) s) in
  let pc := CRmtree "t1" (TEMP_DIR // "t1") in
  reachable s ∧ cleanups s !! 0 = Some pc ∧ cticket pc = Some "t1" ∧
  step (CStep 0) s = Some s' ∧
  (∀ q, ¬ under "t1" q → fs s' !! q = fs s !! q) ∧
  (∀ t', t' ≠ "t1" → JOBS s' !! t' = JOBS s !! t') ∧
  heap s' = heap s ∧ JOB_QUEUE s' = JOB_QUEUE s ∧
  workers s' = workers s ∧ handlers s' = handlers s.
Proof.
  cbv zeta.
  assert (H1 : reachable (after two_jobs_collecting)).
  { apply after_reachable. vm_compute. reflexivity. }
  assert (H2 : cleanups (after two_jobs_collecting) !! 0
               = Some (CRmtree "t1" (TEMP_DIR // "t1")))
    by (vm_compute; reflexivity).
  assert (H3 : step (CStep 0) (after two_jobs_collecting)
               = Some (default (after two_jobs_collecting)
                         (step (CStep 0) (after two_jobs_collecting)))).
  { apply default_Some. vm_compute. reflexivity. }
  split; [exact H1|]. split; [exact H2|]. split; [reflexivity|].
  split; [exact H3|].
  exact (cleanup_touches_own_ticket _ _ _ _ _ H1 H2 eq_refl H3).
Defined.

Lemma failed_job_stays_witness :
  let s := after one_job_failed in
  let labels := [ReqResult "t1"; ReqStart req_plain "t2"; HStep 1] in
  let s' := default s (run labels s) in
  let j := {| status := failed; folder := TEMP_DIR // "t1";
              output_file := None; error := Some "no such codec";
              worker := Some "JobWorker-1" |} in
  reachable s ∧ JOBS s !! "t1" = Some 0 ∧ heap s !! 0 = Some j ∧
  status j = failed ∧ run labels s = Some s' ∧
  JOBS s' !! "t1" = Some 0 ∧
  (∃ j', heap s' !! 0 = Some j' ∧ status j' = failed) ∧
  populated (fs s') "t1" ∧
  encode_result "t1" s' = (NotReady, s').
Proof.
  cbv zeta.
  assert (H1 : reachable (after one_job_failed)).
  { apply after_reachable. vm_compute. reflexivity. }
  assert (H2 : JOBS (after one_job_failed) !! "t1" = Some 0)
    by (vm_compute; reflexivity).
  assert (H3 : heap (after one_job_failed) !! 0
               = Some {| status := failed; folder := TEMP_DIR // "t1";
                         output_file := None; error := Some "no such codec";
                         worker := Some "JobWorker-1" |})
    by (vm_compute; reflexivity).
  assert (H4 : run [ReqResult "t1"; ReqStart req_plain "t2"; HStep 1]
                 (after one_job_failed)
               = Some (default (after one_job_failed)
                         (run [ReqResult "t1"; ReqStart req_plain "t2"; HStep 1]
                            (after one_job_failed)))).
  { apply default_Some. vm_compute. reflexivity. }
  split; [exact H1|]. split; [exact H2|]. split; [exact H3|].
  split; [reflexivity|]. split; [exact H4|].
  exact (failed_job_stays _ _ _ _ _ _ H1 H2 H3 eq_refl H4).
Defined.



Lemma queued_job_processed_witness :
  let s := after one_job_queued in
  reachable s ∧ workers s !! 0 = Some WGet ∧ JOB_QUEUE s = ["t1"] ∧
  fs s !! (TEMP_DIR // "t1" // "options.json")
    = Some (File (WellFormed (JObj []))) ∧
  is_str (preset_of []) = true ∧
  ∃ s' l j,
    run (processing_of 0 (Exited 0 "")) s = Some s' ∧
    workers s' !! 0 = Some WGet ∧ JOB_QUEUE s' = [] ∧
    JOBS s' !! "t1" = Some l ∧ heap s' !! l = Some j ∧
    worker j = Some (worker_name 0) ∧
    status j = done ∧ error j = None ∧
    (encode_result "t1" s').1
    = send_file (TEMP_DIR // "t1" // "output.mp4") ("t1" +:+ ".mp4").
Proof.
  cbv zeta.
  assert (H1 : reachable (after one_job_queued)).
  { apply after_reachable. vm_compute. reflexivity. }
  assert (H2 : workers (after one_job_queued) !! 0 = Some WGet)
    by (vm_compute; reflexivity).
  assert (H3 : JOB_QUEUE (after one_job_queued) = ["t1"])
    by (vm_compute; reflexivity).
  assert (H4 : fs (after one_job_queued) !! (TEMP_DIR // "t1" // "options.json")
               = Some (File (WellFormed (JObj []))))
    by (vm_compute; reflexivity).
  split; [exact H1|]. split; [exact H2|]. split; [exact H3|].
  split; [exact H4|]. split; [reflexivity|].
  exact (queued_job_processed _ 0 "t1" [] [] (Exited 0 "") H1 H2 H3 H4 eq_refl).
Defined.


Lemma options_load_outcome_witness :
  let s := after one_job_loading in
  let folder := TEMP_DIR // "t1" in
  reachable s ∧ workers s !! 0 = Some (WLoadOptions "t1" 0 folder) ∧
  folder = TEMP_DIR // "t1" ∧
  ∃ doc,
    fs s !! (folder // "options.json") = Some (File (WellFormed doc)) ∧
    match doc with
    | JObj items =>
        ∃ o, read_options doc = Ok o ∧
          step (WStep 0) s = Some (set_workers <[0 := WBuild "t1" 0 folder o]> s)
    | _ =>
        step (WStep 0) s
        = Some (set_workers <[0 := WDead (AttributeError "get")]> s)
    end.
Proof.
  cbv zeta.
  assert (H1 : reachable (after one_job_loading)).
  { apply after_reachable. vm_compute. reflexivity. }
  assert (H2 : workers (after one_job_loading) !! 0
               = Some (WLoadOptions "t1" 0 (TEMP_DIR // "t1")))
    by (vm_compute; reflexivity).
  split; [exact H1|]. split; [exact H2|].
  exact (options_load_outcome _ _ _ _ _ H1 H2).
Defined.

Lemma options_enter_the_command_witness :
  let s := after full_job_queued in
  let folder := TEMP_DIR // "t1" in
  let items := [("ffmpeg_preset", JStr "slow"); ("constant_rate_factor", JInt 18);
                ("stereo", JBool false); ("audio_bitrate", JInt 96)] in
  fs s !! (folder // "options.json") = Some (File (WellFormed (JObj items))) ∧
  ∃ o cmd,
    worker_step "JobWorker-1" (WLoadOptions "t1" 0 folder) s
      = Some (WBuild "t1" 0 folder o, s) ∧
    worker_step "JobWorker-1" (WBuild "t1" 0 folder o) s
      = Some (WRun "t1" 0 cmd (folder // "output.mp4"), s) ∧
    length cmd = 27 ∧
    cmd !! 3 = Some (JStr (path_str (folder // "input_file"))) ∧
    cmd !! 9 = Some (JStr "slow") ∧
    cmd !! 17 = Some (JStr (py_str (JInt 18))) ∧
    cmd !! 23 = Some (JStr (py_str (JInt 96) +:+ "k")) ∧
    cmd !! 25 = Some (JStr (if py_bool (JBool false) then "2" else "1")) ∧
    cmd !! 26 = Some (JStr (path_str (folder // "output.mp4"))).
Proof.
  cbv zeta.
  assert (H1 : fs (after full_job_queued) !! (TEMP_DIR // "t1" // "options.json")
               = Some (File (WellFormed (JObj
                   [("ffmpeg_preset", JStr "slow"); ("constant_rate_factor", JInt 18);
                    ("stereo", JBool false); ("audio_bitrate", JInt 96)]))))
    by (vm_compute; reflexivity).
  split; [exact H1|].
  exact (options_enter_the_command _ "JobWorker-1" "t1" 0 _ _ _ _ _ _ H1
           eq_refl eq_refl eq_refl eq_refl).
Defined.


Lemma submission_always_answers_witness :
  let s := after [ReqStart req_plain "t1"] in
  let pc := HMkdir req_plain "t1" in
  handlers s !! 0 = Some pc ∧ hticket pc = Some "t1" ∧
  is_Some (step (HStep 0) s) ∧
  ∃ n s' r, (n ≤ 6)%nat ∧ run (replicate n (HStep 0)) s = Some s' ∧
    handlers s' !! 0 = Some (HReturn "t1" r) ∧ answered r.
Proof.
  cbv zeta.
  assert (H1 : handlers (after [ReqStart req_plain "t1"]) !! 0
               = Some (HMkdir req_plain "t1")) by (vm_compute; reflexivity).
  split; [exact H1|]. split; [reflexivity|].
  exact (submission_always_answers _ _ _ _ H1 eq_refl).
Defined.

Lemma rejected_submission_leaves_no_job_witness :
  let s := after no_input_checking in
  let s1 := default s (step (HStep 0) s) in
  let s2 := default s1 (run [ReqStatus "t1"] s1) in
  let body := [("error", JStr "Missing input_file")] in
  reachable s ∧ handlers s !! 0 = Some (HSaveInput req_no_input "t1") ∧
  step (HStep 0) s = Some s1 ∧
  handlers s1 !! 0 = Some (HReturn "t1" (jsonify 400 body)) ∧ 400 ≠ 200 ∧
  run [ReqStatus "t1"] s1 = Some s2 ∧
  JOBS s1 = JOBS s ∧ heap s1 = heap s ∧ JOB_QUEUE s1 = JOB_QUEUE s ∧
  JOBS s2 !! "t1" = None ∧ ("t1" ∉ JOB_QUEUE s2) ∧
  encode_status "t1" s2 = NotFound.
Proof.
  cbv zeta.
  assert (H1 : reachable (after no_input_checking)).
  { apply after_reachable. vm_compute. reflexivity. }
  assert (H2 : handlers (after no_input_checking) !! 0
               = Some (HSaveInput req_no_input "t1")) by (vm_compute; reflexivity).
  assert (H3 : step (HStep 0) (after no_input_checking)
               = Some (default (after no_input_checking)
                         (step (HStep 0) (after no_input_checking)))).
  { apply default_Some. vm_compute. reflexivity. }
  assert (H4 : handlers (default (after no_input_checking)
                           (step (HStep 0) (after no_input_checking))) !! 0
               = Some (HReturn "t1"
                         (jsonify 400 [("error", JStr "Missing input_file")])))
    by (vm_compute; reflexivity).
  assert (H5 : 400 ≠ 200) by lia.
  assert (H6 : run [ReqStatus "t1"]
                 (default (after no_input_checking)
                    (step (HStep 0) (after no_input_checking)))
               = Some (default
                         (default (after no_input_checking)
                            (step (HStep 0) (after no_input_checking)))
                         (run [ReqStatus "t1"]
                            (default (after no_input_checking)
                               (step (HStep 0) (after no_input_checking)))))).
  { apply default_Some. vm_compute. reflexivity. }
  split; [exact H1|]. split; [exact H2|]. split; [exact H3|].
  split; [exact H4|]. split; [exact H5|]. split; [exact H6|].
  exact (rejected_submission_leaves_no_job _ _ _ _ _ _ _ _ _ H1 H2 H3 H4 H5 H6).
Defined.

Lemma job_of_ended_worker_stays_processing_witness :
  let s := after array_job_loading in
  let s1 := default s (step (WStep 0) s) in
  let s2 := default s1 (run [ReqStatus "t1"] s1) in
  let folder := TEMP_DIR // "t1" in
  reachable s ∧ workers s !! 0 = Some (WLoadOptions "t1" 0 folder) ∧
  fs s !! (folder // "options.json") = Some (File (WellFormed (JArr []))) ∧
  is_dict (JArr []) = false ∧
  step (WStep 0) s = Some s1 ∧ run [ReqStatus "t1"] s1 = Some s2 ∧
  workers s2 !! 0 = Some (WDead (AttributeError "get")) ∧
  JOBS s2 !! "t1" = Some 0 ∧
  (∃ j, heap s2 !! 0 = Some j ∧ status j = processing ∧ error j = None) ∧
  (∀ w' pc, workers s2 !! w' = Some pc → wticket pc ≠ Some "t1") ∧
  ("t1" ∉ JOB_QUEUE s2) ∧
  encode_result "t1" s2 = (NotReady, s2).
Proof.
  cbv zeta.
  assert (H1 : reachable (after array_job_loading)).
  { apply after_reachable. vm_compute. reflexivity. }
  assert (H2 : workers (after array_job_loading) !! 0
               = Some (WLoadOptions "t1" 0 (TEMP_DIR // "t1")))
    by (vm_compute; reflexivity).
  assert (H3 : fs (after array_job_loading) !! (TEMP_DIR // "t1" // "options.json")
               = Some (File (WellFormed (JArr [])))) by (vm_compute; reflexivity).
  assert (H4 : step (WStep 0) (after array_job_loading)
               = Some (default (after array_job_loading)
                         (step (WStep 0) (after array_job_loading)))).
  { apply default_Some. vm_compute. reflexivity. }
  assert (H5 : run [ReqStatus "t1"]
                 (default (after array_job_loading)
                    (step (WStep 0) (after array_job_loading)))
               = Some (default
                         (default (after array_job_loading)
                            (step (WStep 0) (after array_job_loading)))
                         (run [ReqStatus "t1"]
                            (default (after array_job_loading)
                               (step (WStep 0) (after array_job_loading)))))).
  { apply default_Some. vm_compute. reflexivity. }
  split; [exact H1|]. split; [exact H2|]. split; [exact H3|].
  split; [reflexivity|]. split; [exact H4|]. split; [exact H5|].
  exact (job_of_ended_worker_stays_processing _ _ _ _ _ _ _ _ _
           H1 H2 H3 eq_refl H4 H5).
Defined.
Lemma done_job_kept_until_collected_witness :
  let s := after one_job_done in
  let labels := [ReqStatus "t1"; ReqStart req_full "t2"; HStep 1; HStep 1] in
  let s' := default s (run labels s) in
  let p := TEMP_DIR // "t1" // "output.mp4" in
  let j := {| status := done; folder := TEMP_DIR // "t1";
              output_file := Some p; error := None;
              worker := Some "JobWorker-1" |} in
  reachable s ∧ JOBS s !! "t1" = Some 0 ∧ heap s !! 0 = Some j ∧
  status j = done ∧ output_file j = Some p ∧
  forallb (λ pc, negb (cleans "t1" pc)) (cleanups s) = true ∧
  forallb (λ a, negb (asks_result "t1" a)) labels = true ∧
  run labels s = Some s' ∧
  JOBS s' !! "t1" = Some 0 ∧ heap s' !! 0 = Some j ∧
  (∀ q, under "t1" q → fs s' !! q = fs s !! q) ∧
  (encode_result "t1" s').1 = send_file p ("t1" +:+ ".mp4").
Proof.
  cbv zeta.
  assert (H1 : reachable (after one_job_done)).
  { apply after_reachable. vm_compute. reflexivity. }
  assert (H2 : JOBS (after one_job_done) !! "t1" = Some 0)
    by (vm_compute; reflexivity).
  assert (H3 : heap (after one_job_done) !! 0
               = Some {| status := done; folder := TEMP_DIR // "t1";
                         output_file := Some (TEMP_DIR // "t1" // "output.mp4");
                         error := None; worker := Some "JobWorker-1" |})
    by (vm_compute; reflexivity).
  assert (H4 : forallb (λ pc, negb (cleans "t1" pc))
                 (cleanups (after one_job_done)) = true)
    by (vm_compute; reflexivity).
  assert (H5 : run [ReqStatus "t1"; ReqStart req_full "t2"; HStep 1; HStep 1]
                 (after one_job_done)
               = Some (default (after one_job_done)
                         (run [ReqStatus "t1"; ReqStart req_full "t2";
                               HStep 1; HStep 1] (after one_job_done)))).
  { apply default_Some. vm_compute. reflexivity. }
  split; [exact H1|]. split; [exact H2|]. split; [exact H3|].
  split; [reflexivity|]. split; [reflexivity|]. split; [exact H4|].
  split; [reflexivity|]. split; [exact H5|].
  exact (done_job_kept_until_collected _ _ _ _ _ _
           [ReqStatus "t1"; ReqStart req_full "t2"; HStep 1; HStep 1]
           H1 H2 H3 eq_refl eq_refl H4 eq_refl H5).
Defined.

Lemma tickets_do_not_share_records_witness :
  let s := after one_job_queued in
  reachable s ∧ JOBS s !! "t1" = Some 0 ∧
  is_Some (heap s !! 0) ∧ ∀ t', JOBS s !! t' = Some 0 → t' = "t1".
Proof.
  cbv zeta.
  assert (H1 : reachable (after one_job_queued)).
  { apply after_reachable. vm_compute. reflexivity. }
  assert (H2 : JOBS (after one_job_queued) !! "t1" = Some 0)
    by (vm_compute; reflexivity).
  split; [exact H1|]. split; [exact H2|].
  exact (tickets_do_not_share_records _ _ _ H1 H2).
Defined.

End Witnesses.
